(** * hrdic.py: grain segmentation of a DIC map and its link to an EBSD map

    A shallow embedding of [Map.setCrop], [Map.crop], [Map.floodFill],
    [Map.findGrains] and of the [Grain] container of [src/hrdic.py], with the
    properties of the flood-fill segmenter and of the grain correspondence
    loop stated over it. *)

From Stdlib Require Import ZArith Lia Floats.
From stdpp Require Import base tactics option numbers list sorting.

Local Open Scope Z_scope.

(** ** Python outcomes

    A call either returns, raises, or (for the two [while] loops, which are
    run on a step budget) has not returned within the budget. *)

Inductive exn : Type := IndexError | TypeError.

Inductive outcome (A : Type) : Type :=
  | Ret (a : A)
  | Raise (e : exn)
  | Diverge.
Arguments Ret {A} a.
Arguments Raise {A} e.
Arguments Diverge {A}.

#[global] Instance outcome_ret : MRet outcome := fun A a => Ret a.
#[global] Instance outcome_bind : MBind outcome := fun A B f c =>
  match c with
  | Ret a => f a
  | Raise e => Raise e
  | Diverge => Diverge
  end.

(** A [for] loop whose body may raise. *)
Fixpoint for_each {A St : Type} (body : St -> A -> outcome St) (l : list A)
    (st : St) : outcome St :=
  match l with
  | [] => Ret st
  | a :: l' => st' ← body st a; for_each body l' st'
  end.

(** ** numpy arrays

    A two-dimensional array is the list of its rows.  Indexing follows numpy:
    an index [i] on an axis of size [n] is valid when [-n <= i < n], a negative
    one counts from the end, anything else raises [IndexError]. *)

Abbreviation ndarray A := (list (list A)).

Definition norm_index (n : nat) (i : Z) : option nat :=
  if bool_decide (0 ≤ i < Z.of_nat n) then Some (Z.to_nat i)
  else if bool_decide (- Z.of_nat n ≤ i < 0) then Some (Z.to_nat (i + Z.of_nat n))
  else None.

Definition cell {A} (a : ndarray A) (t s : Z) : option A :=
  i ← norm_index (length a) t;
  row ← a !! i;
  j ← norm_index (length row) s;
  row !! j.

(** [a[t, s]] *)
Definition getitem {A} (a : ndarray A) (t s : Z) : outcome A :=
  match cell a t s with
  | Some v => Ret v
  | None => Raise IndexError
  end.

(** [a[t, s] = v] *)
Definition setitem {A} (a : ndarray A) (t s : Z) (v : A) : outcome (ndarray A) :=
  match norm_index (length a) t with
  | Some i =>
      match a !! i with
      | Some row =>
          match norm_index (length row) s with
          | Some j => Ret (<[i := <[j := v]> row]> a)
          | None => Raise IndexError
          end
      | None => Raise IndexError
      end
  | None => Raise IndexError
  end.

(** [np.where(a == v)], as the list of (row, column) pairs in row-major
    order; numpy returns the two coordinate arrays of the same pairs. *)
Fixpoint where_row (v : Z) (t s : Z) (row : list Z) : list (Z * Z) :=
  match row with
  | [] => []
  | c :: row' =>
      (if bool_decide (c = v) then [(t, s)] else []) ++ where_row v t (s + 1) row'
  end.

Fixpoint where_rows (v : Z) (t : Z) (a : ndarray Z) : list (Z * Z) :=
  match a with
  | [] => []
  | row :: a' => where_row v t 0 row ++ where_rows v (t + 1) a'
  end.

Definition np_where_eq (a : ndarray Z) (v : Z) : list (Z * Z) := where_rows v 0 a.

(** Python slice [l[start:stop]] with both bounds given and step 1. *)
Definition slice_bound (n : nat) (i : Z) : nat :=
  if bool_decide (i < 0) then Z.to_nat (Z.max 0 (i + Z.of_nat n))
  else Z.to_nat (Z.min i (Z.of_nat n)).

Definition py_slice {A} (l : list A) (start stop : Z) : list A :=
  let lo := slice_bound (length l) start in
  let hi := slice_bound (length l) stop in
  take (hi - lo)%nat (drop lo l).

(** Python list indexing [l[i]] (negative indices count from the end),
    returning the position that is read. *)
Definition py_index {A} (l : list A) (i : Z) : outcome nat :=
  match norm_index (length l) i with
  | Some k => Ret k
  | None => Raise IndexError
  end.

(** ** The [Grain] class *)

Record Grain : Type := mkGrain {
  coordList : list (Z * Z);        (* coords stored as tuples (x, y) *)
  maxShearList : list float;
  ebsdGrainId : option Z;
  ebsdGrain : option nat           (* the EBSD grain object, by its position
                                      in [ebsdMap.grainList] *)
}.

(** [Grain.__init__] *)
Definition Grain_init : Grain :=
  {| coordList := []; maxShearList := []; ebsdGrainId := None; ebsdGrain := None |}.

(** [Grain.__len__] *)
Definition len (g : Grain) : Z := Z.of_nat (length (coordList g)).

(** [Grain.addPoint] *)
Definition addPoint (g : Grain) (coord : Z * Z) (maxShear : float) : Grain :=
  {| coordList := coordList g ++ [coord];
     maxShearList := maxShearList g ++ [maxShear];
     ebsdGrainId := ebsdGrainId g;
     ebsdGrain := ebsdGrain g |}.

(** ** The [Map] class

    The fields of a DIC map that cropping, segmentation and linking read or
    write.  [cropDists] is the 2x2 array [((xMin, xMax), (yMin, yMax))].
    [xdim] and [ydim] are numpy floats of integral value; [xDim] and [yDim]
    are these floats as [__init__] leaves them and Python ints once [setCrop]
    has set them, which [dims_int] records: comparisons and arithmetic take
    either, a shape takes ints only. *)

Record Map : Type := mkMap {
  xdim : Z;                        (* full size of the data *)
  ydim : Z;
  xDim : Z;                        (* size after cropping *)
  yDim : Z;
  dims_int : bool;                 (* xDim, yDim are Python ints *)
  cropDists : (Z * Z) * (Z * Z);
  max_shear : ndarray float;
  ebsdShift : Z * Z;
  grains : ndarray Z;
  grainList : list Grain;
  ebsdGrainIds : list Z
}.

Definition cropDists_0_0 (self : Map) : Z := (cropDists self).1.1.
Definition cropDists_0_1 (self : Map) : Z := (cropDists self).1.2.
Definition cropDists_1_0 (self : Map) : Z := (cropDists self).2.1.
Definition cropDists_1_1 (self : Map) : Z := (cropDists self).2.2.

(** [Map.setCrop], called with its four arguments given. *)
Definition setCrop (self : Map) (xMin xMax yMin yMax : Z) : Map :=
  {| xdim := xdim self; ydim := ydim self;
     xDim := xdim self - xMin - xMax;
     yDim := ydim self - yMin - yMax;
     dims_int := true;
     cropDists := ((xMin, xMax), (yMin, yMax));
     max_shear := max_shear self; ebsdShift := ebsdShift self;
     grains := grains self; grainList := grainList self;
     ebsdGrainIds := ebsdGrainIds self |}.

(** [Map.crop]: [mapData[yMin:-yMax, xMin:-xMax]]. *)
Definition crop {A} (self : Map) (mapData : ndarray A) : ndarray A :=
  (fun row => py_slice row (cropDists_0_0 self) (- cropDists_0_1 self))
    <$> py_slice mapData (cropDists_1_0 self) (- cropDists_1_1 self).

(** *** Flood fill *)

(** The candidate moves from (x, y): the four neighbours, less those the
    two bound tests delete. *)
Definition moves_from (self : Map) (x y : Z) : list (Z * Z) :=
  let moves := [(x + 1, y); (x - 1, y); (x, y + 1); (x, y - 1)] in
  let '(moves, movesIndexShift) :=
    if bool_decide (x ≤ 0) then (delete 1%nat moves, 1%nat)
    else if bool_decide (x >= xDim self - 1) then (delete 0%nat moves, 1%nat)
    else (moves, 0%nat) in
  if bool_decide (y ≤ 0) then delete (3 - movesIndexShift)%nat moves
  else if bool_decide (y >= yDim self - 1) then delete (2 - movesIndexShift)%nat moves
  else moves.

(** State of one sweep over the frontier: the label grid [self.grains], the
    grain being grown and the next frontier. *)
Definition fill_state : Type := ndarray Z * Grain * list (Z * Z).

(** Body of [for (s, t) in moves], for the frontier pixel (x, y).  The local
    list [grain] of the source duplicates [coordList] and is never read. *)
Definition visit (self : Map) (grainIndex x y : Z) (st : fill_state) (mv : Z * Z)
  : outcome fill_state :=
  let '(g, currentGrain, newedge) := st in
  let '(s, t) := mv in
  label ← getitem g t s;
  if bool_decide (label = 0) then
    maxShear ← getitem (max_shear self) (y + cropDists_1_0 self) (x + cropDists_0_0 self);
    g' ← setitem g t s grainIndex;
    mret (g', addPoint currentGrain (s, t) maxShear, newedge ++ [(s, t)])
  else if bool_decide (label = -1) && (bool_decide (s > x) || bool_decide (t > y)) then
    maxShear ← getitem (max_shear self) (y + cropDists_1_0 self) (x + cropDists_0_0 self);
    g' ← setitem g t s grainIndex;
    mret (g', addPoint currentGrain (s, t) maxShear, newedge)
  else mret st.

(** Body of [for (x, y) in edge]. *)
Definition expand (self : Map) (grainIndex : Z) (st : fill_state) (p : Z * Z)
  : outcome fill_state :=
  for_each (visit self grainIndex p.1 p.2) (moves_from self p.1 p.2) st.

(** [while edge: ...].  Leaving the loop by its guard makes [floodFill] fall
    off its end and return [None]. *)
Fixpoint floodFill_while (self : Map) (grainIndex : Z) (fuel : nat)
    (edge : list (Z * Z)) (g : ndarray Z) (currentGrain : Grain)
  : outcome (ndarray Z * option Grain) :=
  match edge with
  | [] => Ret (g, None)
  | _ :: _ =>
      match fuel with
      | O => Diverge
      | S fuel' =>
          '(g', currentGrain', newedge) ←
            for_each (expand self grainIndex) edge (g, currentGrain, []);
          match newedge with
          | [] => Ret (g', Some currentGrain')
          | _ :: _ => floodFill_while self grainIndex fuel' newedge g' currentGrain'
          end
      end
  end.

(** [Map.floodFill], on the label grid [g] for [self.grains]. *)
Definition floodFill (self : Map) (g : ndarray Z) (x y grainIndex : Z) (fuel : nat)
  : outcome (ndarray Z * option Grain) :=
  maxShear ← getitem (max_shear self) (y + cropDists_1_0 self) (x + cropDists_0_0 self);
  let currentGrain := addPoint Grain_init (x, y) maxShear in
  g' ← setitem g y x grainIndex;
  floodFill_while self grainIndex fuel [(x, y)] g' currentGrain.

(** *** Segmentation: the first loop of [Map.findGrains] *)

(** [self.grains], [self.grainList] and [grainIndex]. *)
Definition seg_state : Type := ndarray Z * list Grain * Z.

(** [for coord in currentGrain.coordList: self.grains[coord[1], coord[0]] = -2] *)
Definition purge (g : ndarray Z) (coords : list (Z * Z)) : outcome (ndarray Z) :=
  for_each (fun g coord => setitem g coord.2 coord.1 (-2)) coords g.

(** One pass of the [while] loop, seeded at the first unknown point
    [(row, col)]. *)
Definition findGrains_pass (self : Map) (minGrainSize : Z) (fuel : nat)
    (row col : Z) (st : seg_state) : outcome seg_state :=
  let '(g, grainList, grainIndex) := st in
  '(g', r) ← floodFill self g col row grainIndex fuel;
  match r with
  | None => Raise TypeError                     (* len(None) *)
  | Some currentGrain =>
      let grainSize := len currentGrain in
      if bool_decide (grainSize < minGrainSize) then
        g'' ← purge g' (coordList currentGrain);
        mret (g'', grainList, grainIndex)
      else
        mret (g', grainList ++ [currentGrain], grainIndex + 1)
  end.

Fixpoint findGrains_while (self : Map) (minGrainSize : Z) (fuel : nat)
    (st : seg_state) : outcome seg_state :=
  match np_where_eq st.1.1 0 with
  | [] => Ret st
  | (row, col) :: _ =>
      match fuel with
      | O => Diverge
      | S fuel' =>
          st' ← findGrains_pass self minGrainSize fuel' row col st;
          findGrains_while self minGrainSize fuel' st'
      end
  end.

(** Lines 236-262 of [findGrains]: from [self.boundaries] to the label grid
    and the grain list. *)
Definition segment (self : Map) (boundaries : ndarray Z) (minGrainSize : Z)
    (fuel : nat) : outcome seg_state :=
  findGrains_while self minGrainSize fuel (boundaries, [], 1).

(** *** Linking: the last loop of [Map.findGrains] *)

(** The attributes of the EBSD map that linking reads.  Its grain objects are
    kept by their position in [ebsdMap.grainList], so the list is its length. *)
Record EbsdMap : Type := mkEbsdMap {
  ebsd_grains : ndarray Z;
  ebsd_grainList : nat
}.

(** [a[w == v]]: the entries of [a] where the same-shaped [w] holds [v], in
    row-major order. *)
Fixpoint select_row (v : Z) (row wrow : list Z) : list Z :=
  match row, wrow with
  | c :: row', w :: wrow' =>
      (if bool_decide (w = v) then [c] else []) ++ select_row v row' wrow'
  | _, _ => []
  end.

Definition mask_select (a w : ndarray Z) (v : Z) : outcome (list Z) :=
  if bool_decide (length <$> a = length <$> w)
  then Ret (concat (zip_with (select_row v) a w))
  else Raise IndexError.

Definition count_of (v : Z) (a : list Z) : Z :=
  Z.of_nat (length (filter (fun c => c = v) a)).

(** [scipy.stats.mode] of a one-dimensional array, after the library: the
    distinct values are scanned in increasing order and a value replaces the
    current mode when it occurs strictly more often, so the smallest most
    frequent value wins; both result arrays are empty for an empty input. *)
Definition stats_mode (a : list Z) : list Z * list Z :=
  match a with
  | [] => ([], [])
  | _ :: _ =>
      let scores := merge_sort Z.le (remove_dups a) in
      let '(mostfrequent, oldcounts) :=
        foldl (fun '(oldmostfreq, oldcounts) score =>
                 let counts := count_of score a in
                 if bool_decide (counts > oldcounts) then (score, counts)
                 else (oldmostfreq, oldcounts))
              (0, 0) scores in
      ([mostfrequent], [oldcounts])
  end.

(** [l[i]] on a Python list or a one-dimensional array. *)
Definition py_getitem {A} (l : list A) (i : Z) : outcome A :=
  match norm_index (length l) i ≫= (l !!.) with
  | Some v => Ret v
  | None => Raise IndexError
  end.

Definition set_ebsdGrainId (g : Grain) (v : Z) : Grain :=
  {| coordList := coordList g; maxShearList := maxShearList g;
     ebsdGrainId := Some v; ebsdGrain := ebsdGrain g |}.

Definition set_ebsdGrain (g : Grain) (k : nat) : Grain :=
  {| coordList := coordList g; maxShearList := maxShearList g;
     ebsdGrainId := ebsdGrainId g; ebsdGrain := Some k |}.

(** Body of [for i in range(len(self.grainList))]; the state is
    [self.grainList] and [self.ebsdGrainIds]. *)
Definition link_grain (ebsdMap : EbsdMap) (warpedDicGrains : ndarray Z)
    (st : list Grain * list Z) (i : nat) : outcome (list Grain * list Z) :=
  let '(grainList, ebsdGrainIds) := st in
  footprint ← mask_select (ebsd_grains ebsdMap) warpedDicGrains (Z.of_nat i + 1);
  let '(modeId, _) := stats_mode footprint in
  m ← py_getitem modeId 0;
  let ebsdGrainIds := ebsdGrainIds ++ [m - 1] in
  m ← py_getitem modeId 0;
  gr ← py_getitem grainList (Z.of_nat i);
  let grainList := <[i := set_ebsdGrainId gr (m - 1)]> grainList in
  m ← py_getitem modeId 0;
  k ← py_index (seq 0 (ebsd_grainList ebsdMap)) (m - 1);
  gr ← py_getitem grainList (Z.of_nat i);
  mret (<[i := set_ebsdGrain gr k]> grainList, ebsdGrainIds).

(** Lines 276-285 of [findGrains].  [warpedDicGrains] is the label grid after
    padding by [ebsdShift] and [tf.warp] with the inverse transform. *)
Definition findGrains_link (ebsdMap : EbsdMap) (warpedDicGrains : ndarray Z)
    (grainList : list Grain) : outcome (list Grain * list Z) :=
  for_each (link_grain ebsdMap warpedDicGrains) (seq 0 (length grainList))
           (grainList, []).

(** *** [Map.findGrains] as a whole *)

Section FindGrains.

(** Lines 266-273: the label grid padded by [ebsdShift] and warped into the
    EBSD frame by skimage's [tf.warp] with the inverse transform. *)
Variable warp_to_ebsd : Z * Z -> ndarray Z -> ndarray Z.

Definition findGrains (self : Map) (boundaries : ndarray Z) (ebsdMap : EbsdMap)
    (minGrainSize : Z) (fuel : nat) : outcome Map :=
  '(g, gl, _) ← segment self boundaries minGrainSize fuel;
  let warpedDicGrains := warp_to_ebsd (ebsdShift self) g in
  '(gl', ids) ← findGrains_link ebsdMap warpedDicGrains gl;
  mret {| xdim := xdim self; ydim := ydim self;
          xDim := xDim self; yDim := yDim self; dims_int := dims_int self;
          cropDists := cropDists self;
          max_shear := max_shear self; ebsdShift := ebsdShift self;
          grains := g; grainList := gl'; ebsdGrainIds := ids |}.

End FindGrains.

(** ** Specification vocabulary *)

(** A pixel is the tuple (x, y); its label is [g[y, x]]. *)
Definition label (g : ndarray Z) (p : Z * Z) : option Z := cell g p.2 p.1.

(** The scalar field at a cropped pixel: [max_shear[y + yMin, x + xMin]]. *)
Definition field_sample (self : Map) (p : Z * Z) : outcome float :=
  getitem (max_shear self) (p.2 + cropDists_1_0 self) (p.1 + cropDists_0_0 self).

Definition inb (self : Map) (p : Z * Z) : Prop :=
  0 ≤ p.1 < xDim self ∧ 0 ≤ p.2 < yDim self.

(** [g] has shape [(yDim, xDim)]. *)
Definition shape_ok (self : Map) (g : ndarray Z) : Prop :=
  Z.of_nat (length g) = yDim self ∧
  Forall (fun row => Z.of_nat (length row) = xDim self) g.

(** The scalar field covers the cropped grid shifted by the crop offsets. *)
Definition field_ok (self : Map) : Prop :=
  0 ≤ cropDists_0_0 self ∧ 0 ≤ cropDists_1_0 self ∧
  yDim self + cropDists_1_0 self ≤ Z.of_nat (length (max_shear self)) ∧
  Forall (fun row => xDim self + cropDists_0_0 self ≤ Z.of_nat (length row))
         (max_shear self).

(** A boundary mask cast to labels: every entry is 0 or -1. *)
Definition is_mask (g : ndarray Z) : Prop :=
  Forall (Forall (fun c => c = 0 ∨ c = -1)) g.

(** Number of unknown points, [unknownPoints[0].shape[0]]. *)
Definition unknown (g : ndarray Z) : nat := length (np_where_eq g 0).

Definition adj4 (p q : Z * Z) : Prop :=
  (q.2 = p.2 ∧ (q.1 = p.1 + 1 ∨ q.1 = p.1 - 1)) ∨
  (q.1 = p.1 ∧ (q.2 = p.2 + 1 ∨ q.2 = p.2 - 1)).

(** [linked inside seed p]: a 4-connected path from [seed] to [p] all of
    whose pixels satisfy [inside]. *)
Inductive linked (inside : Z * Z -> Prop) (seed : Z * Z) : Z * Z -> Prop :=
  | linked_seed : inside seed -> linked inside seed seed
  | linked_step p q :
      linked inside seed p -> adj4 p q -> inside q -> linked inside seed q.

(** The pixels of a coordinate list that were unknown in the grid [g0]. *)
Definition interior (g0 : ndarray Z) (coords : list (Z * Z)) (p : Z * Z) : Prop :=
  p ∈ coords ∧ label g0 p = Some 0.

(** Occurrences of [v] in a row and in a grid. *)
Definition count_row (v : Z) (row : list Z) : nat :=
  length (filter (fun c => c = v) row).

Definition count_rows (v : Z) (a : ndarray Z) : nat :=
  sum_list (count_row v <$> a).

Definition ind (b : Prop) `{Decision b} : nat := if decide b then 1%nat else 0%nat.

(** Unknown points plus the length of the next frontier: constant along a
    sweep of [floodFill]. *)
Definition pending (st : fill_state) : nat := (unknown st.1.1 + length st.2)%nat.

(** The invariant of [floodFill]: [g0] is the label grid when it is called
    with the label [k] and the start pixel [seed]; [edge] is the frontier
    being swept. *)
Record fill_inv (self : Map) (g0 : ndarray Z) (k : Z) (seed : Z * Z)
    (edge : list (Z * Z)) (st : fill_state) : Prop := {
  fi_shape : shape_ok self st.1.1;
  fi_in : forall p, p ∈ coordList st.1.2 ->
    0 ≤ p.1 ∧ 0 ≤ p.2 ∧ label st.1.1 p = Some k ∧
    (label g0 p = Some 0 ∨ label g0 p = Some (-1));
  fi_out : forall p, 0 ≤ p.1 -> 0 ≤ p.2 -> p ∉ coordList st.1.2 ->
    label st.1.1 p = label g0 p;
  fi_nodup : NoDup (coordList st.1.2);
  fi_samples : length (maxShearList st.1.2) = length (coordList st.1.2);
  fi_head : head (coordList st.1.2) = Some seed;
  fi_interior : forall p, interior g0 (coordList st.1.2) p ->
    linked (interior g0 (coordList st.1.2)) seed p;
  fi_absorbed : forall p, p ∈ coordList st.1.2 -> label g0 p = Some (-1) ->
    exists q, interior g0 (coordList st.1.2) q ∧ adj4 q p;
  fi_edge : forall p, p ∈ edge ++ st.2 -> interior g0 (coordList st.1.2) p
}.

Arguments fi_shape {_ _ _ _ _ _} _.
Arguments fi_in {_ _ _ _ _ _} _.
Arguments fi_out {_ _ _ _ _ _} _.
Arguments fi_nodup {_ _ _ _ _ _} _.
Arguments fi_samples {_ _ _ _ _ _} _.
Arguments fi_head {_ _ _ _ _ _} _.
Arguments fi_interior {_ _ _ _ _ _} _.
Arguments fi_absorbed {_ _ _ _ _ _} _.
Arguments fi_edge {_ _ _ _ _ _} _.

(** [q] lies in a forward direction from [p]: [s > x or t > y]. *)
Definition forward (p q : Z * Z) : Prop := q.1 > p.1 ∨ q.2 > p.2.

(** Every move from [p] has been looked at: no neighbour is still unknown,
    and a neighbour still labelled -1 does not lie forward of [p]. *)
Definition expanded (self : Map) (g : ndarray Z) (p : Z * Z) : Prop :=
  forall q, q ∈ moves_from self p.1 p.2 ->
    label g q ≠ Some 0 ∧ (label g q = Some (-1) -> ¬ forward p q).

(** Every unknown pixel claimed so far is still on a frontier ([todo] or the
    next one) or has been expanded. *)
Definition fill_closed (self : Map) (g0 : ndarray Z) (todo : list (Z * Z))
    (st : fill_state) : Prop :=
  forall p, interior g0 (coordList st.1.2) p ->
    p ∈ todo ∨ p ∈ st.2 ∨ expanded self st.1.1 p.

(** Two all-unknown blocks, [w1] and [w2] wide and [h] high, separated by a
    boundary column; and two blocks, [h1] and [h2] high and [w] wide,
    separated by a boundary row. *)
Definition blocks_v (w1 w2 h : nat) : ndarray Z :=
  replicate h (replicate w1 0 ++ [-1] ++ replicate w2 0).

Definition blocks_h (h1 h2 w : nat) : ndarray Z :=
  replicate h1 (replicate w 0) ++ [replicate w (-1)] ++ replicate h2 (replicate w 0).

(** The unknown pixels of a grain have no unknown neighbour outside it. *)
Definition region_closed (self : Map) (mask : ndarray Z) (gr : Grain) : Prop :=
  forall p q, p ∈ coordList gr -> label mask p = Some 0 -> adj4 p q ->
    inb self q -> label mask q = Some 0 -> q ∈ coordList gr.

(** What segmentation guarantees of a grain, in terms of the boundary mask:
    distinct pixels, one sample per pixel, every unknown pixel linked to the
    first pixel through unknown pixels of the grain, every boundary pixel
    next to an unknown pixel of the grain. *)
Definition grain_ok (mask : ndarray Z) (gr : Grain) : Prop :=
  NoDup (coordList gr) ∧
  length (maxShearList gr) = length (coordList gr) ∧
  (forall p, p ∈ coordList gr ->
     0 ≤ p.1 ∧ 0 ≤ p.2 ∧ (label mask p = Some 0 ∨ label mask p = Some (-1))) ∧
  exists seed, head (coordList gr) = Some seed ∧ label mask seed = Some 0 ∧
    (forall p, interior mask (coordList gr) p ->
       linked (interior mask (coordList gr)) seed p) ∧
    (forall p, p ∈ coordList gr -> label mask p = Some (-1) ->
       exists q, interior mask (coordList gr) q ∧ adj4 q p).

(** The grain that the pass seeded at [(row, col)] grows. *)
Definition pass_grain (self : Map) (fuel : nat) (row col : Z) (st : seg_state)
  : option Grain :=
  match floodFill self st.1.1 col row st.2 fuel with
  | Ret (_, Some currentGrain) => Some currentGrain
  | _ => None
  end.

(** The grains that the passes of [findGrains_while] grow, kept or not, in
    order, and those among them that the size test discards. *)
Fixpoint grown (self : Map) (minGrainSize : Z) (fuel : nat) (st : seg_state)
  : list Grain :=
  match np_where_eq st.1.1 0 with
  | [] => []
  | (row, col) :: _ =>
      match fuel with
      | O => []
      | S fuel' =>
          match findGrains_pass self minGrainSize fuel' row col st with
          | Ret st' =>
              option_list (pass_grain self fuel' row col st)
                ++ grown self minGrainSize fuel' st'
          | _ => []
          end
      end
  end.

Definition discarded (self : Map) (minGrainSize : Z) (fuel : nat) (st : seg_state)
  : list Grain :=
  filter (fun gr => len gr < minGrainSize) (grown self minGrainSize fuel st).

(** The invariant of the segmentation loop over the boundary mask [mask];
    [passed] are the grains grown so far. *)
Record seg_inv (self : Map) (mask : ndarray Z) (minGrainSize : Z)
    (st : seg_state) (passed : list Grain) : Prop := {
  si_shape : shape_ok self st.1.1;
  si_index : st.2 = Z.of_nat (length st.1.2) + 1;
  si_mask : forall p c, 0 ≤ p.1 -> 0 ≤ p.2 -> label st.1.1 p = Some c ->
    c = 0 ∨ c = -1 -> label mask p = Some c;
  si_values : forall p c, 0 ≤ p.1 -> 0 ≤ p.2 -> label st.1.1 p = Some c ->
    c = 0 ∨ c = -1 ∨ c = -2 ∨ 1 ≤ c < st.2;
  si_registry : forall (i : nat) gr, st.1.2 !! i = Some gr ->
    forall p, 0 ≤ p.1 -> 0 ≤ p.2 ->
      (label st.1.1 p = Some (Z.of_nat i + 1) <-> p ∈ coordList gr);
  si_kept : st.1.2 = filter (fun gr => minGrainSize ≤ len gr) passed;
  si_grains : forall gr, gr ∈ passed -> grain_ok mask gr;
  si_purged : forall p, 0 ≤ p.1 -> 0 ≤ p.2 ->
    (label st.1.1 p = Some (-2) <->
     exists gr, gr ∈ passed ∧ len gr < minGrainSize ∧ p ∈ coordList gr);
  si_disjoint : forall (i j : nat) gr gr', passed !! i = Some gr ->
    passed !! j = Some gr' -> i ≠ j -> forall p, p ∈ coordList gr -> p ∉ coordList gr'
}.

Arguments si_shape {_ _ _ _ _} _.
Arguments si_index {_ _ _ _ _} _.
Arguments si_mask {_ _ _ _ _} _.
Arguments si_values {_ _ _ _ _} _.
Arguments si_registry {_ _ _ _ _} _.
Arguments si_kept {_ _ _ _ _} _.
Arguments si_grains {_ _ _ _ _} _.
Arguments si_purged {_ _ _ _ _} _.
Arguments si_disjoint {_ _ _ _ _} _.

(** What the linking loop has recorded once it has gone through the first
    [done] of [n] grains. *)
Definition linked_upto (ebsdMap : EbsdMap) (warped : ndarray Z) (n : nat)
    (done : nat) (st : list Grain * list Z) : Prop :=
  length st.1 = n ∧ length st.2 = done ∧
  forall i : nat, (i < done)%nat ->
    exists footprint m c gr (pos : nat),
      mask_select (ebsd_grains ebsdMap) warped (Z.of_nat i + 1) = Ret footprint ∧
      stats_mode footprint = ([m], [c]) ∧ m ∈ footprint ∧
      py_index (seq 0 (ebsd_grainList ebsdMap)) (m - 1) = Ret pos ∧
      st.2 !! i = Some (m - 1) ∧
      st.1 !! i = Some gr ∧ ebsdGrainId gr = Some (m - 1) ∧ ebsdGrain gr = Some pos.

(** ** Concrete inputs *)

(** A map of [w] by [h] pixels over the scalar field [ms], cropped with
    all four margins 0. *)
Definition plain_map (w h : Z) (ms : ndarray float) : Map :=
  {| xdim := w; ydim := h; xDim := w; yDim := h; dims_int := true;
     cropDists := ((0, 0), (0, 0));
     max_shear := ms; ebsdShift := (0, 0);
     grains := []; grainList := []; ebsdGrainIds := [] |}.

Definition field_2x2 : Map := plain_map 2 2 [[10; 20]; [30; 40]]%float.

(** Three rows of five pixels: a 3x3 unknown block, a boundary column, and
    a pocket of two unknown pixels closed by a boundary pixel below it. *)
Definition pocket_mask : ndarray Z :=
  [[0; 0; 0; -1; 0];
   [0; 0; 0; -1; 0];
   [0; 0; 0; -1; -1]].

Definition pocket_map : Map := plain_map 5 3 (replicate 3 (replicate 5 0.5%float)).

(** Two 5x5 blocks on either side of a boundary column, and on either side
    of a boundary row. *)
Definition blocks_v_map : Map := plain_map 11 5 (replicate 5 (replicate 11 0.5%float)).
Definition blocks_h_map : Map := plain_map 5 11 (replicate 11 (replicate 5 0.5%float)).

Definition grid_4x4 : ndarray Z :=
  [[1; 2; 3; 4]; [5; 6; 7; 8]; [9; 10; 11; 12]; [13; 14; 15; 16]].

(** An EBSD label grid with seven grains, and a warped DIC label grid whose
    grain 1 lies on EBSD background only. *)
Definition ebsd_demo : EbsdMap :=
  {| ebsd_grains := [[0; 0; 3]; [0; 7; 3]]; ebsd_grainList := 7 |}.
Definition warped_demo : ndarray Z := [[1; 1; 2]; [1; 2; 2]].

(** A warped DIC label grid on which grain 1 has no pixel: it was warped
    off the EBSD map; grain 2 lies on the EBSD grains 3 and 7. *)
Definition warped_off_map : ndarray Z := [[0; 0; 2]; [0; 2; 2]].

(** ** Set-up, warping and display

    The remaining methods of [Map] and [Grain], as far as they compute:
    the arrays that are handed to matplotlib are returned, the drawing is
    left out.  None of them loops on a condition. *)

(** numpy raises [ValueError] on a negative dimension, a reshape that does
    not fit and shapes that do not broadcast, which indexing never does: a
    checked call has an outcome as above, or raises it. *)
Inductive checked (A : Type) : Type :=
  | Within (c : outcome A)
  | ValueError.
Arguments Within {A} c.
Arguments ValueError {A}.

#[global] Instance checked_ret : MRet checked := fun A a => Within (Ret a).
#[global] Instance checked_bind : MBind checked := fun A B f c =>
  match c with
  | Within (Ret a) => f a
  | Within (Raise e) => Within (Raise e)
  | Within Diverge => Within Diverge
  | ValueError => ValueError
  end.

(** A [for] loop whose body may raise [ValueError] as well. *)
Fixpoint for_all {A St : Type} (body : St -> A -> checked St) (l : list A)
    (st : St) : checked St :=
  match l with
  | [] => mret st
  | a :: l' => st' ← body st a; for_all body l' st'
  end.

(** [a.shape] of a two-dimensional array; an array without rows is taken
    to have no column either. *)
Definition shape0 {A} (a : ndarray A) : Z := Z.of_nat (length a).
Definition shape1 {A} (a : ndarray A) : Z :=
  match a with
  | [] => 0
  | row :: _ => Z.of_nat (length row)
  end.

(** [np.full((rows, cols), v)]; [np.zeros((rows, cols))] is [np_full rows cols 0]. *)
Definition np_full {A} (rows cols : Z) (v : A) : checked (ndarray A) :=
  if bool_decide (rows < 0) || bool_decide (cols < 0) then ValueError
  else mret (replicate (Z.to_nat rows) (replicate (Z.to_nat cols) v)).

(** An operation applied to every entry of an array. *)
Definition elementwise {A B} (f : A -> B) (a : ndarray A) : ndarray B :=
  fmap (M := list) f <$> a.

(** [l[start:]] *)
Definition py_slice_from {A} (l : list A) (start : Z) : list A :=
  drop (slice_bound (length l) start) l.

(** *** [Map.__init__] and [Map._map] *)

(** The attributes that [Map.__init__] sets from the size of the data and
    from the field computed from them (lines 46-47 and 60): no crop yet, so
    [xDim] and [yDim] are the floats [xdim] and [ydim], and [cropDists] is
    [((0, xdim), (0, ydim))].  [grainList] and [ebsdGrainIds] are [None] and
    [grains] is unset until [findGrains] assigns them. *)
Definition Map_init (xdim ydim : Z) (max_shear : ndarray float) : Map :=
  {| xdim := xdim; ydim := ydim; xDim := xdim; yDim := ydim; dims_int := false;
     cropDists := ((0, xdim), (0, ydim));
     max_shear := max_shear; ebsdShift := (0, 0);
     grains := []; grainList := []; ebsdGrainIds := [] |}.

(** [n] rows of [cols] entries, read off [l] in order. *)
Fixpoint chunks {A} (n cols : nat) (l : list A) : ndarray A :=
  match n with
  | O => []
  | S n' => take cols l :: chunks n' cols (drop cols l)
  end.

(** [np.reshape(a, (rows, cols))] of a one-dimensional array, in C order.
    A negative entry of the shape is the dimension to infer; there may be
    one, and the other must divide the size. *)
Definition np_reshape {A} (a : list A) (rows cols : Z) : checked (ndarray A) :=
  let size := Z.of_nat (length a) in
  if bool_decide (rows < 0) then
    if bool_decide (cols < 0) then ValueError
    else if bool_decide (cols = 0) || negb (bool_decide (size mod cols = 0))
    then ValueError
    else mret (chunks (Z.to_nat (size / cols)) (Z.to_nat cols) a)
  else if bool_decide (cols < 0) then
    if bool_decide (rows = 0) || negb (bool_decide (size mod rows = 0))
    then ValueError
    else mret (chunks (Z.to_nat rows) (Z.to_nat (size / rows)) a)
  else if bool_decide (rows * cols = size)
  then mret (chunks (Z.to_nat rows) (Z.to_nat cols) a)
  else ValueError.

(** [Map._map]: the data column as a [(ydim, xdim)] array. *)
Definition _map {A} (self : Map) (data_col : list A) : checked (ndarray A) :=
  np_reshape data_col (ydim self) (xdim self).

(** *** [Map.setEbsdShift], [Map.warpToDicFrame] and [Map.boundaries] *)

(** [Map.setEbsdShift]; an omitted argument is [None]. *)
Definition setEbsdShift (self : Map) (xShift yShift : option Z) : Map :=
  let xShift := match xShift with None => (ebsdShift self).1 | Some v => v end in
  let yShift := match yShift with None => (ebsdShift self).2 | Some v => v end in
  {| xdim := xdim self; ydim := ydim self; xDim := xDim self; yDim := yDim self;
     dims_int := dims_int self;
     cropDists := cropDists self; max_shear := max_shear self;
     ebsdShift := (xShift, yShift);
     grains := grains self; grainList := grainList self;
     ebsdGrainIds := ebsdGrainIds self |}.

(** [np.vstack([a, b])] and [np.hstack([a, b])] of two-dimensional arrays. *)
Definition np_vstack {A} (a b : ndarray A) : checked (ndarray A) :=
  if bool_decide (shape1 a = shape1 b) then mret (a ++ b) else ValueError.

Definition np_hstack {A} (a b : ndarray A) : checked (ndarray A) :=
  if bool_decide (shape0 a = shape0 b) then mret (zip_with app a b) else ValueError.

(** Lines 266-270 of [findGrains]: the label grid with [ebsdShift[1]] rows
    and [ebsdShift[0]] columns of zeros put before it.  The zeros are floats
    and the labels become floats with them; they are small integers, which
    floats hold exactly, and stay integers here. *)
Definition pad_by_shift (self : Map) (grains : ndarray Z) : checked (ndarray Z) :=
  let dicGrains := grains in
  dicGrains ←
    (if bool_decide ((ebsdShift self).2 ≠ 0) then
       zeros ← np_full (ebsdShift self).2 (shape1 dicGrains) 0;
       np_vstack zeros dicGrains
     else mret dicGrains);
  if bool_decide ((ebsdShift self).1 ≠ 0) then
    zeros ← np_full (shape0 dicGrains) (ebsdShift self).1 0;
    np_hstack zeros dicGrains
  else mret dicGrains.

(** [c.astype(float)] of a 64-bit integer (of absolute value below 2^63). *)
Definition astype_float (c : Z) : float :=
  if bool_decide (c < 0) then (- PrimFloat.of_uint63 (Uint63.of_Z (- c)))%float
  else PrimFloat.of_uint63 (Uint63.of_Z c).

Section Warp.

(** skimage's [tf.warp(image, self.ebsdTransform, output_shape)], with the
    transform estimated from the homologous points, and its
    [mph.skeletonize] and [mph.remove_small_objects(.., min_size=10,
    in_place=True, connectivity=2)], the latter by the array it leaves in
    place of its argument. *)
Variable tf_warp : ndarray float -> Z * Z -> checked (ndarray float).
Variable skeletonize : ndarray bool -> checked (ndarray bool).
Variable remove_small_objects : ndarray bool -> checked (ndarray bool).

(** [Map.warpToDicFrame] *)
Definition warpToDicFrame (self : Map) (mapData : ndarray float)
  : checked (ndarray float) :=
  warpedMap ← tf_warp mapData (yDim self + (ebsdShift self).2,
                               xDim self + (ebsdShift self).1);
  mret ((fun row => py_slice_from row (ebsdShift self).1)
          <$> py_slice_from warpedMap (ebsdShift self).2).

(** The property [Map.boundaries], over [self.ebsdMap.boundaries]. *)
Definition boundaries (self : Map) (ebsd_boundaries : ndarray Z)
  : checked (ndarray Z) :=
  warped ← warpToDicFrame self
             (elementwise (fun c => (- astype_float c)%float) ebsd_boundaries);
  (* > 0.1, the double nearest to it *)
  let boundaries := elementwise (fun v => (0x1.999999999999ap-4 <? v)%float) warped in
  boundaries ← skeletonize boundaries;
  boundaries ← remove_small_objects boundaries;
  mret (elementwise (fun b : bool => - (if b then 1 else 0)) boundaries).

End Warp.

(** *** [Grain.extremeCoords], [Grain.grainOutline] and [Grain.plotMaxShear] *)

(** [min(t)] and [max(t)] of a tuple with first entry [v]. *)
Definition py_min (v : Z) (t : list Z) : Z := foldl Z.min v t.
Definition py_max (v : Z) (t : list Z) : Z := foldl Z.max v t.

(** [Grain.extremeCoords]: [(x0, y0, xmax, ymax)].  For a grain without
    points [list(zip())] is empty and its entry 0 is missing. *)
Definition extremeCoords (g : Grain) : outcome (Z * Z * Z * Z) :=
  match coordList g with
  | [] => Raise IndexError
  | c :: cs =>
      Ret (py_min c.1 cs.*1, py_min c.2 cs.*2, py_max c.1 cs.*1, py_max c.2 cs.*2)
  end.

(** [Grain.plotMaxShear]: the image [grainMaxShear * multiplier] that is
    shown. *)
Definition Grain_plotMaxShear (g : Grain) (plotPercent : bool)
  : checked (ndarray float) :=
  let multiplier := if plotPercent then 100%float else 1%float in
  '(x0, y0, xmax, ymax) ← Within (extremeCoords g);
  grainMaxShear ← np_full (ymax - y0 + 1) (xmax - x0 + 1) nan;
  grainMaxShear ←
    Within (for_each (fun grainMaxShear '(coord, maxShear) =>
                        setitem grainMaxShear (coord.2 - y0) (coord.1 - x0) maxShear)
                     (zip (coordList g) (maxShearList g)) grainMaxShear);
  mret (elementwise (fun v => (v * multiplier)%float) grainMaxShear).

(** An entry of an array of [dtype=int] is a 64-bit integer; [int64] is a
    Python int that such an entry holds. *)
Record int64 : Type := mk_int64 {
  int64_val : Z;
  int64_range : (- 2 ^ 63 <=? int64_val) && (int64_val <? 2 ^ 63) = true
}.

Definition int64_0 : int64 := mk_int64 0 eq_refl.
Definition int64_1 : int64 := mk_int64 1 eq_refl.

(** The background colour of [grainOutline]: such an int, or [np.nan], its
    default. *)
Inductive colour : Type :=
  | ColourInt (v : int64)
  | ColourNan.

Section Display.

(** The int64 that the conversion of [np.nan] to an integer gives: numpy
    leaves it to the C cast of the platform. *)
Variable nan_as_int : int64.

(** The entry that [np.full(.., bg, dtype=int)] stores. *)
Definition as_int64 (c : colour) : Z :=
  match c with
  | ColourInt v => int64_val v
  | ColourNan => int64_val nan_as_int
  end.

(** [Grain.grainOutline(bg, fg)] *)
Definition grainOutline (g : Grain) (bg : colour) (fg : int64)
  : checked (ndarray Z) :=
  '(x0, y0, xmax, ymax) ← Within (extremeCoords g);
  outline ← np_full (ymax - y0 + 1) (xmax - x0 + 1) (as_int64 bg);
  Within (for_each (fun outline coord =>
                      setitem outline (coord.2 - y0) (coord.1 - x0) (int64_val fg))
                   (coordList g) outline).

(** *** [Map.highlightGrains] and [Map.clickGrainId] *)

(** The first index and the length of the slice [start:stop] of an axis of
    size [n]. *)
Definition slice_range (n : nat) (start stop : Z) : nat * nat :=
  let lo := slice_bound n start in
  let hi := slice_bound n stop in
  (lo, (hi - lo)%nat).

(** numpy broadcasting of one axis: equal sizes, or one of them 1. *)
Definition broadcast_dim (a b : nat) : option nat :=
  if bool_decide (a = b) then Some a
  else if bool_decide (a = 1%nat) then Some b
  else if bool_decide (b = 1%nat) then Some a
  else None.

(** The index read on an axis of size [n] that is broadcast. *)
Definition bidx (n i : nat) : nat := if bool_decide (n = 1%nat) then 0%nat else i.

Definition at2 (a : ndarray Z) (i j : nat) : Z :=
  match a !! i ≫= (.!! j) with Some v => v | None => 0 end.

(** Body of [for grainId in grainIds].  [outline] has the shape
    [(yDim, xDim)] it was allocated with; its slice
    [outline[y0:ymax + 1, x0:xmax + 1]] has [a] rows from [r0] and [b]
    columns from [c0]; [np.logical_or] broadcasts the slice with the grain
    outline, and the assignment broadcasts the result to the slice. *)
Definition highlight_grain (self : Map) (outline : ndarray Z) (grainId : Z)
  : checked (ndarray Z) :=
  gr ← Within (py_getitem (grainList self) grainId);
  grainOutline ← grainOutline gr (ColourInt int64_0) int64_1;
  gr ← Within (py_getitem (grainList self) grainId);
  '(x0, y0, xmax, ymax) ← Within (extremeCoords gr);
  let '(r0, a) := slice_range (Z.to_nat (yDim self)) y0 (ymax + 1) in
  let '(c0, b) := slice_range (Z.to_nat (xDim self)) x0 (xmax + 1) in
  let h := Z.to_nat (shape0 grainOutline) in
  let w := Z.to_nat (shape1 grainOutline) in
  match broadcast_dim a h, broadcast_dim b w with
  | Some r, Some s =>
      if (bool_decide (r = a) || bool_decide (r = 1%nat))
         && (bool_decide (s = b) || bool_decide (s = 1%nat)) then
        let value (i j : nat) : Z :=
          if bool_decide (at2 outline (r0 + bidx a i) (c0 + bidx b j) ≠ 0)
             || bool_decide (at2 grainOutline (bidx h i) (bidx w j) ≠ 0)
          then 1 else 0 in
        mret (imap (fun y row =>
                      imap (fun x old =>
                              if bool_decide (r0 ≤ y < r0 + a)%nat
                                 && bool_decide (c0 ≤ x < c0 + b)%nat
                              then value (bidx r (y - r0)) (bidx s (x - c0))
                              else old) row) outline)
      else ValueError
  | _, _ => ValueError
  end.

(** [Map.highlightGrains]: the overlay that is drawn.  [np.zeros] takes
    ints only as a shape and raises [TypeError] on the floats that [xDim]
    and [yDim] are before [setCrop]. *)
Definition highlightGrains (self : Map) (grainIds : list Z) : checked (ndarray Z) :=
  outline ← (if dims_int self then np_full (yDim self) (xDim self) 0
             else Within (Raise TypeError));
  for_all (highlight_grain self) grainIds outline.

(** [Map.clickGrainId]: the grain id it selects and the overlay it has
    [highlightGrains] draw for it.  The event is [None] outside the axes and
    [(int(event.xdata), int(event.ydata))] inside. *)
Definition clickGrainId (self : Map) (event : option (Z * Z))
  : checked (option (Z * ndarray Z)) :=
  match event with
  | None => mret None
  | Some (xdata, ydata) =>
      c ← Within (getitem (grains self) ydata xdata);
      let currGrainId := c - 1 in
      outline ← highlightGrains self [currGrainId];
      mret (Some (currGrainId, outline))
  end.

End Display.

(** The value that a sequence of writes [(coord, v)] leaves at [p] in an
    array that held [d] there: that of the last write at [p]. *)
Fixpoint painted {A} (writes : list (Z * Z * A)) (p : Z * Z) (d : A) : A :=
  match writes with
  | [] => d
  | cv :: writes' => painted writes' p (if decide (cv.1 = p) then cv.2 else d)
  end.

(** [a] has [rows] rows of [cols] entries. *)
Definition has_shape {A} (a : ndarray A) (rows cols : Z) : Prop :=
  Z.of_nat (length a) = rows ∧ Forall (fun row => Z.of_nat (length row) = cols) a.

(** Raster order of pixels (x, y): row by row, and from left to right
    within a row. *)
Definition raster_lt (p q : Z * Z) : Prop := p.2 < q.2 ∨ (p.2 = q.2 ∧ p.1 < q.1).

(** The first pixel of [gr] comes before the first pixel of [gr'] in raster
    order. *)
Definition seed_before (gr gr' : Grain) : Prop :=
  exists s s', head (coordList gr) = Some s ∧ head (coordList gr') = Some s' ∧
    raster_lt s s'.

(** Where the samples of a grain are taken: the first at the first pixel,
    and each later one at an earlier pixel of the grain that is unknown in
    [mask] and 4-adjacent to the pixel the sample is stored with. *)
Definition sampled_from (self : Map) (mask : ndarray Z) (gr : Grain) : Prop :=
  forall (i : nat) p v,
    coordList gr !! i = Some p -> maxShearList gr !! i = Some v ->
    (i = 0%nat ∧ field_sample self p = Ret v) ∨
    (exists (j : nat) q, (j < i)%nat ∧ coordList gr !! j = Some q ∧ adj4 q p ∧
       label mask q = Some 0 ∧ field_sample self q = Ret v).

(** Every boundary pixel of the mask that lies forward of an unknown pixel
    of [gr] belongs to a grain of [all]. *)
Definition absorbs_forward (self : Map) (mask : ndarray Z) (all : list Grain)
    (gr : Grain) : Prop :=
  forall p b, p ∈ coordList gr -> label mask p = Some 0 ->
    adj4 p b -> forward p b -> inb self b -> label mask b = Some (-1) ->
    exists gr', gr' ∈ all ∧ b ∈ coordList gr'.

(** The pixels of a grain that are unknown in the mask, in the order of the
    grain. *)
Definition interior_list (mask : ndarray Z) (gr : Grain) : list (Z * Z) :=
  filter (fun p => label mask p = Some 0) (coordList gr).

(** A 4x4 scalar field, and the full-size map over it. *)
Definition field_4x4 : ndarray float :=
  [[1; 2; 3; 4]; [5; 6; 7; 8]; [9; 10; 11; 12]; [13; 14; 15; 16]]%float.

Definition map_4x4 : Map := Map_init 4 4 field_4x4.

(** A map of 3 by 2 pixels whose EBSD frame is shifted by (1, 2), a label
    grid of its shape, and stand-ins for the image library: a warp that
    returns the image as it is when it has the output shape (and fails
    otherwise), a skeleton and a small-object filter that change nothing. *)
Definition shifted_map : Map :=
  {| xdim := 3; ydim := 2; xDim := 3; yDim := 2; dims_int := true;
     cropDists := ((0, 0), (0, 0));
     max_shear := replicate 2 (replicate 3 0.5%float); ebsdShift := (1, 2);
     grains := []; grainList := []; ebsdGrainIds := [] |}.

Definition labels_3x2 : ndarray Z := [[1; -1; 2]; [1; -1; 2]].

Definition warp_identity (image : ndarray float) (output_shape : Z * Z)
  : checked (ndarray float) :=
  if bool_decide (shape0 image = output_shape.1
                  ∧ Forall (fun row => Z.of_nat (length row) = output_shape.2) image)
  then mret image else ValueError.

Definition keep_all (a : ndarray bool) : checked (ndarray bool) := mret a.

Definition ebsd_boundaries_4x4 : ndarray Z :=
  [[0; 0; 0; 0]; [0; 0; 0; 0]; [0; 0; -1; 0]; [0; 0; -1; 0]].

(** An L-shaped grain of three pixels and a grain of one pixel, with their
    samples, and a map of 4 by 3 pixels that holds them. *)
Definition grain_L : Grain :=
  {| coordList := [(1, 1); (2, 1); (1, 2)]; maxShearList := [1; 2; 3]%float;
     ebsdGrainId := None; ebsdGrain := None |}.

Definition grain_dot : Grain :=
  {| coordList := [(3, 0)]; maxShearList := [4]%float;
     ebsdGrainId := None; ebsdGrain := None |}.

Definition map_two_grains : Map :=
  {| xdim := 4; ydim := 3; xDim := 4; yDim := 3; dims_int := true;
     cropDists := ((0, 0), (0, 0));
     max_shear := replicate 3 (replicate 4 0.5%float); ebsdShift := (0, 0);
     grains := [[-1; -1; -1; 2]; [-1; 1; 1; -1]; [-1; 1; -1; -1]];
     grainList := [grain_L; grain_dot]; ebsdGrainIds := [] |}.

(** * Proofs *)

(** ** The outcome monad and [for] loops *)

Lemma bind_Ret {A B} (c : outcome A) (f : A -> outcome B) (b : B) :
  c ≫= f = Ret b -> exists a, c = Ret a ∧ f a = Ret b.
Proof. destruct c; simpl; intros; eauto; discriminate. Qed.

Lemma bind_not_Diverge {A B} (c : outcome A) (f : A -> outcome B) :
  c ≠ Diverge -> (forall a, c = Ret a -> f a ≠ Diverge) -> c ≫= f ≠ Diverge.
Proof. destruct c; simpl; intros; eauto; discriminate. Qed.

Lemma mret_Ret {A} (a b : A) : (mret a : outcome A) = Ret b -> a = b.
Proof. by intros [= ->]. Qed.

Ltac inv_ret :=
  repeat match goal with
         | H : mret _ = Ret _ |- _ => apply mret_Ret in H
         end;
  simplify_eq.

Ltac inv_bind H :=
  let a := fresh "a" in
  let Ha := fresh "Ha" in
  apply bind_Ret in H; destruct H as (a & Ha & H).

Lemma for_each_app {A St} (body : St -> A -> outcome St) l1 l2 st :
  for_each body (l1 ++ l2) st = for_each body l1 st ≫= for_each body l2.
Proof.
  revert st; induction l1 as [|a l1 IH]; intros st; simpl; [done|].
  destruct (body st a); simpl; auto.
Qed.

(** Invariant rule: [P] is indexed by the part of the list already done. *)
Lemma for_each_inv {A St} (P : list A -> St -> Prop) (body : St -> A -> outcome St)
    (l : list A) (st st' : St) :
  P [] st ->
  (forall pre a s s', take (S (length pre)) l = pre ++ [a] -> P pre s ->
     body s a = Ret s' -> P (pre ++ [a]) s') ->
  for_each body l st = Ret st' -> P l st'.
Proof.
  intros H0 Hstep.
  assert (G : forall suf pre s, l = pre ++ suf -> P pre s ->
              for_each body suf s = Ret st' -> P l st').
  { induction suf as [|a suf IH]; intros pre s El Hp Hr; simpl in Hr.
    - rewrite app_nil_r in El. congruence.
    - inv_bind Hr. apply (IH (pre ++ [a]) a0); [by rewrite <- app_assoc| |done].
      apply (Hstep pre a s a0); [|done|done].
      rewrite El, take_app_ge by lia.
      replace (S (length pre) - length pre)%nat with 1%nat by lia. done. }
  intros Hr. by apply (G l [] st).
Qed.

(** Progress rule: a body that returns under the invariant makes the loop
    return. *)
Lemma for_each_returns {A St} (P : list A -> St -> Prop) (body : St -> A -> outcome St)
    (l : list A) (st : St) :
  P [] st ->
  (forall pre a s, take (S (length pre)) l = pre ++ [a] -> P pre s ->
     exists s', body s a = Ret s' ∧ P (pre ++ [a]) s') ->
  exists st', for_each body l st = Ret st' ∧ P l st'.
Proof.
  intros H0 Hstep.
  assert (G : forall suf pre s, l = pre ++ suf -> P pre s ->
              exists st', for_each body suf s = Ret st' ∧ P l st').
  { induction suf as [|a suf IH]; intros pre s El Hp; simpl.
    - rewrite app_nil_r in El. subst. eauto.
    - destruct (Hstep pre a s) as (s' & Hb & Hp'); [|done|].
      + rewrite El, take_app_ge by lia.
        replace (S (length pre) - length pre)%nat with 1%nat by lia. done.
      + rewrite Hb; simpl. apply (IH (pre ++ [a])); [by rewrite <- app_assoc|done]. }
  by apply (G l [] st).
Qed.

Lemma for_each_not_Diverge {A St} (body : St -> A -> outcome St) l st :
  (forall s a, body s a ≠ Diverge) -> for_each body l st ≠ Diverge.
Proof.
  intros Hb. revert st; induction l as [|a l IH]; intros st; simpl; [done|].
  apply bind_not_Diverge; auto.
Qed.

Lemma take_S_elem {A} (l pre : list A) (a : A) :
  take (S (length pre)) l = pre ++ [a] -> a ∈ l.
Proof.
  intros E. apply (list_elem_of_lookup_2 _ (length pre)).
  rewrite <- (lookup_take_lt _ (S (length pre))) by lia.
  rewrite E. by apply list_lookup_middle.
Qed.

(** ** Array indexing *)

Lemma norm_index_lt n i k : norm_index n i = Some k -> (k < n)%nat.
Proof.
  unfold norm_index. repeat case_bool_decide; intros; simplify_eq; lia.
Qed.

Lemma norm_index_nonneg n i :
  0 ≤ i -> norm_index n i = if bool_decide (i < Z.of_nat n) then Some (Z.to_nat i) else None.
Proof.
  intros Hi. unfold norm_index. repeat case_bool_decide; try done; lia.
Qed.

Lemma cell_nonneg {A} (a : ndarray A) t s :
  0 ≤ t -> 0 ≤ s -> cell a t s = a !! Z.to_nat t ≫= (.!! Z.to_nat s).
Proof.
  intros Ht Hs. unfold cell. rewrite norm_index_nonneg by done.
  case_bool_decide as Hlt; simpl.
  - destruct (a !! Z.to_nat t) as [row|]; simpl; [|done].
    rewrite norm_index_nonneg by done. case_bool_decide; simpl; [done|].
    symmetry. apply lookup_ge_None. lia.
  - rewrite (proj2 (lookup_ge_None a (Z.to_nat t))) by lia. done.
Qed.

Lemma getitem_Ret {A} (a : ndarray A) t s v :
  getitem a t s = Ret v <-> cell a t s = Some v.
Proof. unfold getitem. destruct (cell a t s); split; intros; simplify_eq; done. Qed.

Lemma getitem_not_Diverge {A} (a : ndarray A) t s : getitem a t s ≠ Diverge.
Proof. unfold getitem. by destruct (cell a t s). Qed.

Lemma setitem_not_Diverge {A} (a : ndarray A) t s v : setitem a t s v ≠ Diverge.
Proof. unfold setitem. repeat case_match; done. Qed.

(** A write returns exactly when the read of the same cell does, and then
    replaces one entry of one row. *)
Lemma setitem_Ret {A} (a a' : ndarray A) t s v :
  setitem a t s v = Ret a' ->
  exists i row j old,
    norm_index (length a) t = Some i ∧ a !! i = Some row ∧
    norm_index (length row) s = Some j ∧ row !! j = Some old ∧
    cell a t s = Some old ∧ a' = <[i := <[j := v]> row]> a.
Proof.
  unfold setitem, cell. intros H.
  destruct (norm_index (length a) t) as [i|] eqn:Ei; [|done].
  destruct (a !! i) as [row|] eqn:Er; [|done].
  destruct (norm_index (length row) s) as [j|] eqn:Ej; [|done].
  simplify_eq. apply norm_index_lt in Ej as Hj.
  destruct (lookup_lt_is_Some_2 row j Hj) as [old Ho].
  exists i, row, j, old. simpl. rewrite Er. simpl. rewrite Ej. simpl. done.
Qed.

Lemma setitem_of_cell {A} (a : ndarray A) t s old v :
  cell a t s = Some old -> exists a', setitem a t s v = Ret a'.
Proof.
  unfold setitem, cell. intros H.
  destruct (norm_index (length a) t) as [i|]; [|done]. simpl in H.
  destruct (a !! i) as [row|]; [|done]. simpl in H.
  destruct (norm_index (length row) s) as [j|]; [|done]. eauto.
Qed.

Lemma cell_insert_same {A} (a : ndarray A) i row j v t s :
  norm_index (length a) t = Some i -> a !! i = Some row ->
  norm_index (length row) s = Some j ->
  cell (<[i := <[j := v]> row]> a) t s = Some v.
Proof.
  intros Ei Er Ej. unfold cell. rewrite length_insert, Ei. simpl.
  rewrite list_lookup_insert_eq by (by eapply norm_index_lt). simpl.
  rewrite length_insert, Ej. simpl.
  apply list_lookup_insert_eq. by eapply norm_index_lt.
Qed.

(** ** Counting the unknown points *)

Lemma where_row_length v t s row : length (where_row v t s row) = count_row v row.
Proof.
  revert s; induction row as [|c row IH]; intros s; simpl; [done|].
  unfold count_row. rewrite length_app, IH, filter_cons.
  case_bool_decide; case_decide; try done.
Qed.

Lemma where_rows_length v t a : length (where_rows v t a) = count_rows v a.
Proof.
  revert t; induction a as [|row a IH]; intros t; simpl; [done|].
  rewrite length_app, where_row_length, IH. done.
Qed.

Lemma unknown_count g : unknown g = count_rows 0 g.
Proof. apply where_rows_length. Qed.

Lemma count_row_insert v row j x old :
  row !! j = Some old ->
  (count_row v (<[j := x]> row) + ind (old = v) = count_row v row + ind (x = v))%nat.
Proof.
  unfold count_row, ind.
  revert j; induction row as [|c row IH]; intros [|j] Hj; simplify_eq/=.
  - rewrite !filter_cons. repeat case_decide; simpl; lia.
  - specialize (IH _ Hj). rewrite !filter_cons.
    repeat case_decide; simpl in *; lia.
Qed.

Lemma count_rows_insert v (a : ndarray Z) i row row' :
  a !! i = Some row ->
  (count_rows v (<[i := row']> a) + count_row v row = count_rows v a + count_row v row')%nat.
Proof.
  unfold count_rows.
  revert i; induction a as [|r a IH]; intros [|i] Hi; simplify_eq/=.
  - lia.
  - specialize (IH _ Hi). lia.
Qed.

Lemma unknown_setitem g t s v g' old :
  cell g t s = Some old -> setitem g t s v = Ret g' ->
  (unknown g' + ind (old = 0%Z) = unknown g + ind (v = 0%Z))%nat.
Proof.
  intros Hc Hs. apply setitem_Ret in Hs as (i & row & j & old' & Ei & Er & Ej & Ho & Hc' & ->).
  simplify_eq. rewrite !unknown_count.
  pose proof (count_rows_insert 0 g i row (<[j := v]> row) Er).
  pose proof (count_row_insert 0 row j v old Ho). lia.
Qed.

(** ** [np.where] *)

Lemma where_row_elem v t s row p :
  p ∈ where_row v t s row <->
  p.1 = t ∧ exists j : nat, p.2 = s + Z.of_nat j ∧ row !! j = Some v.
Proof.
  revert s; induction row as [|c row IH]; intros s; simpl.
  - split; [by intros ?%elem_of_nil|]. by intros (_ & j & _ & ?).
  - rewrite elem_of_app, IH. split.
    + intros [H|(E & j & Ej & Hj)].
      * case_bool_decide; [|by apply elem_of_nil in H].
        apply list_elem_of_singleton in H. subst. split; [done|].
        exists 0%nat. split; [simpl; lia|done].
      * split; [done|]. exists (S j). split; [lia|done].
    + intros (E & [|j] & Ej & Hj); simplify_eq/=.
      * left. rewrite bool_decide_true by done. apply list_elem_of_singleton.
        destruct p; simpl in *; f_equal; lia.
      * right. split; [done|]. exists j. split; [lia|done].
Qed.

Lemma where_rows_elem v t a p :
  p ∈ where_rows v t a <->
  exists (i j : nat) row, p = (t + Z.of_nat i, Z.of_nat j) ∧ a !! i = Some row ∧ row !! j = Some v.
Proof.
  revert t; induction a as [|r a IH]; intros t; simpl.
  - split; [by intros ?%elem_of_nil|]. by intros (i & j & row & _ & ? & _).
  - rewrite elem_of_app, where_row_elem, IH. split.
    + intros [(E & j & Ej & Hj)|(i & j & row & E & Hi & Hj)].
      * exists 0%nat, j, r. split; [|done]. destruct p; simpl in *; f_equal; lia.
      * exists (S i), j, row. split; [|done]. subst. f_equal; lia.
    + intros ([|i] & j & row & E & Hi & Hj); simplify_eq/=.
      * left. split; [lia|]. exists j. split; [lia|done].
      * right. exists i, j, row. split; [f_equal; lia|done].
Qed.

Lemma np_where_elem a v t s :
  (t, s) ∈ np_where_eq a v <-> 0 ≤ t ∧ 0 ≤ s ∧ cell a t s = Some v.
Proof.
  unfold np_where_eq. rewrite where_rows_elem. split.
  - intros (i & j & row & E & Hi & Hj). simplify_eq.
    split; [lia|]. split; [lia|]. rewrite cell_nonneg by lia.
    rewrite Z.add_0_l, !Nat2Z.id, Hi. done.
  - intros (Ht & Hs & Hc). rewrite cell_nonneg in Hc by done.
    destruct (a !! Z.to_nat t) as [row|] eqn:Er; [|done]. simpl in Hc.
    exists (Z.to_nat t), (Z.to_nat s), row. split; [f_equal; lia|done].
Qed.

Lemma where_rows_nil v t a :
  where_rows v t a = [] -> Forall (Forall (fun c => c ≠ v)) a.
Proof.
  intros E. apply Forall_forall. intros row Hrow. apply Forall_forall. intros c Hc ->.
  apply list_elem_of_lookup in Hrow as [i Hi]. apply list_elem_of_lookup in Hc as [j Hj].
  assert ((t + Z.of_nat i, Z.of_nat j) ∈ where_rows v t a) as Hin.
  { apply where_rows_elem. eauto 6. }
  rewrite E in Hin. by apply elem_of_nil in Hin.
Qed.

(** ** Labels of pixels *)

Lemma label_nonneg_lookup g (p : Z * Z) v :
  0 ≤ p.1 -> 0 ≤ p.2 ->
  (label g p = Some v <->
   exists row, g !! Z.to_nat p.2 = Some row ∧ row !! Z.to_nat p.1 = Some v).
Proof.
  intros H1 H2. unfold label. rewrite cell_nonneg by done.
  destruct (g !! Z.to_nat p.2) as [row|]; simpl.
  - split; [eauto|]. by intros (? & [= <-] & ?).
  - split; [done|]. by intros (? & ? & _).
Qed.

Lemma shape_ok_row self g i row :
  shape_ok self g -> g !! i = Some row -> Z.of_nat (length row) = xDim self.
Proof. intros [_ HF] Hi. by eapply (Forall_lookup_1 _ _ _ _ HF). Qed.

Lemma label_inb self g p : shape_ok self g -> inb self p -> is_Some (label g p).
Proof.
  intros Hs [Hx Hy].
  destruct (lookup_lt_is_Some_2 g (Z.to_nat p.2)) as [row Hr]; [destruct Hs; lia|].
  pose proof (shape_ok_row _ _ _ _ Hs Hr).
  destruct (lookup_lt_is_Some_2 row (Z.to_nat p.1)) as [v Hv]; [lia|].
  exists v. apply label_nonneg_lookup; [lia|lia|eauto].
Qed.

Lemma label_Some_inb self g p v :
  shape_ok self g -> 0 ≤ p.1 -> 0 ≤ p.2 -> label g p = Some v -> inb self p.
Proof.
  intros Hs H1 H2 (row & Hr & Hv)%label_nonneg_lookup; [|done..].
  pose proof (shape_ok_row _ _ _ _ Hs Hr).
  apply lookup_lt_Some in Hr, Hv. destruct Hs. unfold inb. lia.
Qed.

(** A write at a pixel changes that pixel only, and keeps the shape. *)
Lemma setitem_label g (p : Z * Z) v g' :
  0 ≤ p.1 -> 0 ≤ p.2 -> setitem g p.2 p.1 v = Ret g' ->
  label g' p = Some v ∧
  (forall q, 0 ≤ q.1 -> 0 ≤ q.2 -> q ≠ p -> label g' q = label g q) ∧
  (forall self, shape_ok self g -> shape_ok self g').
Proof.
  intros H1 H2 Hs.
  apply setitem_Ret in Hs as (i & row & j & old & Ei & Er & Ej & Ho & Hc & ->).
  rewrite norm_index_nonneg in Ei, Ej by done.
  case_bool_decide; simplify_eq. case_bool_decide; simplify_eq.
  apply lookup_lt_Some in Er as Hi. apply lookup_lt_Some in Ho as Hj.
  split; [|split].
  - apply label_nonneg_lookup; [done..|]. exists (<[Z.to_nat p.1 := v]> row).
    by rewrite !list_lookup_insert_eq.
  - intros q Hq1 Hq2 Hne. unfold label. rewrite !cell_nonneg by done.
    destruct (decide (Z.to_nat q.2 = Z.to_nat p.2)) as [E|E].
    + rewrite E, list_lookup_insert_eq, Er by done. simpl.
      apply list_lookup_insert_ne. intros E'. apply Hne.
      destruct p, q; simpl in *; f_equal; lia.
    + by rewrite list_lookup_insert_ne.
  - intros self [Hl HF]. split; [by rewrite length_insert|].
    apply Forall_insert; [done|]. rewrite length_insert.
    by eapply (Forall_lookup_1 _ _ _ _ HF).
Qed.

Lemma setitem_inb self g p v :
  shape_ok self g -> inb self p -> exists g', setitem g p.2 p.1 v = Ret g'.
Proof.
  intros Hs Hp. destruct (label_inb _ _ _ Hs Hp) as [old Ho].
  by eapply setitem_of_cell.
Qed.

(** Pointwise and entrywise statements about a grid agree. *)
Lemma Forall_labels (P : Z -> Prop) g :
  Forall (Forall P) g <->
  (forall p v, 0 ≤ p.1 -> 0 ≤ p.2 -> label g p = Some v -> P v).
Proof.
  split.
  - intros HF p v H1 H2 (row & Hr & Hv)%label_nonneg_lookup; [|done..].
    eapply Forall_lookup_1; [|exact Hv]. by eapply (Forall_lookup_1 _ _ _ _ HF).
  - intros HP. apply Forall_forall. intros row Hrow. apply Forall_forall. intros v Hv.
    apply list_elem_of_lookup in Hrow as [i Hi]. apply list_elem_of_lookup in Hv as [j Hj].
    apply (HP (Z.of_nat j, Z.of_nat i)); simpl; [lia..|].
    apply label_nonneg_lookup; simpl; [lia..|]. rewrite !Nat2Z.id. eauto.
Qed.

Lemma setitem_Forall (P : Z -> Prop) g t s v g' :
  Forall (Forall P) g -> P v -> setitem g t s v = Ret g' -> Forall (Forall P) g'.
Proof.
  intros HF Hv Hs.
  apply setitem_Ret in Hs as (i & row & j & old & Ei & Er & Ej & Ho & Hc & ->).
  apply Forall_insert; [done|]. apply Forall_insert; [|done].
  by eapply (Forall_lookup_1 _ _ _ _ HF).
Qed.

(** ** The candidate moves *)

Lemma moves_from_adj self x y q :
  q ∈ moves_from self x y ->
  adj4 (x, y) q ∧ (0 ≤ x -> 0 ≤ q.1) ∧ (0 ≤ y -> 0 ≤ q.2).
Proof.
  unfold moves_from, adj4.
  repeat case_bool_decide; simpl; rewrite ?elem_of_cons, ?elem_of_nil;
    intros Hq; destruct_or!; simplify_eq/=; (split; [|split]); lia.
Qed.

(** Away from a grid of width or height 1, the moves are the neighbours
    that lie inside the grid. *)
Lemma moves_from_inb self x y q :
  2 ≤ xDim self -> 2 ≤ yDim self -> inb self (x, y) ->
  (q ∈ moves_from self x y <-> adj4 (x, y) q ∧ inb self q).
Proof.
  unfold moves_from, adj4, inb. destruct q as [s t]. simpl. intros Hx Hy Hin.
  repeat case_bool_decide; simpl; rewrite ?elem_of_cons, ?elem_of_nil;
    (split; [intros Hq; destruct_or!; simplify_eq/=; lia|]);
    intros [Hadj Hq];
    repeat (first [progress destruct_or! | progress destruct_and!]);
    simplify_eq/=; first [lia | by eauto 6].
Qed.

(** ** One visited move *)

(** What [visit] does when it returns: the neighbour is claimed (label 0, or
    label -1 reached in a forward direction) or is left alone. *)
Lemma visit_Ret self k x y g cg ne s t g' cg' ne' :
  visit self k x y (g, cg, ne) (s, t) = Ret (g', cg', ne') ->
  exists lab, label g (s, t) = Some lab ∧
    ((lab = 0 ∧ setitem g t s k = Ret g' ∧ ne' = ne ++ [(s, t)] ∧
        exists ms, field_sample self (x, y) = Ret ms ∧ cg' = addPoint cg (s, t) ms)
     ∨ (lab = -1 ∧ (s > x ∨ t > y) ∧ setitem g t s k = Ret g' ∧ ne' = ne ∧
        exists ms, field_sample self (x, y) = Ret ms ∧ cg' = addPoint cg (s, t) ms)
     ∨ (lab ≠ 0 ∧ ¬ (lab = -1 ∧ (s > x ∨ t > y)) ∧ g' = g ∧ cg' = cg ∧ ne' = ne)).
Proof.
  unfold visit. intros H. inv_bind H. apply getitem_Ret in Ha.
  exists a. split; [done|].
  case_bool_decide as E0.
  - left. inv_bind H. inv_bind H. simpl in H. injection H as <- <- <-. eauto 10.
  - destruct (bool_decide (a = -1) && (bool_decide (s > x) || bool_decide (t > y)))
      eqn:Eb.
    + right; left. apply andb_prop in Eb as [E1 E2].
      apply bool_decide_eq_true in E1. apply orb_prop in E2.
      rewrite !bool_decide_eq_true in E2.
      inv_bind H. inv_bind H. simpl in H. injection H as <- <- <-. eauto 10.
    + right; right. simpl in H. injection H as <- <- <-.
      repeat split; [done|]. intros [E1 E2].
      rewrite (bool_decide_true _ E1) in Eb. simpl in Eb.
      apply orb_false_elim in Eb as [Ex Ey].
      apply bool_decide_eq_false in Ex, Ey. tauto.
Qed.

Lemma visit_not_Diverge self k x y st mv : visit self k x y st mv ≠ Diverge.
Proof.
  destruct st as [[g cg] ne], mv as [s t]. unfold visit.
  apply bind_not_Diverge; [apply getitem_not_Diverge|]. intros lab _.
  repeat case_match; try done;
    (apply bind_not_Diverge; [apply getitem_not_Diverge|]; intros ? _;
     apply bind_not_Diverge; [apply setitem_not_Diverge|]; done).
Qed.

Lemma expand_not_Diverge self k st p : expand self k st p ≠ Diverge.
Proof. apply for_each_not_Diverge. intros. apply visit_not_Diverge. Qed.

(** ** The unknown points only decrease *)

Lemma visit_pending self k x y st mv st' :
  k ≠ 0 -> visit self k x y st mv = Ret st' -> pending st' = pending st.
Proof.
  destruct st as [[g cg] ne], st' as [[g' cg'] ne'], mv as [s t].
  intros Hk (lab & Hl & [H|[H|H]])%visit_Ret; unfold pending; simpl.
  - destruct H as (-> & Hs & -> & _).
    pose proof (unknown_setitem _ _ _ _ _ _ Hl Hs) as Hu. unfold ind in Hu.
    rewrite length_app. simpl. repeat case_decide; try done; lia.
  - destruct H as (-> & _ & Hs & -> & _).
    pose proof (unknown_setitem _ _ _ _ _ _ Hl Hs) as Hu. unfold ind in Hu.
    repeat case_decide; try done; lia.
  - by destruct H as (_ & _ & -> & _ & ->).
Qed.

Lemma expand_pending self k st p st' :
  k ≠ 0 -> expand self k st p = Ret st' -> pending st' = pending st.
Proof.
  intros Hk. unfold expand.
  apply (for_each_inv (fun _ s => pending s = pending st)); [done|].
  intros pre a s s' _ <- Hv. by eapply visit_pending.
Qed.

Lemma sweep_pending self k edge st st' :
  k ≠ 0 -> for_each (expand self k) edge st = Ret st' -> pending st' = pending st.
Proof.
  intros Hk.
  apply (for_each_inv (fun _ s => pending s = pending st)); [done|].
  intros pre a s s' _ <- Hv. by eapply expand_pending.
Qed.

(** The [while edge] loop returns or raises within [unknown g + 1] sweeps. *)
Lemma floodFill_while_not_Diverge self k fuel edge g cg :
  k ≠ 0 -> (unknown g < fuel)%nat ->
  floodFill_while self k fuel edge g cg ≠ Diverge.
Proof.
  intros Hk. revert edge g cg.
  induction fuel as [|fuel IH]; intros edge g cg Hf; [lia|].
  destruct edge as [|p edge]; [done|]. cbn [floodFill_while].
  destruct (for_each (expand self k) (p :: edge) (g, cg, [])) as [[[g' cg'] ne]| |] eqn:E;
    [|done|].
  - simpl. destruct ne as [|q ne]; [done|].
    apply IH. apply sweep_pending in E; [|done]. unfold pending in E. simpl in E. lia.
  - exfalso. revert E. apply for_each_not_Diverge. intros. apply expand_not_Diverge.
Qed.

Lemma floodFill_while_unknown self k fuel edge g cg g' r :
  k ≠ 0 -> floodFill_while self k fuel edge g cg = Ret (g', r) ->
  (unknown g' ≤ unknown g)%nat.
Proof.
  intros Hk. revert edge g cg.
  induction fuel as [|fuel IH]; intros [|p edge] g cg H;
    cbn [floodFill_while] in H; simplify_eq; [done..|].
  inv_bind H. destruct a as [[g1 cg1] ne].
  apply sweep_pending in Ha; [|done]. unfold pending in Ha. simpl in Ha.
  destruct ne as [|q ne]; simplify_eq; [lia|].
  apply IH in H. lia.
Qed.

Lemma floodFill_not_Diverge self g x y k fuel :
  k ≠ 0 -> label g (x, y) = Some 0 -> (unknown g ≤ fuel)%nat ->
  floodFill self g x y k fuel ≠ Diverge.
Proof.
  intros Hk Hl Hf. unfold floodFill.
  apply bind_not_Diverge; [apply getitem_not_Diverge|]. intros ms _.
  apply bind_not_Diverge; [apply setitem_not_Diverge|]. intros g' Hs.
  apply floodFill_while_not_Diverge; [done|].
  pose proof (unknown_setitem _ _ _ _ _ _ Hl Hs) as Hu. unfold ind in Hu.
  repeat case_decide; try done; lia.
Qed.

(** A flood fill that returns has claimed its seed: fewer unknown points. *)
Lemma floodFill_unknown self g x y k fuel g' r :
  k ≠ 0 -> label g (x, y) = Some 0 ->
  floodFill self g x y k fuel = Ret (g', r) -> (unknown g' < unknown g)%nat.
Proof.
  intros Hk Hl H. unfold floodFill in H. inv_bind H. inv_bind H.
  apply floodFill_while_unknown in H; [|done].
  pose proof (unknown_setitem _ _ _ _ _ _ Hl Ha0) as Hu. unfold ind in Hu.
  repeat case_decide; try done; lia.
Qed.

Lemma purge_not_Diverge g coords : purge g coords ≠ Diverge.
Proof. apply for_each_not_Diverge. intros. apply setitem_not_Diverge. Qed.

Lemma purge_unknown g coords g' :
  purge g coords = Ret g' -> (unknown g' ≤ unknown g)%nat.
Proof.
  apply (for_each_inv (fun _ s => (unknown s ≤ unknown g)%nat)); [done|].
  intros pre a s s' _ Hle Hs.
  apply setitem_Ret in Hs as Hs'. destruct Hs' as (_ & _ & _ & old & _ & _ & _ & _ & Hc & _).
  pose proof (unknown_setitem _ _ _ _ _ _ Hc Hs) as Hu. unfold ind in Hu.
  repeat case_decide; try done; lia.
Qed.

(** The first unknown point is an unknown point. *)
Lemma np_where_head g row col rest :
  np_where_eq g 0 = (row, col) :: rest ->
  0 ≤ row ∧ 0 ≤ col ∧ label g (col, row) = Some 0.
Proof.
  intros E. apply np_where_elem. rewrite E. apply elem_of_cons. by left.
Qed.

Lemma findGrains_pass_not_Diverge self m fuel row col g gl k rest :
  k ≠ 0 -> np_where_eq g 0 = (row, col) :: rest -> (unknown g ≤ fuel)%nat ->
  findGrains_pass self m fuel row col (g, gl, k) ≠ Diverge.
Proof.
  intros Hk E Hf. apply np_where_head in E as (_ & _ & Hl).
  unfold findGrains_pass.
  apply bind_not_Diverge; [by apply floodFill_not_Diverge|].
  intros [g' [cg|]] _; [|done]. case_bool_decide; [|done].
  apply bind_not_Diverge; [apply purge_not_Diverge|done].
Qed.

(** Each pass of the outer loop strictly reduces the unknown points, keeps
    the label counter positive. *)
Lemma findGrains_pass_unknown self m fuel row col g gl k rest g' gl' k' :
  1 ≤ k -> np_where_eq g 0 = (row, col) :: rest ->
  findGrains_pass self m fuel row col (g, gl, k) = Ret (g', gl', k') ->
  (unknown g' < unknown g)%nat ∧ 1 ≤ k'.
Proof.
  intros Hk E H. apply np_where_head in E as (_ & _ & Hl).
  unfold findGrains_pass in H. inv_bind H. destruct a as [g1 [cg|]]; [|done].
  apply floodFill_unknown in Ha; [|lia|done].
  case_bool_decide.
  - inv_bind H. inv_ret. apply purge_unknown in Ha0. lia.
  - inv_ret. lia.
Qed.

Lemma findGrains_while_not_Diverge self m fuel g gl k :
  1 ≤ k -> (unknown g < fuel)%nat ->
  findGrains_while self m fuel (g, gl, k) ≠ Diverge.
Proof.
  revert g gl k. induction fuel as [|fuel IH]; intros g gl k Hk Hf; [lia|].
  cbn [findGrains_while]. simpl.
  destruct (np_where_eq g 0) as [|[row col] rest] eqn:E; [done|].
  apply bind_not_Diverge.
  - eapply findGrains_pass_not_Diverge; [lia|done|lia].
  - intros [[g' gl'] k'] Hp.
    eapply findGrains_pass_unknown in Hp as [Hu Hk']; [|done..].
    apply IH; [done|lia].
Qed.

Lemma linked_mono (P Q : Z * Z -> Prop) seed p :
  (forall q, P q -> Q q) -> linked P seed p -> linked Q seed p.
Proof.
  intros HPQ. induction 1 as [|p q _ IH Hadj Hq].
  - apply linked_seed. auto.
  - eapply linked_step; eauto.
Qed.

Lemma field_sample_inb self p :
  field_ok self -> inb self p -> exists ms, field_sample self p = Ret ms.
Proof.
  intros (Hx & Hy & Hrows & Hcols) [Hp1 Hp2]. unfold field_sample, getitem.
  rewrite cell_nonneg by lia.
  destruct (lookup_lt_is_Some_2 (max_shear self) (Z.to_nat (p.2 + cropDists_1_0 self)))
    as [row Hr]; [lia|].
  rewrite Hr. simpl.
  pose proof (Forall_lookup_1 _ _ _ _ Hcols Hr) as Hlen. simpl in Hlen.
  destruct (lookup_lt_is_Some_2 row (Z.to_nat (p.1 + cropDists_0_0 self)))
    as [ms Hms]; [lia|].
  rewrite Hms. eauto.
Qed.

(** ** The flood-fill invariant

    [g0] is the label grid when [floodFill] is called with the label [k]
    and [seed] is its start pixel. *)

Section FillInvariant.
Variables (self : Map) (g0 : ndarray Z) (k : Z) (seed : Z * Z).
Hypothesis Hk0 : k ≠ 0.
Hypothesis Hk1 : k ≠ -1.

Local Abbreviation interior := (interior g0).
Local Abbreviation fill_inv := (fill_inv self g0 k seed).

Lemma interior_snoc coords q p : interior coords p -> interior (coords ++ [q]) p.
Proof. intros [Hin H0]. split; [|done]. apply elem_of_app. by left. Qed.

(** Claiming the neighbour [q] of the interior pixel [xy]. *)
Lemma claim_inv edge g cg ne xy q lab g' ms ne' :
  fill_inv edge (g, cg, ne) ->
  interior (coordList cg) xy -> adj4 xy q -> 0 ≤ q.1 -> 0 ≤ q.2 ->
  label g q = Some lab -> lab = 0 ∨ lab = -1 ->
  setitem g q.2 q.1 k = Ret g' ->
  (lab = 0 ∧ ne' = ne ++ [q]) ∨ (lab = -1 ∧ ne' = ne) ->
  fill_inv edge (g', addPoint cg q ms, ne').
Proof.
  intros [Hshape Hin Hout Hnd Hsm Hhd Hint Habs Hedge] Hxy Hadj Hq1 Hq2 Hl Hlab Hs Hne.
  simpl in *.
  assert (Hnotin : q ∉ coordList cg).
  { intros Hq. destruct (Hin q Hq) as (_ & _ & Hk & _). destruct Hlab; congruence. }
  assert (Hg0 : label g0 q = Some lab) by (rewrite <- Hout; done).
  destruct (setitem_label _ _ _ _ Hq1 Hq2 Hs) as (Hq' & Hother & Hsh).
  split; simpl.
  - by apply Hsh.
  - intros p [Hp| ->%list_elem_of_singleton]%elem_of_app.
    + destruct (Hin p Hp) as (H1 & H2 & H3 & H4). repeat split; [done..| |done].
      rewrite Hother; [done..|]. by intros ->.
    + repeat split; [done..|]. rewrite Hg0. destruct Hlab; subst; auto.
  - intros p H1 H2 Hp. apply not_elem_of_app in Hp as [Hp Hpq].
    rewrite Hother; [auto|done..|]. intros ->. apply Hpq. by apply list_elem_of_singleton.
  - apply NoDup_app. split; [done|]. split; [|apply NoDup_singleton].
    by intros p Hp ->%list_elem_of_singleton.
  - rewrite !length_app. simpl. lia.
  - destruct (coordList cg); [done|done].
  - intros p [[Hp| ->%list_elem_of_singleton]%elem_of_app Hp0].
    + eapply linked_mono; [apply interior_snoc|]. by apply Hint.
    + eapply linked_step; [|exact Hadj|].
      * eapply linked_mono; [apply interior_snoc|]. by apply Hint.
      * split; [|done]. apply elem_of_app. right. by apply list_elem_of_singleton.
  - intros p [Hp| ->%list_elem_of_singleton]%elem_of_app Hp1.
    + destruct (Habs p Hp Hp1) as (q' & Hq'' & Hadj'). exists q'.
      split; [by apply interior_snoc|done].
    + exists xy. split; [by apply interior_snoc|done].
  - intros p Hp. destruct Hne as [[-> ->]|[-> ->]].
    + rewrite app_assoc in Hp. apply elem_of_app in Hp as [Hp| ->%list_elem_of_singleton].
      * by apply interior_snoc, Hedge.
      * split; [|done]. apply elem_of_app. right. by apply list_elem_of_singleton.
    + by apply interior_snoc, Hedge.
Qed.

Lemma visit_inv edge x y st mv st' :
  fill_inv edge st -> interior (coordList st.1.2) (x, y) ->
  mv ∈ moves_from self x y ->
  visit self k x y st mv = Ret st' ->
  fill_inv edge st' ∧ coordList st.1.2 ⊆ coordList st'.1.2.
Proof.
  destruct st as [[g cg] ne], st' as [[g' cg'] ne'], mv as [s t].
  intros Hinv Hxy Hmv (lab & Hl & Hcase)%visit_Ret. simpl in *.
  destruct (fi_in Hinv (x, y) (proj1 Hxy)) as (Hx & Hy & _).
  destruct (moves_from_adj _ _ _ _ Hmv) as (Hadj & Hs & Ht). simpl in *.
  destruct Hcase as [H|[H|H]].
  - destruct H as (-> & Hset & -> & ms & _ & ->). split.
    + eapply (claim_inv edge g cg ne (x, y) (s, t)); eauto.
    + simpl. intros p Hp. apply elem_of_app. by left.
  - destruct H as (-> & _ & Hset & -> & ms & _ & ->). split.
    + eapply (claim_inv edge g cg ne (x, y) (s, t)); eauto.
    + simpl. intros p Hp. apply elem_of_app. by left.
  - destruct H as (_ & _ & -> & -> & ->). done.
Qed.

Lemma expand_inv edge st p st' :
  fill_inv edge st -> interior (coordList st.1.2) p ->
  expand self k st p = Ret st' ->
  fill_inv edge st' ∧ coordList st.1.2 ⊆ coordList st'.1.2.
Proof.
  destruct p as [x y]. intros Hinv Hp. unfold expand. simpl.
  apply (for_each_inv (fun _ s => fill_inv edge s ∧ coordList st.1.2 ⊆ coordList s.1.2));
    [done|].
  intros pre a s s' Hpre [Hi Hsub] Hv.
  assert (Hp' : interior (coordList s.1.2) (x, y)).
  { destruct Hp. split; [|done]. by apply Hsub. }
  destruct (visit_inv edge x y s a s' Hi Hp' (take_S_elem _ _ _ Hpre) Hv) as [Hi' Hsub'].
  split; [done|]. by etrans.
Qed.

Lemma sweep_inv edge st st' :
  fill_inv edge st ->
  for_each (expand self k) edge st = Ret st' ->
  fill_inv edge st'.
Proof.
  intros Hinv.
  apply (for_each_inv (fun _ s => fill_inv edge s)); [done|].
  intros pre a s s' Hpre Hi Hv.
  eapply (expand_inv edge s a s' Hi); [|done].
  apply (fi_edge Hi). apply elem_of_app. left. by eapply take_S_elem.
Qed.

Lemma fill_inv_next edge g cg ne : fill_inv edge (g, cg, ne) -> fill_inv ne (g, cg, []).
Proof.
  intros [? ? ? ? ? ? ? ? Hedge]. split; try done. simpl in *.
  intros p Hp. apply Hedge. rewrite app_nil_r in Hp. apply elem_of_app. by right.
Qed.

(** The loop ends with a grain, and the invariant holds of it. *)
Lemma floodFill_while_inv fuel edge g cg g' r :
  fill_inv edge (g, cg, []) -> edge ≠ [] ->
  floodFill_while self k fuel edge g cg = Ret (g', r) ->
  exists cg', r = Some cg' ∧ fill_inv [] (g', cg', []).
Proof.
  revert edge g cg. induction fuel as [|fuel IH]; intros [|p edge] g cg Hinv Hne H;
    cbn [floodFill_while] in H; simplify_eq.
  inv_bind H. destruct a as [[g1 cg1] ne].
  apply sweep_inv in Ha; [|done].
  destruct ne as [|q ne]; simplify_eq.
  - exists cg1. split; [done|]. by apply (fill_inv_next (p :: edge)).
  - apply (IH (q :: ne) g1 cg1); [|done|exact H]. by apply (fill_inv_next (p :: edge)).
Qed.

Hypothesis Hshape : shape_ok self g0.
Hypothesis Hseed1 : 0 ≤ seed.1.
Hypothesis Hseed2 : 0 ≤ seed.2.
Hypothesis Hseed0 : label g0 seed = Some 0.

Lemma fill_inv_init g1 ms :
  setitem g0 seed.2 seed.1 k = Ret g1 ->
  fill_inv [seed] (g1, addPoint Grain_init seed ms, []).
Proof.
  intros Hs. destruct (setitem_label _ _ _ _ Hseed1 Hseed2 Hs) as (Hq' & Hother & Hsh).
  assert (Hi : interior [seed] seed) by (split; [by apply list_elem_of_singleton|done]).
  split; simpl.
  - by apply Hsh.
  - intros p ->%list_elem_of_singleton. auto.
  - intros p H1 H2 Hp. apply Hother; [done..|].
    intros ->. apply Hp. by apply list_elem_of_singleton.
  - apply NoDup_singleton.
  - done.
  - done.
  - intros p [->%list_elem_of_singleton _]. by apply linked_seed.
  - intros p ->%list_elem_of_singleton. congruence.
  - intros p ->%list_elem_of_singleton. done.
Qed.

Lemma floodFill_inv fuel g' r :
  floodFill self g0 seed.1 seed.2 k fuel = Ret (g', r) ->
  exists cg, r = Some cg ∧ fill_inv [] (g', cg, []).
Proof.
  unfold floodFill. intros H. inv_bind H. inv_bind H.
  rewrite <- surjective_pairing in H.
  refine (floodFill_while_inv fuel [seed] _ _ _ _ _ _ H); [|done].
  by apply fill_inv_init.
Qed.

(** *** Progress: on a grid at least 2 wide and 2 high no access is out of
    range *)

Hypothesis Hfield : field_ok self.
Hypothesis HxDim : 2 ≤ xDim self.
Hypothesis HyDim : 2 ≤ yDim self.

Lemma interior_inb edge st p :
  fill_inv edge st -> interior (coordList st.1.2) p -> inb self p.
Proof.
  intros Hinv [Hp _]. destruct (fi_in Hinv p Hp) as (H1 & H2 & Hl & _).
  eapply label_Some_inb; [apply (fi_shape Hinv)|done..].
Qed.

Lemma visit_returns edge x y st mv :
  fill_inv edge st -> interior (coordList st.1.2) (x, y) ->
  mv ∈ moves_from self x y ->
  exists st', visit self k x y st mv = Ret st'.
Proof.
  destruct st as [[g cg] ne], mv as [s t]. intros Hinv Hxy Hmv.
  pose proof (interior_inb _ _ _ Hinv Hxy) as Hin.
  apply moves_from_inb in Hmv as [_ Hmv]; [|done..].
  destruct (label_inb _ _ _ (fi_shape Hinv) Hmv) as [lab Hl].
  destruct (field_sample_inb _ _ Hfield Hin) as [ms Hms].
  destruct (setitem_inb _ _ _ k (fi_shape Hinv) Hmv) as [g' Hs].
  unfold field_sample in Hms. unfold label in Hl. simpl in *.
  unfold visit. apply getitem_Ret in Hl. rewrite Hl. simpl.
  repeat case_match; rewrite ?Hms; simpl; rewrite ?Hs; simpl; eauto.
Qed.

Lemma expand_returns edge st p :
  fill_inv edge st -> interior (coordList st.1.2) p ->
  exists st', expand self k st p = Ret st'.
Proof.
  destruct p as [x y]. intros Hinv Hp. unfold expand. simpl.
  destruct (for_each_returns
    (fun _ s => fill_inv edge s ∧ coordList st.1.2 ⊆ coordList s.1.2)
    (visit self k x y) (moves_from self x y) st) as (st' & Hr & _); [done| |eauto].
  intros pre a s Hpre [Hi Hsub].
  assert (Hp' : interior (coordList s.1.2) (x, y)).
  { destruct Hp. split; [|done]. by apply Hsub. }
  destruct (visit_returns edge x y s a Hi Hp' (take_S_elem _ _ _ Hpre)) as [s' Hv].
  exists s'. split; [done|].
  destruct (visit_inv edge x y s a s' Hi Hp' (take_S_elem _ _ _ Hpre) Hv) as [Hi' Hsub'].
  split; [done|]. by etrans.
Qed.

Lemma sweep_returns edge st :
  fill_inv edge st -> exists st', for_each (expand self k) edge st = Ret st'.
Proof.
  intros Hinv.
  destruct (for_each_returns (fun _ s => fill_inv edge s)
    (expand self k) edge st) as (st' & Hr & _); [done| |eauto].
  intros pre a s Hpre Hi.
  assert (Ha : interior (coordList s.1.2) a).
  { apply (fi_edge Hi). apply elem_of_app. left. by eapply take_S_elem. }
  destruct (expand_returns edge s a Hi Ha) as [s' Hv].
  exists s'. split; [done|]. by apply (expand_inv edge s a s' Hi Ha).
Qed.

Lemma floodFill_while_returns fuel edge g cg :
  fill_inv edge (g, cg, []) -> (unknown g < fuel)%nat ->
  exists g' r, floodFill_while self k fuel edge g cg = Ret (g', r).
Proof.
  revert edge g cg. induction fuel as [|fuel IH]; intros edge g cg Hinv Hf; [lia|].
  destruct edge as [|p edge]; [simpl; eauto|]. cbn [floodFill_while].
  destruct (sweep_returns _ _ Hinv) as ([[g1 cg1] ne] & Hsw). rewrite Hsw. simpl.
  destruct ne as [|q ne]; [eauto|].
  apply IH.
  - apply (fill_inv_next (p :: edge)). by eapply sweep_inv.
  - apply sweep_pending in Hsw; [|done]. unfold pending in Hsw. simpl in Hsw. lia.
Qed.

Lemma floodFill_returns fuel :
  (unknown g0 ≤ fuel)%nat ->
  exists g' cg, floodFill self g0 seed.1 seed.2 k fuel = Ret (g', Some cg).
Proof.
  intros Hf.
  assert (Hin : inb self seed) by (by eapply label_Some_inb).
  destruct (field_sample_inb _ _ Hfield Hin) as [ms Hms].
  destruct (setitem_inb _ _ _ k Hshape Hin) as [g1 Hs].
  pose proof (fill_inv_init g1 ms Hs) as Hinv.
  destruct (floodFill_while_returns fuel [seed] g1 _ Hinv) as (g' & r & Hr).
  { pose proof (unknown_setitem _ _ _ _ _ _ Hseed0 Hs) as Hu. unfold ind in Hu.
    repeat case_decide; try done; lia. }
  destruct (floodFill_while_inv fuel [seed] _ _ _ _ Hinv ltac:(done) Hr) as (cg & -> & _).
  exists g', cg. unfold floodFill. unfold field_sample in Hms. rewrite Hms. simpl.
  rewrite Hs. simpl. by rewrite <- surjective_pairing.
Qed.
End FillInvariant.

(** ** Purging a discarded grain *)

Lemma purge_spec g coords g' :
  (forall p, p ∈ coords -> 0 ≤ p.1 ∧ 0 ≤ p.2) ->
  purge g coords = Ret g' ->
  (forall self, shape_ok self g -> shape_ok self g') ∧
  (forall p, 0 ≤ p.1 -> 0 ≤ p.2 ->
     label g' p = if decide (p ∈ coords) then Some (-2) else label g p).
Proof.
  intros Hnn Hr. unfold purge in Hr.
  refine (for_each_inv (fun pre s =>
    (forall self, shape_ok self g -> shape_ok self s) ∧
    (forall p, 0 ≤ p.1 -> 0 ≤ p.2 ->
       label s p = if decide (p ∈ pre) then Some (-2) else label g p))
    _ coords g g' _ _ Hr).
  - split; [done|]. intros p _ _. case_decide as Hp; [by apply elem_of_nil in Hp|done].
  - intros pre a s s' Hpre [Hsh Hlab] Hs.
    destruct (Hnn a (take_S_elem _ _ _ Hpre)) as [Ha1 Ha2].
    destruct (setitem_label _ _ _ _ Ha1 Ha2 Hs) as (Ha & Hother & Hsh').
    split; [auto|]. intros p Hp1 Hp2.
    destruct (decide (p = a)) as [->|Hne].
    + rewrite Ha. rewrite decide_True; [done|]. apply elem_of_app. right.
      by apply list_elem_of_singleton.
    + rewrite Hother, Hlab by done.
      repeat case_decide; try done.
      * exfalso. match goal with H : _ ∉ _ |- _ => apply H end. apply elem_of_app. by left.
      * exfalso.
        match goal with H : _ ∈ _ ++ _ |- _ =>
          apply elem_of_app in H as [?| ->%list_elem_of_singleton] end; done.
Qed.

Lemma purge_returns self g coords :
  shape_ok self g -> (forall p, p ∈ coords -> inb self p) ->
  exists g', purge g coords = Ret g'.
Proof.
  intros Hsh Hin. unfold purge.
  destruct (for_each_returns (fun _ s => shape_ok self s)
    (fun g coord => setitem g coord.2 coord.1 (-2)) coords g) as (g' & Hr & _);
    [done| |eauto].
  intros pre a s Hpre Hs.
  pose proof (Hin a (take_S_elem _ _ _ Hpre)) as Ha.
  destruct (setitem_inb _ _ _ (-2) Hs Ha) as [s' Hs'].
  exists s'. split; [done|].
  destruct Ha as [Ha1 Ha2].
  by apply (setitem_label s a (-2) s' ltac:(lia) ltac:(lia) Hs').
Qed.

(** ** One pass of the segmentation loop *)

Lemma interior_mask_iff (g mask : ndarray Z) coords p :
  (forall q c, 0 ≤ q.1 -> 0 ≤ q.2 -> label g q = Some c -> c = 0 ∨ c = -1 ->
     label mask q = Some c) ->
  (forall q, q ∈ coords ->
     0 ≤ q.1 ∧ 0 ≤ q.2 ∧ (label g q = Some 0 ∨ label g q = Some (-1))) ->
  interior g coords p <-> interior mask coords p.
Proof.
  intros Hmask Hin. unfold interior. split; intros [Hp H0]; (split; [done|]).
  - destruct (Hin p Hp) as (H1 & H2 & _). eapply Hmask; eauto.
  - destruct (Hin p Hp) as (H1 & H2 & [H|H]); [done|].
    apply (Hmask p (-1) H1 H2) in H; [congruence|auto].
Qed.

Lemma grain_ok_of_fill self g mask k seed g1 cg :
  fill_inv self g k seed [] (g1, cg, []) ->
  (forall q c, 0 ≤ q.1 -> 0 ≤ q.2 -> label g q = Some c -> c = 0 ∨ c = -1 ->
     label mask q = Some c) ->
  label g seed = Some 0 ->
  grain_ok mask cg.
Proof.
  intros Hf Hmask Hseed.
  assert (Hin : forall q, q ∈ coordList cg ->
     0 ≤ q.1 ∧ 0 ≤ q.2 ∧ (label g q = Some 0 ∨ label g q = Some (-1))).
  { intros q Hq. destruct (fi_in Hf q Hq) as (? & ? & _ & ?). auto. }
  assert (Hiff := fun p => interior_mask_iff g mask (coordList cg) p Hmask Hin).
  split; [apply (fi_nodup Hf)|]. split; [apply (fi_samples Hf)|]. split.
  - intros p Hp. destruct (Hin p Hp) as (H1 & H2 & H). repeat split; [done..|].
    destruct H as [H|H]; [left|right]; eapply Hmask; eauto.
  - exists seed. split; [apply (fi_head Hf)|].
    assert (Hs : seed ∈ coordList cg).
    { pose proof (fi_head Hf) as Hh. simpl in Hh.
      destruct (coordList cg); simplify_eq/=. apply elem_of_cons. by left. }
    destruct (Hin seed Hs) as (H1 & H2 & _).
    split; [eapply Hmask; eauto|]. split.
    + intros p Hp. eapply linked_mono; [intros q; apply Hiff|].
      apply (fi_interior Hf). by apply Hiff.
    + intros p Hp Hb.
      destruct (Hin p Hp) as (Hp1 & Hp2 & [H|H]).
      { apply (Hmask p 0 Hp1 Hp2) in H; [congruence|auto]. }
      destruct (fi_absorbed Hf p Hp H) as (q & Hq & Hadj).
      exists q. split; [by apply Hiff|done].
Qed.

(** The effect of one pass on the labels: the pixels of the grain it grew
    get one value, the grain's label or -2, and nothing else changes. *)
Lemma pass_effect self m fuel g gl k row col rest st' :
  shape_ok self g -> 1 ≤ k ->
  np_where_eq g 0 = (row, col) :: rest ->
  findGrains_pass self m fuel row col (g, gl, k) = Ret st' ->
  exists cg v g1,
    pass_grain self fuel row col (g, gl, k) = Some cg ∧
    fill_inv self g k (col, row) [] (g1, cg, []) ∧
    label g (col, row) = Some 0 ∧
    shape_ok self st'.1.1 ∧
    (forall p, 0 ≤ p.1 -> 0 ≤ p.2 ->
       label st'.1.1 p = if decide (p ∈ coordList cg) then Some v else label g p) ∧
    ((len cg < m ∧ v = -2 ∧ st'.1.2 = gl ∧ st'.2 = k) ∨
     (m ≤ len cg ∧ v = k ∧ st'.1.2 = gl ++ [cg] ∧ st'.2 = k + 1)).
Proof.
  intros Hsh Hk E H. apply np_where_head in E as (Hrow & Hcol & Hl).
  unfold findGrains_pass in H. inv_bind H. destruct a as [g1 r].
  destruct (floodFill_inv self g k (col, row) ltac:(lia) ltac:(lia) Hsh
              Hcol Hrow Hl fuel g1 r Ha) as (cg & -> & Hf).
  exists cg.
  assert (Hpg : pass_grain self fuel row col (g, gl, k) = Some cg).
  { unfold pass_grain. simpl in *. by rewrite Ha. }
  assert (Hlab1 : forall p, 0 ≤ p.1 -> 0 ≤ p.2 ->
     label g1 p = if decide (p ∈ coordList cg) then Some k else label g p).
  { intros p H1 H2. destruct (decide (p ∈ coordList cg)) as [Hp|Hp].
    - by destruct (fi_in Hf p Hp) as (_ & _ & ? & _).
    - by apply (fi_out Hf). }
  case_bool_decide as Hlen.
  - inv_bind H. inv_ret. exists (-2), g1.
    destruct (purge_spec g1 (coordList cg) a) as [Hsh' Hlab']; [|done|].
    { intros p Hp. destruct (fi_in Hf p Hp) as (? & ? & _). done. }
    split; [done|]. split; [done|]. split; [done|].
    split; [by apply Hsh', (fi_shape Hf)|]. split; [|by left].
    intros p H1 H2. simpl. rewrite Hlab', Hlab1 by done.
    by destruct (decide (p ∈ coordList cg)).
  - inv_ret. exists k, g1.
    split; [done|]. split; [done|]. split; [done|].
    split; [apply (fi_shape Hf)|]. split; [done|].
    right. simpl. repeat split; [lia|done..].
Qed.

(** ** The segmentation invariant *)

Lemma seg_inv_init self mask m :
  shape_ok self mask -> is_mask mask -> seg_inv self mask m (mask, [], 1) [].
Proof.
  intros Hsh Hm. split; simpl.
  - done.
  - done.
  - auto.
  - intros p c H1 H2 Hl.
    assert (c = 0 ∨ c = -1) as [?|?]
      by apply (proj1 (Forall_labels _ mask) Hm p c H1 H2 Hl); auto.
  - intros i gr Hi. by rewrite lookup_nil in Hi.
  - done.
  - intros gr Hgr. by apply elem_of_nil in Hgr.
  - intros p H1 H2. split.
    + intros Hl.
      assert (-2 = 0 ∨ -2 = -1) as [?|?]
        by apply (proj1 (Forall_labels _ mask) Hm p _ H1 H2 Hl); lia.
    + intros (gr & Hgr & _). by apply elem_of_nil in Hgr.
  - intros i j gr gr' Hi. by rewrite lookup_nil in Hi.
Qed.

(** A pixel of a grain grown earlier is neither unknown nor boundary any
    more. *)
Lemma seg_inv_claimed self mask m st passed gr p :
  seg_inv self mask m st passed -> gr ∈ passed -> p ∈ coordList gr ->
  0 ≤ p.1 ∧ 0 ≤ p.2 ∧ exists c, label st.1.1 p = Some c ∧ c ≠ 0 ∧ c ≠ -1.
Proof.
  intros Hinv Hgr Hp.
  destruct (si_grains Hinv gr Hgr) as (_ & _ & Hnn & _).
  destruct (Hnn p Hp) as (H1 & H2 & _). split; [done|]. split; [done|].
  destruct (decide (m ≤ len gr)) as [Hlen|Hlen].
  - assert (gr ∈ st.1.2) as Hin.
    { rewrite (si_kept Hinv). by apply list_elem_of_filter. }
    apply list_elem_of_lookup in Hin as [i Hi].
    exists (Z.of_nat i + 1). split; [|lia]. by apply (si_registry Hinv i gr Hi).
  - exists (-2). split; [|lia]. apply (si_purged Hinv); [done..|].
    exists gr. split; [done|]. split; [lia|done].
Qed.

Lemma seg_inv_pass self mask m fuel g gl k row col rest st' passed :
  seg_inv self mask m (g, gl, k) passed ->
  np_where_eq g 0 = (row, col) :: rest ->
  findGrains_pass self m fuel row col (g, gl, k) = Ret st' ->
  seg_inv self mask m st'
    (passed ++ option_list (pass_grain self fuel row col (g, gl, k))).
Proof.
  intros Hinv E H.
  pose proof (fun gr p => seg_inv_claimed _ _ _ _ _ gr p Hinv) as Hclaimed.
  destruct Hinv as [Hsh Hidx Hmask Hval Hreg Hkept Hgr Hpur Hdis]. simpl in *.
  assert (Hk : 1 ≤ k) by lia.
  destruct (pass_effect self m fuel g gl k row col rest st' Hsh Hk E H)
    as (cg & v & g1 & Hpg & Hf & Hl & Hsh' & Hlab & Hcase).
  rewrite Hpg. simpl.
  assert (Hin : forall q, q ∈ coordList cg ->
     0 ≤ q.1 ∧ 0 ≤ q.2 ∧ (label g q = Some 0 ∨ label g q = Some (-1))).
  { intros q Hq. destruct (fi_in Hf q Hq) as (? & ? & _ & ?). auto. }
  assert (Hok : grain_ok mask cg) by (by eapply grain_ok_of_fill).
  assert (Hnot : forall gr p, gr ∈ passed -> p ∈ coordList cg -> p ∉ coordList gr).
  { intros gr p Hgr' Hp Hp'. destruct (Hin p Hp) as (_ & _ & H0).
    destruct (Hclaimed gr p Hgr' Hp') as (_ & _ & c & Hc & Hc0 & Hc1).
    destruct H0 as [H0|H0]; rewrite H0 in Hc; simplify_eq. }
  assert (Hnotreg : forall (i : nat) gr p, gl !! i = Some gr -> p ∈ coordList cg ->
            p ∉ coordList gr).
  { intros i gr p Hi Hp. apply Hnot; [|done].
    apply list_elem_of_lookup_2 in Hi. rewrite Hkept in Hi.
    by apply list_elem_of_filter in Hi as [_ ?]. }
  assert (Hdis' : forall (i j : nat) gr gr', (passed ++ [cg]) !! i = Some gr ->
     (passed ++ [cg]) !! j = Some gr' -> i ≠ j ->
     forall p, p ∈ coordList gr -> p ∉ coordList gr').
  { intros i j gr gr' Hi Hj Hne p Hp Hp'.
    apply lookup_app_Some in Hi as [Hi|[Hgi Hi]];
      apply lookup_app_Some in Hj as [Hj|[Hgj Hj]].
    - by apply (Hdis i j gr gr' Hi Hj Hne p).
    - apply list_lookup_singleton_Some in Hj as [_ ->].
      apply (Hnot gr p); [by eapply list_elem_of_lookup_2|done..].
    - apply list_lookup_singleton_Some in Hi as [_ ->].
      apply (Hnot gr' p); [by eapply list_elem_of_lookup_2|done..].
    - apply list_lookup_singleton_Some in Hi as [Hi _].
      apply list_lookup_singleton_Some in Hj as [Hj _]. lia. }
  assert (Hgr' : forall gr, gr ∈ passed ++ [cg] -> grain_ok mask gr).
  { intros gr [?| ->%list_elem_of_singleton]%elem_of_app; auto. }
  destruct st' as [[g' gl'] k']. simpl in *.
  destruct Hcase as [(Hlen & -> & -> & ->)|(Hlen & -> & -> & ->)].
  - split; simpl; [done|done| | | | |done| |done].
    + intros p c H1 H2. rewrite Hlab by done.
      destruct (decide (p ∈ coordList cg)); [|by apply Hmask].
      intros [= <-] [?|?]; lia.
    + intros p c H1 H2. rewrite Hlab by done.
      destruct (decide (p ∈ coordList cg)); [|by apply Hval].
      intros [= <-]. auto.
    + intros i gr Hi p H1 H2. rewrite Hlab by done.
      destruct (decide (p ∈ coordList cg)) as [Hp|Hp]; [|by apply Hreg].
      split; [intros [= ?]; lia|]. intros Hp'. by destruct (Hnotreg i gr p Hi Hp).
    + rewrite filter_app, filter_cons_False, filter_nil, app_nil_r by lia. done.
    + intros p H1 H2. rewrite Hlab by done.
      destruct (decide (p ∈ coordList cg)) as [Hp|Hp].
      * split; [|done]. intros _. exists cg. split; [|done].
        apply elem_of_app. right. by apply list_elem_of_singleton.
      * rewrite Hpur by done. split; intros (gr & Hgr1 & Hlt & Hp').
        -- exists gr. split; [|done]. apply elem_of_app. by left.
        -- apply elem_of_app in Hgr1 as [?| ->%list_elem_of_singleton]; [eauto|done].
  - split; simpl; [done| | | | | |done| |done].
    + rewrite length_app. simpl. lia.
    + intros p c H1 H2. rewrite Hlab by done.
      destruct (decide (p ∈ coordList cg)); [|by apply Hmask].
      intros [= <-] [?|?]; lia.
    + intros p c H1 H2. rewrite Hlab by done.
      destruct (decide (p ∈ coordList cg)).
      * intros [= <-]. lia.
      * intros Hc. specialize (Hval p c H1 H2 Hc). lia.
    + intros i gr Hi p H1 H2. rewrite Hlab by done.
      apply lookup_app_Some in Hi as [Hi|[Hge Hi]].
      * apply lookup_lt_Some in Hi as Hlt.
        destruct (decide (p ∈ coordList cg)) as [Hp|Hp]; [|by apply Hreg].
        split; [intros [= ?]; lia|]. intros Hp'. by destruct (Hnotreg i gr p Hi Hp).
      * apply list_lookup_singleton_Some in Hi as [Hi ->].
        destruct (decide (p ∈ coordList gr)) as [Hp|Hp].
        -- split; [done|]. intros _. f_equal. lia.
        -- split; [|done]. intros Hc. specialize (Hval p _ H1 H2 Hc). lia.
    + rewrite filter_app, filter_cons_True, filter_nil by lia. by rewrite Hkept.
    + intros p H1 H2. rewrite Hlab by done.
      destruct (decide (p ∈ coordList cg)) as [Hp|Hp].
      * split; [intros [= ?]; lia|]. intros (gr & Hgr1 & Hlt & Hp').
        apply elem_of_app in Hgr1 as [Hgr1| ->%list_elem_of_singleton]; [|lia].
        by destruct (Hnot gr p Hgr1 Hp).
      * rewrite Hpur by done. split; intros (gr & Hgr1 & Hlt & Hp').
        -- exists gr. split; [|done]. apply elem_of_app. by left.
        -- apply elem_of_app in Hgr1 as [?| ->%list_elem_of_singleton]; [eauto|lia].
Qed.

(** The loop ends with no unknown point left, the invariant holding of the
    final state and of all the grains grown. *)
Lemma findGrains_while_inv self mask m fuel st st' passed :
  seg_inv self mask m st passed ->
  findGrains_while self m fuel st = Ret st' ->
  seg_inv self mask m st' (passed ++ grown self m fuel st) ∧
  np_where_eq st'.1.1 0 = [].
Proof.
  revert st passed. induction fuel as [|fuel IH]; intros [[g gl] k] passed Hinv H;
    cbn [findGrains_while grown fst snd] in *;
    destruct (np_where_eq g 0) as [|[row col] rest] eqn:E; simplify_eq.
  - by rewrite app_nil_r.
  - by rewrite app_nil_r.
  - inv_bind H. rewrite Ha.
    pose proof (seg_inv_pass _ _ _ _ _ _ _ _ _ _ _ _ Hinv E Ha) as Hinv'.
    destruct (IH _ _ Hinv' H) as [Hfin Hnil]. by rewrite app_assoc.
Qed.

Lemma segment_inv self mask m fuel st :
  shape_ok self mask -> is_mask mask ->
  segment self mask m fuel = Ret st ->
  seg_inv self mask m st (grown self m fuel (mask, [], 1)) ∧
  np_where_eq st.1.1 0 = [].
Proof.
  intros Hsh Hm H.
  apply (findGrains_while_inv self mask m fuel _ _ [] (seg_inv_init _ _ _ Hsh Hm) H).
Qed.

(** ** Progress of the segmentation loop *)

Lemma findGrains_pass_returns self mask m fuel g gl k row col rest passed :
  field_ok self -> 2 ≤ xDim self -> 2 ≤ yDim self ->
  seg_inv self mask m (g, gl, k) passed ->
  np_where_eq g 0 = (row, col) :: rest -> (unknown g ≤ fuel)%nat ->
  exists st', findGrains_pass self m fuel row col (g, gl, k) = Ret st'.
Proof.
  intros Hfield Hx Hy Hinv E Hf.
  pose proof (si_shape Hinv) as Hsh. pose proof (si_index Hinv) as Hidx. simpl in *.
  apply np_where_head in E as (Hrow & Hcol & Hl).
  destruct (floodFill_returns self g k (col, row) ltac:(lia) ltac:(lia) Hsh Hcol Hrow Hl
              Hfield Hx Hy fuel Hf) as (g1 & cg & Hr).
  destruct (floodFill_inv self g k (col, row) ltac:(lia) ltac:(lia) Hsh
              Hcol Hrow Hl fuel g1 _ Hr) as (cg' & [= <-] & Hfi).
  unfold findGrains_pass. simpl in Hr. rewrite Hr. simpl.
  case_bool_decide; [|eauto].
  destruct (purge_returns self g1 (coordList cg)) as [g2 Hp].
  - apply (fi_shape Hfi).
  - intros p Hp. destruct (fi_in Hfi p Hp) as (H1 & H2 & Hk & _).
    eapply label_Some_inb; [apply (fi_shape Hfi)|done..].
  - rewrite Hp. simpl. eauto.
Qed.

Lemma findGrains_while_returns self mask m fuel st passed :
  field_ok self -> 2 ≤ xDim self -> 2 ≤ yDim self ->
  seg_inv self mask m st passed -> (unknown st.1.1 < fuel)%nat ->
  exists st', findGrains_while self m fuel st = Ret st'.
Proof.
  intros Hfield Hx Hy. revert st passed.
  induction fuel as [|fuel IH]; intros [[g gl] k] passed Hinv Hf; [lia|].
  cbn [findGrains_while fst snd] in *.
  destruct (np_where_eq g 0) as [|[row col] rest] eqn:E; [eauto|].
  destruct (findGrains_pass_returns self mask m fuel g gl k row col rest passed)
    as [[[g' gl'] k'] Hp]; [done..|lia|].
  rewrite Hp. simpl.
  pose proof (seg_inv_pass _ _ _ _ _ _ _ _ _ _ _ _ Hinv E Hp) as Hinv'.
  pose proof (si_index Hinv) as Hidx. simpl in Hidx.
  eapply findGrains_pass_unknown in Hp as [Hu _]; [|lia|done].
  eapply IH; [exact Hinv'|simpl; lia].
Qed.

Lemma segment_returns self mask m fuel :
  field_ok self -> 2 ≤ xDim self -> 2 ≤ yDim self ->
  shape_ok self mask -> is_mask mask -> (unknown mask < fuel)%nat ->
  exists st, segment self mask m fuel = Ret st.
Proof.
  intros Hfield Hx Hy Hsh Hm Hf.
  eapply findGrains_while_returns; [done..|by apply seg_inv_init|done].
Qed.

(** ** Completeness of the flood fill *)

Section FillClosed.
Variables (self : Map) (g0 : ndarray Z) (k : Z) (seed : Z * Z).
Hypothesis Hk0 : k ≠ 0.
Hypothesis Hk1 : k ≠ -1.

Local Abbreviation interior := (interior g0).
Local Abbreviation fill_inv := (fill_inv self g0 k seed).
Local Abbreviation fill_closed := (fill_closed self g0).

(** A visit changes labels to [k] only, settles the visited neighbour and
    puts every newly claimed unknown pixel on the next frontier. *)
Lemma visit_labels edge x y st mv st' :
  fill_inv edge st -> interior (coordList st.1.2) (x, y) ->
  mv ∈ moves_from self x y ->
  visit self k x y st mv = Ret st' ->
  (forall q, 0 ≤ q.1 -> 0 ≤ q.2 ->
     label st'.1.1 q = label st.1.1 q ∨ label st'.1.1 q = Some k) ∧
  label st'.1.1 mv ≠ Some 0 ∧
  (label st'.1.1 mv = Some (-1) -> ¬ forward (x, y) mv) ∧
  (forall q, q ∈ st.2 -> q ∈ st'.2) ∧
  (forall q, interior (coordList st'.1.2) q ->
     interior (coordList st.1.2) q ∨ q ∈ st'.2).
Proof.
  destruct st as [[g cg] ne], st' as [[g' cg'] ne'], mv as [s t].
  intros Hinv Hxy Hmv (lab & Hl & Hcase)%visit_Ret. simpl in *.
  destruct (fi_in Hinv (x, y) (proj1 Hxy)) as (Hx & Hy & _). simpl in *.
  destruct (moves_from_adj _ _ _ _ Hmv) as (_ & Hs & Ht). simpl in *.
  specialize (Hs Hx). specialize (Ht Hy).
  assert (Hclaim : setitem g t s k = Ret g' ->
    (forall q, 0 ≤ q.1 -> 0 ≤ q.2 -> label g' q = label g q ∨ label g' q = Some k) ∧
    label g' (s, t) ≠ Some 0 ∧ (label g' (s, t) = Some (-1) -> ¬ forward (x, y) (s, t))).
  { intros Hset.
    destruct (setitem_label g (s, t) k g' Hs Ht Hset) as (Hq & Hother & _).
    split; [|rewrite Hq; split; congruence].
    intros q H1 H2. destruct (decide (q = (s, t))) as [->|Hne]; auto. }
  destruct Hcase as [H|[H|H]].
  - destruct H as (-> & Hset & -> & ms & _ & Hcg).
    destruct (Hclaim Hset) as (H1 & H2 & H3).
    split; [done|]. split; [done|]. split; [done|]. split.
    + intros q Hq. apply elem_of_app. by left.
    + subst cg'. simpl. intros q [[Hq| ->%list_elem_of_singleton]%elem_of_app H0].
      * by left.
      * right. apply elem_of_app. right. by apply list_elem_of_singleton.
  - destruct H as (-> & Hfw & Hset & -> & ms & _ & Hcg).
    destruct (Hclaim Hset) as (H1 & H2 & H3).
    split; [done|]. split; [done|]. split; [done|]. split; [done|].
    subst cg'. simpl. intros q [[Hq| ->%list_elem_of_singleton]%elem_of_app H0].
    + by left.
    + exfalso. destruct (decide ((s, t) ∈ coordList cg)) as [Hin|Hnin].
      * destruct (fi_in Hinv _ Hin) as (_ & _ & Hk & _). simpl in *. congruence.
      * rewrite <- (fi_out Hinv (s, t) Hs Ht Hnin) in H0. simpl in *. congruence.
  - destruct H as (Hn0 & Hn1 & -> & -> & ->).
    split; [auto|]. split; [congruence|]. split; [|auto].
    intros Hl'. rewrite Hl in Hl'. injection Hl' as ->. unfold forward. simpl.
    intros Hfw. apply Hn1. done.
Qed.

Lemma expanded_stable g g' p :
  0 ≤ p.1 -> 0 ≤ p.2 ->
  (forall q, 0 ≤ q.1 -> 0 ≤ q.2 -> label g' q = label g q ∨ label g' q = Some k) ->
  expanded self g p -> expanded self g' p.
Proof.
  intros H1 H2 Hlab Hexp q Hq. destruct (Hexp q Hq) as [Hq0 Hq1].
  destruct (moves_from_adj _ _ _ _ Hq) as (_ & Hs & Ht).
  destruct (Hlab q (Hs H1) (Ht H2)) as [E|E]; rewrite E; [done|].
  split; congruence.
Qed.

(** Expanding the frontier pixel [p] takes it off the pixels to do. *)
Lemma expand_closed edge todo st p st' :
  fill_inv edge st -> interior (coordList st.1.2) p ->
  fill_closed (p :: todo) st ->
  expand self k st p = Ret st' ->
  fill_closed todo st'.
Proof.
  destruct p as [x y]. intros Hinv Hp Hcl Hr. unfold expand in Hr. simpl in Hr.
  destruct (fi_in Hinv (x, y) (proj1 Hp)) as (Hx & Hy & _). simpl in *.
  pose (P := fun (pre : list (Z * Z)) (s : fill_state) =>
    fill_inv edge s ∧ coordList st.1.2 ⊆ coordList s.1.2 ∧
    fill_closed ((x, y) :: todo) s ∧
    forall q, q ∈ pre ->
      label s.1.1 q ≠ Some 0 ∧ (label s.1.1 q = Some (-1) -> ¬ forward (x, y) q)).
  assert (HP : P (moves_from self x y) st').
  { refine (for_each_inv P _ _ st st' _ _ Hr).
    - split; [done|]. split; [done|]. split; [done|].
      intros q Hq. by apply elem_of_nil in Hq.
    - intros pre a s s' Hpre (Hi & Hsub & Hc & Hvis) Hv.
      assert (Hp' : interior (coordList s.1.2) (x, y)).
      { destruct Hp. split; [|done]. by apply Hsub. }
      pose proof (take_S_elem _ _ _ Hpre) as Ha.
      destruct (visit_inv self g0 k seed Hk0 Hk1 edge x y s a s' Hi Hp' Ha Hv)
        as [Hi' Hsub'].
      destruct (visit_labels edge x y s a s' Hi Hp' Ha Hv)
        as (Hlab & Ha0 & Ha1 & Hne & Hnew).
      split; [done|]. split; [by etrans|]. split.
      + intros q Hq. destruct (Hnew q Hq) as [Hq'|Hq']; [|auto].
        destruct (Hc q Hq') as [H|[H|H]]; [auto|auto|].
        right; right. destruct (fi_in Hi q (proj1 Hq')) as (H1 & H2 & _).
        by eapply expanded_stable.
      + intros q [Hq| ->%list_elem_of_singleton]%elem_of_app; [|done].
        destruct (Hvis q Hq) as [Hq0 Hq1].
        assert (q ∈ moves_from self x y) as Hqm.
        { assert (q ∈ take (S (length pre)) (moves_from self x y)) as Hin
            by (rewrite Hpre; apply elem_of_app; by left).
          by apply elem_of_take in Hin as (? & ?%list_elem_of_lookup_2 & _). }
        destruct (moves_from_adj _ _ _ _ Hqm) as (_ & Hs & Ht).
        destruct (Hlab q (Hs Hx) (Ht Hy)) as [E|E]; rewrite E; [done|].
        split; congruence. }
  destruct HP as (Hi & Hsub & Hc & Hvis).
  intros q Hq. destruct (Hc q Hq) as [[->|H]%elem_of_cons|[H|H]]; auto.
Qed.

Lemma sweep_closed edge st st' :
  fill_inv edge st -> fill_closed edge st ->
  for_each (expand self k) edge st = Ret st' ->
  fill_closed [] st'.
Proof.
  intros Hinv Hcl Hr.
  pose (P := fun (pre : list (Z * Z)) (s : fill_state) =>
    fill_inv edge s ∧ fill_closed (drop (length pre) edge) s).
  assert (HP : P edge st').
  { refine (for_each_inv P _ _ st st' _ _ Hr); [done|].
    intros pre a s s' Hpre [Hi Hc] Hv.
    assert (Ha : interior (coordList s.1.2) a).
    { apply (fi_edge Hi). apply elem_of_app. left. by eapply take_S_elem. }
    destruct (expand_inv self g0 k seed Hk0 Hk1 edge s a s' Hi Ha Hv) as [Hi' _].
    split; [done|]. rewrite length_app. simpl.
    replace (length pre + 1)%nat with (S (length pre)) by lia.
    apply (expand_closed edge _ s a s' Hi Ha); [|done].
    assert (Hd : drop (length pre) edge = a :: drop (S (length pre)) edge).
    { assert (edge !! length pre = Some a) as Hl.
      { rewrite <- (lookup_take_lt _ (S (length pre))) by lia.
        rewrite Hpre. by apply list_lookup_middle. }
      by apply drop_S. }
    by rewrite <- Hd. }
  destruct HP as [_ Hc]. by rewrite drop_all in Hc.
Qed.

Lemma floodFill_while_closed fuel edge g cg g' cg' :
  fill_inv edge (g, cg, []) -> fill_closed edge (g, cg, []) ->
  floodFill_while self k fuel edge g cg = Ret (g', Some cg') ->
  forall p, interior (coordList cg') p -> expanded self g' p.
Proof.
  revert edge g cg. induction fuel as [|fuel IH]; intros [|p edge] g cg Hinv Hcl H;
    cbn [floodFill_while] in H; simplify_eq.
  inv_bind H. destruct a as [[g1 cg1] ne].
  pose proof (sweep_closed _ _ _ Hinv Hcl Ha) as Hcl'.
  apply (sweep_inv self g0 k seed Hk0 Hk1) in Ha; [|done].
  destruct ne as [|q ne]; simplify_eq.
  - intros p' Hp'. destruct (Hcl' p' Hp') as [Hc|[Hc|Hc]]; [|simpl in Hc|done];
      by apply elem_of_nil in Hc.
  - apply (IH (q :: ne) g1 cg1); [by apply (fill_inv_next self g0 k seed (p :: edge))| |done].
    intros p' Hp'. destruct (Hcl' p' Hp') as [Hc|[Hc|Hc]]; [|auto..].
    by apply elem_of_nil in Hc.
Qed.

Hypothesis Hshape : shape_ok self g0.
Hypothesis Hseed1 : 0 ≤ seed.1.
Hypothesis Hseed2 : 0 ≤ seed.2.
Hypothesis Hseed0 : label g0 seed = Some 0.

(** When the fill returns, every unknown pixel of the grain has been
    expanded. *)
Lemma floodFill_closed fuel g' cg :
  floodFill self g0 seed.1 seed.2 k fuel = Ret (g', Some cg) ->
  forall p, interior (coordList cg) p -> expanded self g' p.
Proof.
  unfold floodFill. intros H. inv_bind H. inv_bind H.
  rewrite <- surjective_pairing in H.
  refine (floodFill_while_closed fuel [seed] _ _ _ _ _ _ H).
  - by apply fill_inv_init.
  - intros p [Hp _]. simpl in Hp. apply list_elem_of_singleton in Hp as ->.
    left. by apply list_elem_of_singleton.
Qed.

(** Hence the grain holds every unknown neighbour of its unknown pixels,
    and every boundary neighbour that lies forward of one. *)
Lemma floodFill_complete fuel g' cg p q :
  2 ≤ xDim self -> 2 ≤ yDim self ->
  floodFill self g0 seed.1 seed.2 k fuel = Ret (g', Some cg) ->
  interior (coordList cg) p -> adj4 p q -> inb self q ->
  label g0 q = Some 0 ∨ (label g0 q = Some (-1) ∧ forward p q) ->
  q ∈ coordList cg.
Proof.
  intros Hx Hy Hr Hp Hadj Hq Hlab.
  destruct (floodFill_inv self g0 k seed Hk0 Hk1 Hshape Hseed1 Hseed2 Hseed0 fuel g' _ Hr)
    as (cg' & [= <-] & Hinv).
  pose proof (floodFill_closed fuel g' cg Hr p Hp) as Hexp.
  assert (Hpin : inb self p).
  { destruct (fi_in Hinv p (proj1 Hp)) as (H1 & H2 & Hl & _).
    eapply label_Some_inb; [apply (fi_shape Hinv)|done..]. }
  assert (Hqm : q ∈ moves_from self p.1 p.2).
  { apply moves_from_inb; [done..|by rewrite <- surjective_pairing|].
    by rewrite <- surjective_pairing. }
  destruct (Hexp q Hqm) as [H0 H1].
  destruct (decide (q ∈ coordList cg)) as [|Hnin]; [done|exfalso].
  destruct Hq as [Hq1 Hq2].
  pose proof (fi_out Hinv q ltac:(lia) ltac:(lia) Hnin) as Eq. simpl in Eq.
  rewrite Eq in H0, H1.
  destruct Hlab as [E|[E Hfw]]; [done|]. by apply H1.
Qed.
End FillClosed.

(** ** What the first pass claims *)

(** The first grain holds every unknown pixel linked to the first unknown
    point through unknown pixels. *)
Lemma first_pass_region self mask m fuel row col rest st' cg p :
  shape_ok self mask -> 2 ≤ xDim self -> 2 ≤ yDim self ->
  np_where_eq mask 0 = (row, col) :: rest ->
  findGrains_pass self m fuel row col (mask, [], 1) = Ret st' ->
  pass_grain self fuel row col (mask, [], 1) = Some cg ->
  linked (fun q => inb self q ∧ label mask q = Some 0) (col, row) p ->
  interior mask (coordList cg) p.
Proof.
  intros Hsh Hx Hy E Hpass Hpg Hlink.
  apply np_where_head in E as (Hrow & Hcol & Hl).
  unfold pass_grain in Hpg. simpl in Hpg.
  destruct (floodFill self mask col row 1 fuel) as [[g1 [cg'|]]| |] eqn:Hff; simplify_eq.
  destruct (floodFill_inv self mask 1 (col, row) ltac:(lia) ltac:(lia) Hsh
              Hcol Hrow Hl fuel g1 _ Hff) as (cg' & [= <-] & Hinv).
  induction Hlink as [Hs|p q _ IH Hadj [Hq Hq0]].
  - split; [|done]. pose proof (fi_head Hinv) as Hh. simpl in Hh.
    destruct (coordList cg); simplify_eq/=. apply elem_of_cons. by left.
  - split; [|done].
    eapply (floodFill_complete self mask 1 (col, row) ltac:(lia) ltac:(lia) Hsh
              Hcol Hrow Hl fuel g1 cg p q); eauto.
Qed.

(** It also holds every boundary pixel lying forward of such a pixel. *)
Lemma first_pass_absorbs self mask m fuel row col rest st' cg p b :
  shape_ok self mask -> 2 ≤ xDim self -> 2 ≤ yDim self ->
  np_where_eq mask 0 = (row, col) :: rest ->
  findGrains_pass self m fuel row col (mask, [], 1) = Ret st' ->
  pass_grain self fuel row col (mask, [], 1) = Some cg ->
  linked (fun q => inb self q ∧ label mask q = Some 0) (col, row) p ->
  adj4 p b -> forward p b -> inb self b -> label mask b = Some (-1) ->
  b ∈ coordList cg.
Proof.
  intros Hsh Hx Hy E Hpass Hpg Hlink Hadj Hfw Hb Hb1.
  pose proof (first_pass_region _ _ _ _ _ _ _ _ _ _ Hsh Hx Hy E Hpass Hpg Hlink) as Hp.
  apply np_where_head in E as (Hrow & Hcol & Hl).
  unfold pass_grain in Hpg. simpl in Hpg.
  destruct (floodFill self mask col row 1 fuel) as [[g1 [cg'|]]| |] eqn:Hff; simplify_eq.
  eapply (floodFill_complete self mask 1 (col, row) ltac:(lia) ltac:(lia) Hsh
            Hcol Hrow Hl fuel g1 cg p b); eauto.
Qed.

(** ** Two blocks and a boundary line *)

Lemma label_replicate (h : nat) (row : list Z) x y :
  0 ≤ x -> 0 ≤ y < Z.of_nat h -> label (replicate h row) (x, y) = row !! Z.to_nat x.
Proof.
  intros Hx Hy. unfold label. rewrite cell_nonneg by (simpl; lia). simpl.
  rewrite (lookup_replicate_2 h row (Z.to_nat y)) by lia. done.
Qed.

Lemma blocks_v_label (w1 w2 h : nat) x y :
  0 ≤ x < Z.of_nat w1 + 1 + Z.of_nat w2 -> 0 ≤ y < Z.of_nat h ->
  label (blocks_v w1 w2 h) (x, y) =
    Some (if decide (x = Z.of_nat w1) then -1 else 0).
Proof.
  intros Hx Hy. unfold blocks_v. rewrite label_replicate by lia.
  destruct (decide (x < Z.of_nat w1)).
  - rewrite lookup_app_l by (rewrite length_replicate; lia).
    rewrite lookup_replicate_2 by lia. by rewrite decide_False by lia.
  - rewrite lookup_app_r by (rewrite length_replicate; lia).
    rewrite length_replicate. case_decide as E.
    + replace (Z.to_nat x - w1)%nat with 0%nat by lia. done.
    + replace (Z.to_nat x - w1)%nat with (S (Z.to_nat x - w1 - 1)) by lia. simpl.
      by rewrite lookup_replicate_2 by lia.
Qed.

Lemma blocks_h_label (h1 h2 w : nat) x y :
  0 ≤ x < Z.of_nat w -> 0 ≤ y < Z.of_nat h1 + 1 + Z.of_nat h2 ->
  label (blocks_h h1 h2 w) (x, y) =
    Some (if decide (y = Z.of_nat h1) then -1 else 0).
Proof.
  intros Hx Hy. unfold blocks_h, label. rewrite cell_nonneg by (simpl; lia). simpl.
  destruct (decide (y < Z.of_nat h1)).
  - rewrite lookup_app_l by (rewrite length_replicate; lia).
    rewrite lookup_replicate_2 by lia. simpl.
    rewrite lookup_replicate_2 by lia. by rewrite decide_False by lia.
  - rewrite lookup_app_r by (rewrite length_replicate; lia).
    rewrite length_replicate. case_decide as E.
    + replace (Z.to_nat y - h1)%nat with 0%nat by lia. simpl.
      by rewrite lookup_replicate_2 by lia.
    + replace (Z.to_nat y - h1)%nat with (S (Z.to_nat y - h1 - 1)) by lia. simpl.
      rewrite lookup_replicate_2 by lia. simpl.
      by rewrite lookup_replicate_2 by lia.
Qed.

Lemma blocks_v_shape self (w1 w2 h : nat) :
  xDim self = Z.of_nat w1 + 1 + Z.of_nat w2 -> yDim self = Z.of_nat h ->
  shape_ok self (blocks_v w1 w2 h) ∧ is_mask (blocks_v w1 w2 h).
Proof.
  intros Hx Hy. unfold blocks_v, shape_ok, is_mask. split; [split|].
  - rewrite length_replicate. lia.
  - apply Forall_replicate. rewrite !length_app, !length_replicate. simpl. lia.
  - apply Forall_replicate. rewrite !Forall_app. repeat split.
    + apply Forall_replicate. auto.
    + apply Forall_singleton. auto.
    + apply Forall_replicate. auto.
Qed.

Lemma blocks_h_shape self (h1 h2 w : nat) :
  xDim self = Z.of_nat w -> yDim self = Z.of_nat h1 + 1 + Z.of_nat h2 ->
  shape_ok self (blocks_h h1 h2 w) ∧ is_mask (blocks_h h1 h2 w).
Proof.
  intros Hx Hy. unfold blocks_h, shape_ok, is_mask. split; [split|].
  - rewrite !length_app, !length_replicate. simpl. lia.
  - rewrite !Forall_app. repeat split.
    + apply Forall_replicate. rewrite length_replicate. lia.
    + apply Forall_singleton. rewrite length_replicate. lia.
    + apply Forall_replicate. rewrite length_replicate. lia.
  - rewrite !Forall_app. repeat split.
    + apply Forall_replicate, Forall_replicate. auto.
    + apply Forall_singleton, Forall_replicate. auto.
    + apply Forall_replicate, Forall_replicate. auto.
Qed.

(** A rectangle of pixels is linked to its corner (x0, y0). *)
Lemma linked_rectangle (inside : Z * Z -> Prop) (x0 y0 w h : Z) :
  (forall x y, x0 ≤ x < x0 + w -> y0 ≤ y < y0 + h -> inside (x, y)) ->
  forall x y, x0 ≤ x < x0 + w -> y0 ≤ y < y0 + h ->
    linked inside (x0, y0) (x, y).
Proof.
  intros Hin.
  assert (Hcol : forall ny : nat, Z.of_nat ny < h -> 0 < w ->
            linked inside (x0, y0) (x0, y0 + Z.of_nat ny)).
  { induction ny as [|ny IH]; intros Hny Hw.
    - rewrite Z.add_0_r. apply linked_seed. apply Hin; lia.
    - eapply linked_step; [apply IH; lia| |apply Hin; lia].
      right. simpl. split; [done|]. left. lia. }
  assert (Hrow : forall nx ny : nat, Z.of_nat nx < w -> Z.of_nat ny < h ->
            linked inside (x0, y0) (x0 + Z.of_nat nx, y0 + Z.of_nat ny)).
  { induction nx as [|nx IH]; intros ny Hnx Hny.
    - rewrite Z.add_0_r. apply Hcol; lia.
    - eapply linked_step; [apply (IH ny); lia| |apply Hin; lia].
      left. simpl. split; [done|]. left. lia. }
  intros x y Hx Hy. specialize (Hrow (Z.to_nat (x - x0)) (Z.to_nat (y - y0))).
  replace (x0 + Z.of_nat (Z.to_nat (x - x0))) with x in Hrow by lia.
  replace (y0 + Z.of_nat (Z.to_nat (y - y0))) with y in Hrow by lia.
  apply Hrow; lia.
Qed.

(** ** Cropping *)

Lemma py_slice_length {A} (l : list A) (lo hi : Z) :
  0 ≤ lo -> 0 < hi -> lo + hi ≤ Z.of_nat (length l) ->
  Z.of_nat (length (py_slice l lo (- hi))) = Z.of_nat (length l) - lo - hi.
Proof.
  intros Hlo Hhi Hsum. unfold py_slice, slice_bound.
  rewrite (bool_decide_false (lo < 0)) by lia.
  rewrite (bool_decide_true (- hi < 0)) by lia.
  rewrite length_take, length_drop. lia.
Qed.

Lemma py_slice_Forall {A} (P : A -> Prop) (l : list A) (lo hi : Z) :
  Forall P l -> Forall P (py_slice l lo hi).
Proof. intros H. unfold py_slice. by apply Forall_take, Forall_drop. Qed.

(** ** The mode of a footprint *)

Lemma count_of_elem v (a : list Z) : v ∈ a -> 1 ≤ count_of v a.
Proof.
  intros Hv. unfold count_of.
  assert (v ∈ filter (fun c => c = v) a) as Hin by (by apply list_elem_of_filter).
  destruct (filter _ a); [by apply elem_of_nil in Hin|simpl; lia].
Qed.

Lemma mode_fold (a : list Z) scores m0 c0 m c :
  foldl (fun '(oldmostfreq, oldcounts) score =>
           let counts := count_of score a in
           if bool_decide (counts > oldcounts) then (score, counts)
           else (oldmostfreq, oldcounts)) (m0, c0) scores = (m, c) ->
  c0 ≤ c ∧ (forall s, s ∈ scores -> count_of s a ≤ c) ∧
  ((m, c) = (m0, c0) ∨ m ∈ scores).
Proof.
  revert m0 c0. induction scores as [|s scores IH]; intros m0 c0 H; simpl in H.
  - simplify_eq. split; [lia|]. split; [|by left]. intros s Hs. by apply elem_of_nil in Hs.
  - case_bool_decide as Hgt; apply IH in H as (Hle & Hmax & Hm).
    + split; [lia|]. split.
      * intros s' [->|Hs']%elem_of_cons; [lia|auto].
      * right. destruct Hm as [[= -> ->]|Hm]; apply elem_of_cons; auto.
    + split; [lia|]. split.
      * intros s' [->|Hs']%elem_of_cons; [lia|auto].
      * destruct Hm as [Hm|Hm]; [by left|]. right. apply elem_of_cons. auto.
Qed.

(** The mode of a non-empty array is one of its values. *)
Lemma stats_mode_elem (a : list Z) :
  a ≠ [] -> exists m c, stats_mode a = ([m], [c]) ∧ m ∈ a.
Proof.
  intros Hne. destruct a as [|v a]; [done|]. unfold stats_mode.
  set (l := v :: a).
  destruct (foldl _ (0, 0) (merge_sort Z.le (remove_dups l))) as [m c] eqn:E.
  exists m, c. split; [done|].
  apply mode_fold in E as (_ & Hmax & Hm).
  assert (Hscores : forall s, s ∈ merge_sort Z.le (remove_dups l) <-> s ∈ l).
  { intros s. rewrite merge_sort_Permutation. apply elem_of_remove_dups. }
  assert (Hv : v ∈ l) by (apply elem_of_cons; by left).
  destruct Hm as [[= -> ->]|Hm]; [|by apply Hscores].
  pose proof (Hmax v (proj2 (Hscores v) Hv)). pose proof (count_of_elem v l Hv). lia.
Qed.

(** ** The linking loop *)

Lemma py_getitem_lookup {A} (l : list A) (i : nat) x :
  l !! i = Some x -> py_getitem l (Z.of_nat i) = Ret x.
Proof.
  intros Hi. unfold py_getitem. apply lookup_lt_Some in Hi as Hlt.
  rewrite norm_index_nonneg by lia. rewrite bool_decide_true by lia. simpl.
  by rewrite Nat2Z.id, Hi.
Qed.

(** What one step of the loop records for grain [i] when it returns. *)
Lemma link_grain_Ret ebsdMap warped gl ids (i : nat) gl' ids' :
  link_grain ebsdMap warped (gl, ids) i = Ret (gl', ids') ->
  exists footprint m c gr (pos : nat),
    mask_select (ebsd_grains ebsdMap) warped (Z.of_nat i + 1) = Ret footprint ∧
    stats_mode footprint = ([m], [c]) ∧ m ∈ footprint ∧
    gl !! i = Some gr ∧
    py_index (seq 0 (ebsd_grainList ebsdMap)) (m - 1) = Ret pos ∧
    ids' = ids ++ [m - 1] ∧
    gl' = <[i := set_ebsdGrain (set_ebsdGrainId gr (m - 1)) pos]> gl.
Proof.
  unfold link_grain. intros H. inv_bind H. rename a into fp.
  destruct fp as [|v fp].
  { simpl in H. done. }
  destruct (stats_mode_elem (v :: fp) ltac:(done)) as (m & c & Hm & Hin).
  rewrite Hm in H. simpl in H.
  change (py_getitem [m] 0) with (Ret m) in H. simpl in H.
  inv_bind H. rename a into gr.
  assert (Hgr : gl !! i = Some gr).
  { unfold py_getitem in Ha0. rewrite norm_index_nonneg in Ha0 by lia.
    case_bool_decide; simpl in Ha0; [|done]. rewrite Nat2Z.id in Ha0.
    destruct (gl !! i); by simplify_eq. }
  inv_bind H. rename a into pos.
  rewrite (py_getitem_lookup _ i (set_ebsdGrainId gr (m - 1))) in H.
  2:{ apply list_lookup_insert_eq. by eapply lookup_lt_Some. }
  simpl in H. inv_ret.
  exists (v :: fp), m, c, gr, pos. rewrite list_insert_insert_eq. done.
Qed.

Lemma take_S_seq (n : nat) (pre : list nat) (a : nat) :
  take (S (length pre)) (seq 0 n) = pre ++ [a] -> a = length pre ∧ (a < n)%nat.
Proof.
  intros E.
  assert (seq 0 n !! length pre = Some a) as Hl.
  { rewrite <- (lookup_take_lt _ (S (length pre))) by lia.
    rewrite E. by apply list_lookup_middle. }
  apply lookup_seq in Hl. lia.
Qed.

Lemma findGrains_link_Ret ebsdMap warped grainList res :
  findGrains_link ebsdMap warped grainList = Ret res ->
  linked_upto ebsdMap warped (length grainList) (length grainList) res.
Proof.
  intros Hr. unfold findGrains_link in Hr.
  pose (P := fun (pre : list nat) (st : list Grain * list Z) =>
    linked_upto ebsdMap warped (length grainList) (length pre) st).
  assert (HP : P (seq 0 (length grainList)) res).
  { refine (for_each_inv P _ _ _ res _ _ Hr).
    - split; [done|]. split; [done|]. intros i Hi. simpl in Hi. lia.
    - intros pre a [gl ids] [gl' ids'] Hpre (Hlen & Hids & Hall) Hstep.
      unfold P, linked_upto in *. simpl in *.
      apply take_S_seq in Hpre as [-> Hlt].
      apply link_grain_Ret in Hstep
        as (fp & m & c & gr & pos & Hfp & Hm & Hin & Hgr & Hpos & -> & ->).
      unfold P, linked_upto. simpl.
      split; [by rewrite length_insert|]. split; [rewrite !length_app; simpl; lia|].
      intros i Hi. rewrite length_app in Hi. simpl in Hi.
      destruct (decide (i = length pre)) as [->|Hne].
      + exists fp, m, c, (set_ebsdGrain (set_ebsdGrainId gr (m - 1)) pos), pos.
        repeat split; try done.
        * rewrite lookup_app_r by lia. by rewrite Hids, Nat.sub_diag.
        * apply list_lookup_insert_eq. lia.
      + destruct (Hall i ltac:(lia))
          as (fp' & m' & c' & gr' & pos' & H1 & H2 & H3 & H4 & H5 & H6 & H7 & H8).
        exists fp', m', c', gr', pos'. repeat split; try done.
        * rewrite lookup_app_l by lia. done.
        * by rewrite list_lookup_insert_ne. }
  unfold P in HP. by rewrite length_seq in HP.
Qed.

(** The loop returns when every grain has a non-empty footprint whose
    values, less one, index [ebsdMap.grainList]. *)
Lemma findGrains_link_returns ebsdMap warped grainList :
  (forall j : nat, (j < length grainList)%nat ->
     exists fp, mask_select (ebsd_grains ebsdMap) warped (Z.of_nat j + 1) = Ret fp ∧
       fp ≠ [] ∧
       Forall (fun c => - Z.of_nat (ebsd_grainList ebsdMap) ≤ c - 1
                        < Z.of_nat (ebsd_grainList ebsdMap)) fp) ->
  exists res, findGrains_link ebsdMap warped grainList = Ret res.
Proof.
  intros Hall. unfold findGrains_link.
  destruct (for_each_returns
    (fun _ (st : list Grain * list Z) => length st.1 = length grainList)
    (link_grain ebsdMap warped) (seq 0 (length grainList)) (grainList, []))
    as (res & Hr & _); [done| |eauto].
  intros pre a [gl ids] Hpre Hlen. simpl in Hlen.
  apply take_S_seq in Hpre as [-> Hlt].
  destruct (Hall _ Hlt) as (fp & Hfp & Hne & Hrange).
  destruct (stats_mode_elem fp Hne) as (m & c & Hm & Hin).
  destruct (lookup_lt_is_Some_2 gl (length pre)) as [gr Hgr]; [lia|].
  pose proof (proj1 (Forall_forall _ _) Hrange m Hin) as Hmr. simpl in Hmr.
  assert (exists pos, norm_index (length (seq 0 (ebsd_grainList ebsdMap))) (m - 1)
                      = Some pos) as [pos Hpos].
  { unfold norm_index. rewrite length_seq. repeat case_bool_decide; eauto; lia. }
  eexists. split.
  - unfold link_grain. rewrite Hfp. simpl. rewrite Hm.
    change (py_getitem [m] 0) with (Ret m). simpl.
    rewrite (py_getitem_lookup _ _ _ Hgr). simpl.
    unfold py_index. rewrite Hpos. simpl.
    rewrite (py_getitem_lookup _ (length pre) (set_ebsdGrainId gr (m - 1))).
    2:{ apply list_lookup_insert_eq. lia. }
    simpl. reflexivity.
  - simpl. by rewrite !length_insert.
Qed.

(** ** Helpers for the final statements *)

Lemma label_occurs g p c :
  0 ≤ p.1 -> 0 ≤ p.2 -> label g p = Some c -> exists row, row ∈ g ∧ c ∈ row.
Proof.
  intros H1 H2 (row & Hr & Hc)%label_nonneg_lookup; [|done..].
  exists row. split; by eapply list_elem_of_lookup_2.
Qed.

Lemma occurs_label g row c :
  row ∈ g -> c ∈ row -> exists p, 0 ≤ p.1 ∧ 0 ≤ p.2 ∧ label g p = Some c.
Proof.
  intros [i Hi]%list_elem_of_lookup [j Hj]%list_elem_of_lookup.
  exists (Z.of_nat j, Z.of_nat i). simpl. split; [lia|]. split; [lia|].
  apply label_nonneg_lookup; simpl; [lia..|]. rewrite !Nat2Z.id. eauto.
Qed.

Lemma grain_ok_seed mask gr :
  grain_ok mask gr -> exists seed, seed ∈ coordList gr ∧ 0 ≤ seed.1 ∧ 0 ≤ seed.2.
Proof.
  intros (_ & _ & Hnn & seed & Hh & _). exists seed.
  assert (seed ∈ coordList gr) as Hin.
  { destruct (coordList gr); simplify_eq/=. apply elem_of_cons. by left. }
  split; [done|]. by destruct (Hnn seed Hin) as (? & ? & _).
Qed.

Lemma filter_split_length {A} (P Q : A -> Prop) `{forall x, Decision (P x)}
    `{forall x, Decision (Q x)} (l : list A) :
  (forall x, x ∈ l -> (P x ∧ ¬ Q x) ∨ (Q x ∧ ¬ P x)) ->
  length l = (length (filter P l) + length (filter Q l))%nat.
Proof.
  induction l as [|x l IH]; intros Hall; [done|].
  rewrite !filter_cons.
  assert (Hl : forall y, y ∈ l -> (P y ∧ ¬ Q y) ∨ (Q y ∧ ¬ P y)).
  { intros y Hy. apply Hall. apply elem_of_cons. by right. }
  specialize (IH Hl).
  destruct (Hall x ltac:(apply elem_of_cons; by left)) as [[HP HQ]|[HQ HP]];
    repeat case_decide; try done; simpl; lia.
Qed.

Lemma blocks_v_first (w1 w2 h : nat) :
  (1 ≤ w1)%nat -> (1 ≤ h)%nat ->
  exists rest, np_where_eq (blocks_v w1 w2 h) 0 = (0, 0) :: rest.
Proof.
  intros Hw Hh. destruct w1 as [|w1]; [lia|]. destruct h as [|h]; [lia|].
  unfold blocks_v, np_where_eq. simpl. eauto.
Qed.

Lemma blocks_h_first (h1 h2 w : nat) :
  (1 ≤ h1)%nat -> (1 ≤ w)%nat ->
  exists rest, np_where_eq (blocks_h h1 h2 w) 0 = (0, 0) :: rest.
Proof.
  intros Hh Hw. destruct h1 as [|h1]; [lia|]. destruct w as [|w]; [lia|].
  unfold blocks_h, np_where_eq. simpl. eauto.
Qed.

(** ** Further lemmas on linking and the mode *)

(** Linking writes the two link fields only: pixels and samples of every
    grain stay as segmentation left them. *)
Lemma findGrains_link_frame ebsdMap warped grainList gl ids :
  findGrains_link ebsdMap warped grainList = Ret (gl, ids) ->
  coordList <$> gl = coordList <$> grainList ∧
  maxShearList <$> gl = maxShearList <$> grainList.
Proof.
  intros Hr. unfold findGrains_link in Hr.
  refine (for_each_inv
    (fun _ (st : list Grain * list Z) =>
       coordList <$> st.1 = coordList <$> grainList ∧
       maxShearList <$> st.1 = maxShearList <$> grainList)
    _ _ _ (gl, ids) _ _ Hr); [done|].
  intros pre a [gl0 ids0] [gl1 ids1] _ [Hc Hm] Hstep. simpl in *.
  apply link_grain_Ret in Hstep as (_ & m & _ & gr & pos & _ & _ & _ & Hgr & _ & _ & ->).
  rewrite !list_fmap_insert. simpl.
  rewrite <- Hc, <- Hm. split; apply list_insert_id; by rewrite list_lookup_fmap, Hgr.
Qed.

(** The mode occurs most often. *)
Lemma stats_mode_max (a : list Z) m c :
  stats_mode a = ([m], [c]) ->
  c = count_of m a ∧ forall s, s ∈ a -> count_of s a ≤ c.
Proof.
  intros H. destruct a as [|v a]; [done|]. unfold stats_mode in H.
  set (l := v :: a) in *.
  destruct (foldl _ (0, 0) (merge_sort Z.le (remove_dups l))) as [m' c'] eqn:E.
  injection H as -> ->.
  assert (Hscores : forall s, s ∈ merge_sort Z.le (remove_dups l) <-> s ∈ l).
  { intros s. rewrite merge_sort_Permutation. apply elem_of_remove_dups. }
  assert (Hv : v ∈ l) by (apply elem_of_cons; by left).
  assert (G : forall scores m0 c0 m1 c1,
    foldl (fun '(oldmostfreq, oldcounts) score =>
             let counts := count_of score l in
             if bool_decide (counts > oldcounts) then (score, counts)
             else (oldmostfreq, oldcounts)) (m0, c0) scores = (m1, c1) ->
    (m1, c1) = (m0, c0) ∨ c1 = count_of m1 l).
  { induction scores as [|s scores IH]; intros m0 c0 m1 c1 Hf; simpl in Hf.
    - left. by simplify_eq.
    - case_bool_decide; apply IH in Hf as [Hf|Hf]; simplify_eq; auto. }
  pose proof (mode_fold l _ _ _ _ _ E) as (_ & Hmax & _).
  split.
  - destruct (G _ _ _ _ _ E) as [[= -> ->]|?]; [|done].
    pose proof (Hmax v (proj2 (Hscores v) Hv)). pose proof (count_of_elem v l Hv). lia.
  - intros s Hs. apply Hmax. by apply Hscores.
Qed.

Lemma mode_fold_first (a : list Z) scores m0 c0 m c :
  StronglySorted Z.le scores ->
  (forall s, s ∈ scores -> m0 ≤ s) ∨ (c0 < 1 ∧ forall s, s ∈ scores -> 1 ≤ count_of s a) ->
  foldl (fun '(oldmostfreq, oldcounts) score =>
           let counts := count_of score a in
           if bool_decide (counts > oldcounts) then (score, counts)
           else (oldmostfreq, oldcounts)) (m0, c0) scores = (m, c) ->
  ((m, c) = (m0, c0) ∨ c > c0) ∧
  forall s, s ∈ scores -> count_of s a = c -> m ≤ s.
Proof.
  revert m0 c0. induction scores as [|s scores IH]; intros m0 c0 Hsorted HA Hf;
    simpl in Hf.
  - simplify_eq. split; [by left|]. intros s Hs. by apply elem_of_nil in Hs.
  - apply StronglySorted_inv in Hsorted as [Hsorted Hle].
    pose proof (proj1 (Forall_forall _ _) Hle) as Hle'.
    case_bool_decide as Hgt.
    + destruct (IH s (count_of s a) Hsorted (or_introl Hle') Hf) as [Hch Hfirst].
      split; [right; destruct Hch as [[= -> ->]|?]; lia|].
      intros s' [->|Hs']%elem_of_cons Hc; [|by apply Hfirst].
      destruct Hch as [[= -> ->]|?]; lia.
    + assert (Hm0 : forall s', s' ∈ s :: scores -> m0 ≤ s').
      { destruct HA as [?|[Hc0 Hall]]; [done|].
        specialize (Hall s ltac:(apply elem_of_cons; by left)). lia. }
      destruct (IH m0 c0 Hsorted) as [Hch Hfirst]; [|done|].
      { left. intros s' Hs'. apply Hm0. apply elem_of_cons. by right. }
      split; [done|].
      intros s' [->|Hs']%elem_of_cons Hc; [|by apply Hfirst].
      destruct Hch as [[= -> ->]|?]; [|lia].
      apply Hm0. apply elem_of_cons. by left.
Qed.

(** ** Grains are maximal regions *)

Lemma adj4_sym p q : adj4 p q -> adj4 q p.
Proof. unfold adj4. lia. Qed.

(** A labelled pixel belongs to one of the grains grown so far. *)
Lemma seg_inv_owner self mask m st passed p c :
  seg_inv self mask m st passed -> 0 ≤ p.1 -> 0 ≤ p.2 ->
  label st.1.1 p = Some c -> c ≠ 0 -> c ≠ -1 ->
  exists gr, gr ∈ passed ∧ p ∈ coordList gr.
Proof.
  intros Hinv H1 H2 Hl Hc0 Hc1.
  destruct (si_values Hinv p c H1 H2 Hl) as [?|[?|[->|Hc]]]; [done|done| |].
  - destruct (proj1 (si_purged Hinv p H1 H2) Hl) as (gr & Hgr & _ & Hp). eauto.
  - pose proof (si_index Hinv) as Hidx.
    destruct (lookup_lt_is_Some_2 st.1.2 (Z.to_nat (c - 1))) as [gr Hgr]; [lia|].
    exists gr. split.
    + apply list_elem_of_lookup_2 in Hgr. rewrite (si_kept Hinv) in Hgr.
      by apply list_elem_of_filter in Hgr as [_ ?].
    + apply (si_registry Hinv _ gr Hgr p H1 H2).
      rewrite Hl. f_equal. lia.
Qed.

Lemma pass_closed self mask m fuel g gl k row col rest st' passed cg :
  2 ≤ xDim self -> 2 ≤ yDim self ->
  seg_inv self mask m (g, gl, k) passed ->
  (forall gr, gr ∈ passed -> region_closed self mask gr) ->
  np_where_eq g 0 = (row, col) :: rest ->
  findGrains_pass self m fuel row col (g, gl, k) = Ret st' ->
  pass_grain self fuel row col (g, gl, k) = Some cg ->
  region_closed self mask cg.
Proof.
  intros Hx Hy Hinv Hcl E Hpass Hpg p q Hp Hp0 Hadj Hq Hq0.
  pose proof (si_shape Hinv) as Hsh. simpl in Hsh.
  assert (Hk : 1 ≤ k) by (pose proof (si_index Hinv) as Hidx; simpl in Hidx; lia).
  apply np_where_head in E as (Hrow & Hcol & Hl).
  unfold pass_grain in Hpg. simpl in Hpg.
  destruct (floodFill self g col row k fuel) as [[g1 [cg'|]]| |] eqn:Hff; simplify_eq.
  destruct (floodFill_inv self g k (col, row) ltac:(lia) ltac:(lia) Hsh
              Hcol Hrow Hl fuel g1 _ Hff) as (cg' & [= <-] & Hfi).
  destruct (fi_in Hfi p Hp) as (Hp1 & Hp2 & _ & Hg).
  assert (Hgp : label g p = Some 0).
  { destruct Hg as [?|Hg]; [done|].
    pose proof (si_mask Hinv p (-1) Hp1 Hp2 Hg ltac:(auto)). congruence. }
  destruct Hq as [Hq1 Hq2].
  destruct (label_inb self g q Hsh ltac:(split; lia)) as [c Hc].
  destruct (decide (c = 0)) as [->|Hc0].
  { eapply (floodFill_complete self g k (col, row) ltac:(lia) ltac:(lia) Hsh
              Hcol Hrow Hl fuel g1 cg p q); eauto; [by split|by split]. }
  exfalso. destruct (decide (c = -1)) as [->|Hc1].
  { pose proof (si_mask Hinv q (-1) ltac:(lia) ltac:(lia) Hc ltac:(auto)). congruence. }
  destruct (seg_inv_owner _ _ _ _ _ q c Hinv ltac:(lia) ltac:(lia) Hc Hc0 Hc1)
    as (gr & Hgr & Hqgr).
  assert (p ∈ coordList gr) as Hpgr.
  { apply (Hcl gr Hgr q p Hqgr Hq0 (adj4_sym _ _ Hadj)); [|done].
    eapply label_Some_inb; [exact Hsh|done..]. }
  destruct (seg_inv_claimed _ _ _ _ _ gr p Hinv Hgr Hpgr) as (_ & _ & c' & Hc' & ? & ?).
  simpl in Hc'. congruence.
Qed.

Lemma findGrains_while_closed self mask m fuel st st' passed :
  2 ≤ xDim self -> 2 ≤ yDim self ->
  seg_inv self mask m st passed ->
  (forall gr, gr ∈ passed -> region_closed self mask gr) ->
  findGrains_while self m fuel st = Ret st' ->
  forall gr, gr ∈ passed ++ grown self m fuel st -> region_closed self mask gr.
Proof.
  intros Hx Hy. revert st passed.
  induction fuel as [|fuel IH]; intros [[g gl] k] passed Hinv Hcl H;
    cbn [findGrains_while grown fst snd] in *;
    destruct (np_where_eq g 0) as [|[row col] rest] eqn:E; simplify_eq.
  - rewrite app_nil_r. done.
  - rewrite app_nil_r. done.
  - inv_bind H. rewrite Ha.
    pose proof (seg_inv_pass _ _ _ _ _ _ _ _ _ _ _ _ Hinv E Ha) as Hinv'.
    destruct (pass_effect self m fuel g gl k row col rest a (si_shape Hinv)
                ltac:(pose proof (si_index Hinv) as Hi; simpl in Hi; lia) E Ha)
      as (cg & v & g1 & Hpg & _).
    rewrite Hpg in Hinv' |- *. cbn [option_list] in Hinv' |- *. rewrite app_assoc.
    apply (IH a (passed ++ [cg]) Hinv'); [|done].
    intros gr [Hgr| ->%list_elem_of_singleton]%elem_of_app; [auto|].
    by eapply pass_closed.
Qed.

(** ** Two regions and the boundary between them *)

Lemma two_element_list {A} (l : list A) (g1 g2 : A) (j : nat) :
  l !! 0%nat = Some g1 -> l !! j = Some g2 -> j ≠ 0%nat ->
  (forall (i : nat) x, l !! i = Some x -> i = 0%nat ∨ i = j) ->
  l = [g1; g2].
Proof.
  intros H0 Hj Hne Hall.
  destruct l as [|a l]; [done|]. simpl in H0. injection H0 as ->.
  destruct l as [|b l].
  { destruct j; [done|]. simpl in Hj. by rewrite lookup_nil in Hj. }
  destruct (Hall 1%nat b eq_refl) as [?|<-]; [done|].
  simpl in Hj. injection Hj as ->.
  destruct l as [|c l]; [done|].
  destruct (Hall 2%nat c eq_refl); done.
Qed.

Section TwoRegions.
Variables (self : Map) (mask : ndarray Z) (m : Z) (fuel : nat) (st : seg_state).
Variables (R1 R2 B : Z * Z -> Prop) (c2 : Z * Z).

(** An unknown pixel of the mask inside the grid. *)
Local Abbreviation open := (fun q : Z * Z => inb self q ∧ label mask q = Some 0).

Hypothesis HxDim : 2 ≤ xDim self.
Hypothesis HyDim : 2 ≤ yDim self.
Hypothesis Hshape : shape_ok self mask.
Hypothesis Hmask : is_mask mask.
Hypothesis Hrun : segment self mask m fuel = Ret st.
Hypothesis Hfirst : exists rest, np_where_eq mask 0 = (0, 0) :: rest.
Hypothesis HR1_seed : R1 (0, 0).
Hypothesis HR1_linked : forall p, R1 p -> linked open (0, 0) p.
Hypothesis HR1_closed : forall p q, R1 p -> adj4 p q -> open q -> R1 q.
Hypothesis HR2_linked : forall p, R2 p -> linked open c2 p.
Hypothesis Hc2 : open c2 ∧ ¬ R1 c2.
Hypothesis Hcover : forall p, open p -> R1 p ∨ R2 p.
Hypothesis HB : forall b, B b ->
  inb self b ∧ label mask b = Some (-1) ∧ exists p, R1 p ∧ adj4 p b ∧ forward p b.

(** Segmentation grows two grains: the first holds the first region and the
    whole boundary, the second holds the second region, and they share no
    pixel. *)
Lemma two_regions :
  exists g1 g2, grown self m fuel (mask, [], 1) = [g1; g2] ∧
    (forall p, R1 p ∨ B p -> p ∈ coordList g1) ∧
    (forall p, R2 p -> p ∈ coordList g2) ∧
    (forall p, p ∈ coordList g1 -> p ∉ coordList g2).
Proof.
  destruct (segment_inv self mask m fuel st Hshape Hmask Hrun) as [Hinv Hnil].
  pose proof (findGrains_while_closed self mask m fuel _ st [] HxDim HyDim
                (seg_inv_init _ _ _ Hshape Hmask) ltac:(by intros ? ?%elem_of_nil) Hrun)
    as Hclosed. simpl in Hclosed.
  destruct Hfirst as [rest E].
  (* the first grain *)
  assert (exists g1, grown self m fuel (mask, [], 1) !! 0%nat = Some g1 ∧
            head (coordList g1) = Some (0, 0) ∧
            (forall p, linked open (0, 0) p -> p ∈ coordList g1) ∧
            (forall p b, linked open (0, 0) p -> adj4 p b -> forward p b ->
               inb self b -> label mask b = Some (-1) -> b ∈ coordList g1))
    as (g1 & H0 & Hhead & Hreg & Habs).
  { clear Hinv Hnil Hclosed. pose proof Hrun as Hr. unfold segment in Hr.
    destruct fuel as [|fuel'];
      cbn [findGrains_while grown fst snd] in *; rewrite E in *; [done|].
    inv_bind Hr. rewrite Ha.
    destruct (pass_effect self m fuel' mask [] 1 0 0 rest a Hshape ltac:(lia) E Ha)
      as (cg & v & g1 & Hpg & Hfi & _).
    rewrite Hpg. simpl. exists cg. split; [done|]. split; [apply (fi_head Hfi)|].
    split.
    - intros p Hp. by eapply first_pass_region.
    - intros p b Hp Hadj Hfw Hb Hb1. by eapply first_pass_absorbs. }
  assert (Hg1 : g1 ∈ grown self m fuel (mask, [], 1)) by (by eapply list_elem_of_lookup_2).
  assert (Hopen : forall gr p, gr ∈ grown self m fuel (mask, [], 1) ->
            p ∈ coordList gr -> label mask p = Some 0 -> open p).
  { intros gr p Hgr Hp Hp0. split; [|done].
    destruct (si_grains Hinv gr Hgr) as (_ & _ & Hnn & _).
    destruct (Hnn p Hp) as (H1 & H2 & _). by eapply label_Some_inb. }
  (* its unknown pixels lie in the first region *)
  assert (Hg1R : forall p, p ∈ coordList g1 -> label mask p = Some 0 -> R1 p).
  { destruct (si_grains Hinv g1 Hg1) as (_ & _ & _ & seed & Hh & _ & Hint & _).
    rewrite Hhead in Hh. injection Hh as <-.
    assert (forall p, linked (interior mask (coordList g1)) (0, 0) p -> R1 p) as Hl.
    { induction 1 as [_|p' q _ IH Hadj [Hq Hq0]]; [done|].
      apply (HR1_closed p' q IH Hadj). by apply (Hopen g1). }
    intros p Hp Hp0. apply Hl, Hint. by split. }
  (* the grain of the second region *)
  destruct Hc2 as [[Hc2in Hc20] Hc2R].
  assert (exists g2, g2 ∈ grown self m fuel (mask, [], 1) ∧ c2 ∈ coordList g2)
    as (g2 & Hg2 & Hc2g).
  { destruct Hc2in as [Hc1 Hc2'].
    destruct (label_inb self st.1.1 c2 (si_shape Hinv) ltac:(split; lia)) as [c Hc].
    apply (seg_inv_owner self mask m st _ c2 c Hinv); [lia|lia|done| |].
    - intros ->. assert ((c2.2, c2.1) ∈ np_where_eq st.1.1 0) as Hin
        by (apply np_where_elem; split; [lia|split; [lia|done]]).
      rewrite Hnil in Hin. by apply elem_of_nil in Hin.
    - intros ->. pose proof (si_mask Hinv c2 (-1) ltac:(lia) ltac:(lia) Hc ltac:(auto)).
      congruence. }
  destruct (proj1 (list_elem_of_lookup _ _) Hg2) as [j Hj].
  assert (Hj0 : j ≠ 0%nat).
  { intros ->. rewrite H0 in Hj. injection Hj as <-. by apply Hc2R, Hg1R. }
  assert (Hreg2 : forall p, linked open c2 p -> p ∈ coordList g2 ∧ label mask p = Some 0).
  { induction 1 as [_|p' q _ [IH IH0] Hadj [Hq Hq0]]; [done|].
    split; [|done]. by apply (Hclosed g2 Hg2 p' q). }
  assert (Hdis : forall p, p ∈ coordList g1 -> p ∉ coordList g2).
  { intros p. by apply (si_disjoint Hinv 0%nat j g1 g2 H0 Hj ltac:(lia) p). }
  exists g1, g2. split; [|split; [|split; [|done]]].
  - apply (two_element_list _ g1 g2 j H0 Hj Hj0).
    intros i gr Hi.
    assert (Hgr : gr ∈ grown self m fuel (mask, [], 1)) by (by eapply list_elem_of_lookup_2).
    destruct (si_grains Hinv gr Hgr) as (_ & _ & _ & seed & Hh & Hs0 & _).
    assert (Hs : seed ∈ coordList gr).
    { destruct (coordList gr); simplify_eq/=. apply elem_of_cons. by left. }
    destruct (decide (i = 0%nat)) as [|Hi0]; [by left|right].
    destruct (decide (i = j)) as [|Hij]; [done|exfalso].
    destruct (Hcover seed (Hopen gr seed Hgr Hs Hs0)) as [HR|HR].
    + apply (si_disjoint Hinv 0%nat i g1 gr H0 Hi ltac:(lia) seed); [|done].
      by apply Hreg, HR1_linked.
    + apply (si_disjoint Hinv j i g2 gr Hj Hi ltac:(lia) seed); [|done].
      by apply Hreg2, HR2_linked.
  - intros p [Hp|Hp].
    + by apply Hreg, HR1_linked.
    + destruct (HB p Hp) as (Hin & Hb & q & Hq & Hadj & Hfw).
      apply (Habs q p); [by apply HR1_linked|done..].
  - intros p Hp. by apply Hreg2, HR2_linked.
Qed.
End TwoRegions.

(** Two blocks side by side, with a boundary column between them. *)
Lemma blocks_v_two_grains self (w1 w2 h : nat) m fuel st :
  (1 ≤ w1)%nat -> (1 ≤ w2)%nat -> (2 ≤ h)%nat ->
  xDim self = Z.of_nat w1 + 1 + Z.of_nat w2 -> yDim self = Z.of_nat h ->
  segment self (blocks_v w1 w2 h) m fuel = Ret st ->
  exists g1 g2, grown self m fuel (blocks_v w1 w2 h, [], 1) = [g1; g2] ∧
    (forall x y, 0 ≤ x ≤ Z.of_nat w1 -> 0 ≤ y < Z.of_nat h -> (x, y) ∈ coordList g1) ∧
    (forall x y, Z.of_nat w1 < x < Z.of_nat w1 + 1 + Z.of_nat w2 -> 0 ≤ y < Z.of_nat h ->
       (x, y) ∈ coordList g2) ∧
    (forall p, p ∈ coordList g1 -> p ∉ coordList g2).
Proof.
  intros Hw1 Hw2 Hh Hx Hy Hr.
  destruct (blocks_v_shape self w1 w2 h Hx Hy) as [Hsh Hm].
  assert (Hlab : forall p, inb self p ->
            label (blocks_v w1 w2 h) p = Some (if decide (p.1 = Z.of_nat w1) then -1 else 0)).
  { intros [x y] [H1 H2]. simpl in *. apply blocks_v_label; lia. }
  enough (exists g1 g2, grown self m fuel (blocks_v w1 w2 h, [], 1) = [g1; g2] ∧
            (forall p, (inb self p ∧ p.1 < Z.of_nat w1) ∨ (inb self p ∧ p.1 = Z.of_nat w1) ->
               p ∈ coordList g1) ∧
            (forall p, inb self p ∧ p.1 > Z.of_nat w1 -> p ∈ coordList g2) ∧
            (forall p, p ∈ coordList g1 -> p ∉ coordList g2))
    as (g1 & g2 & E & H1 & H2 & H3).
  { exists g1, g2. split; [done|]. split; [|split; [|done]].
    - intros x y Hxr Hyr. apply H1. unfold inb. simpl. lia.
    - intros x y Hxr Hyr. apply H2. unfold inb. simpl. lia. }
  apply (two_regions self _ m fuel st
           (fun p => inb self p ∧ p.1 < Z.of_nat w1)
           (fun p => inb self p ∧ p.1 > Z.of_nat w1)
           (fun p => inb self p ∧ p.1 = Z.of_nat w1)
           (Z.of_nat w1 + 1, 0)); try done; try lia.
  - apply blocks_v_first; lia.
  - unfold inb. simpl. lia.
  - intros [x y] [[Hxr Hyr] Hlt]. simpl in *.
    apply (linked_rectangle _ 0 0 (Z.of_nat w1) (Z.of_nat h)); [|lia..].
    intros x' y' Hx' Hy'.
    assert (inb self (x', y')) as Hin by (unfold inb; simpl; lia).
    split; [done|]. rewrite (Hlab _ Hin). simpl. by rewrite decide_False by lia.
  - intros p q [Hp Hlt] Hadj [Hq Hq0]. split; [done|].
    rewrite (Hlab _ Hq) in Hq0. case_decide; [done|].
    unfold adj4 in Hadj. lia.
  - intros [x y] [[Hxr Hyr] Hgt]. simpl in *.
    apply (linked_rectangle _ (Z.of_nat w1 + 1) 0 (Z.of_nat w2) (Z.of_nat h)); [|lia..].
    intros x' y' Hx' Hy'.
    assert (inb self (x', y')) as Hin by (unfold inb; simpl; lia).
    split; [done|]. rewrite (Hlab _ Hin). simpl. by rewrite decide_False by lia.
  - assert (inb self (Z.of_nat w1 + 1, 0)) as Hin by (unfold inb; simpl; lia).
    split; [split; [done|]|].
    + rewrite (Hlab _ Hin). simpl. by rewrite decide_False by lia.
    + simpl. lia.
  - intros p [Hp Hp0]. rewrite (Hlab _ Hp) in Hp0. case_decide; [done|].
    unfold inb in *. lia.
  - intros b [Hb Hb1]. split; [done|]. split.
    + rewrite (Hlab _ Hb). by rewrite decide_True.
    + exists (Z.of_nat w1 - 1, b.2). unfold inb, adj4, forward in *. simpl. lia.
Qed.

(** Two blocks one above the other, with a boundary row between them. *)
Lemma blocks_h_two_grains self (h1 h2 w : nat) m fuel st :
  (1 ≤ h1)%nat -> (1 ≤ h2)%nat -> (2 ≤ w)%nat ->
  xDim self = Z.of_nat w -> yDim self = Z.of_nat h1 + 1 + Z.of_nat h2 ->
  segment self (blocks_h h1 h2 w) m fuel = Ret st ->
  exists g1 g2, grown self m fuel (blocks_h h1 h2 w, [], 1) = [g1; g2] ∧
    (forall x y, 0 ≤ x < Z.of_nat w -> 0 ≤ y ≤ Z.of_nat h1 -> (x, y) ∈ coordList g1) ∧
    (forall x y, 0 ≤ x < Z.of_nat w -> Z.of_nat h1 < y < Z.of_nat h1 + 1 + Z.of_nat h2 ->
       (x, y) ∈ coordList g2) ∧
    (forall p, p ∈ coordList g1 -> p ∉ coordList g2).
Proof.
  intros Hh1 Hh2 Hw Hx Hy Hr.
  destruct (blocks_h_shape self h1 h2 w Hx Hy) as [Hsh Hm].
  assert (Hlab : forall p, inb self p ->
            label (blocks_h h1 h2 w) p = Some (if decide (p.2 = Z.of_nat h1) then -1 else 0)).
  { intros [x y] [H1 H2]. simpl in *. apply blocks_h_label; lia. }
  enough (exists g1 g2, grown self m fuel (blocks_h h1 h2 w, [], 1) = [g1; g2] ∧
            (forall p, (inb self p ∧ p.2 < Z.of_nat h1) ∨ (inb self p ∧ p.2 = Z.of_nat h1) ->
               p ∈ coordList g1) ∧
            (forall p, inb self p ∧ p.2 > Z.of_nat h1 -> p ∈ coordList g2) ∧
            (forall p, p ∈ coordList g1 -> p ∉ coordList g2))
    as (g1 & g2 & E & H1 & H2 & H3).
  { exists g1, g2. split; [done|]. split; [|split; [|done]].
    - intros x y Hxr Hyr. apply H1. unfold inb. simpl. lia.
    - intros x y Hxr Hyr. apply H2. unfold inb. simpl. lia. }
  apply (two_regions self _ m fuel st
           (fun p => inb self p ∧ p.2 < Z.of_nat h1)
           (fun p => inb self p ∧ p.2 > Z.of_nat h1)
           (fun p => inb self p ∧ p.2 = Z.of_nat h1)
           (0, Z.of_nat h1 + 1)); try done; try lia.
  - apply blocks_h_first; lia.
  - unfold inb. simpl. lia.
  - intros [x y] [[Hxr Hyr] Hlt]. simpl in *.
    apply (linked_rectangle _ 0 0 (Z.of_nat w) (Z.of_nat h1)); [|lia..].
    intros x' y' Hx' Hy'.
    assert (inb self (x', y')) as Hin by (unfold inb; simpl; lia).
    split; [done|]. rewrite (Hlab _ Hin). simpl. by rewrite decide_False by lia.
  - intros p q [Hp Hlt] Hadj [Hq Hq0]. split; [done|].
    rewrite (Hlab _ Hq) in Hq0. case_decide; [done|].
    unfold adj4 in Hadj. lia.
  - intros [x y] [[Hxr Hyr] Hgt]. simpl in *.
    apply (linked_rectangle _ 0 (Z.of_nat h1 + 1) (Z.of_nat w) (Z.of_nat h2)); [|lia..].
    intros x' y' Hx' Hy'.
    assert (inb self (x', y')) as Hin by (unfold inb; simpl; lia).
    split; [done|]. rewrite (Hlab _ Hin). simpl. by rewrite decide_False by lia.
  - assert (inb self (0, Z.of_nat h1 + 1)) as Hin by (unfold inb; simpl; lia).
    split; [split; [done|]|].
    + rewrite (Hlab _ Hin). simpl. by rewrite decide_False by lia.
    + simpl. lia.
  - intros p [Hp Hp0]. rewrite (Hlab _ Hp) in Hp0. case_decide; [done|].
    unfold inb in *. lia.
  - intros b [Hb Hb1]. split; [done|]. split.
    + rewrite (Hlab _ Hb). by rewrite decide_True.
    + exists (b.1, Z.of_nat h1 - 1). unfold inb, adj4, forward in *. simpl. lia.
Qed.

(** * The claims *)

(** C1 (code defect). A pixel claimed in the loop of [floodFill] is stored with
    the scalar field sampled at the frontier pixel (x, y) it was reached from,
    not at its own coordinates (s, t): on a 2x2 map without boundaries and
    with the field [[10, 20], [30, 40]], the grain seeded at (0, 0) holds the
    samples 10, 10, 10, 20 for the pixels (0,0), (1,0), (0,1), (1,1), whose
    own field values are 10, 20, 30, 40. *)
Theorem floodFill_sample_at_frontier_pixel :
  exists g gr,
    floodFill field_2x2 [[0; 0]; [0; 0]] 0 0 1 4 = Ret (g, Some gr) ∧
    coordList gr = [(0, 0); (1, 0); (0, 1); (1, 1)] ∧
    maxShearList gr = [10; 10; 10; 20]%float ∧
    field_sample field_2x2 (1, 0) = Ret 20%float ∧
    field_sample field_2x2 (0, 1) = Ret 30%float ∧
    field_sample field_2x2 (1, 1) = Ret 40%float ∧
    maxShearList gr !! 1%nat ≠ Some 20%float.
Proof.
  eexists _, _. split; [vm_compute; reflexivity|]. simpl.
  repeat split; try reflexivity.
  intros H. discriminate H.
Qed.

(** C2, as the code has it.  The loop has no notion of an unresolved grain.
    When it returns it has recorded one reference index per grain, and for
    every grain whose warped footprint holds no reference label above 0 this
    index is the mode of the footprint less one, in [ebsdGrainIds] and in the
    grain's [ebsdGrainId]: a negative number, and -1 when the footprint is
    all background.  The loop does return, having gone through every grain,
    when every footprint is non-empty and its labels, less one, can be read
    from [ebsdMap.grainList]. *)
Theorem link_unlabelled_footprint ebsdMap warped grainList :
  (forall gl ids,
     findGrains_link ebsdMap warped grainList = Ret (gl, ids) ->
     length ids = length grainList ∧ length gl = length grainList ∧
     forall (i : nat) footprint, (i < length grainList)%nat ->
       mask_select (ebsd_grains ebsdMap) warped (Z.of_nat i + 1) = Ret footprint ->
       Forall (fun c => c ≤ 0) footprint ->
       exists m c gr,
         footprint ≠ [] ∧ stats_mode footprint = ([m], [c]) ∧ m ∈ footprint ∧
         m - 1 < 0 ∧
         ids !! i = Some (m - 1) ∧
         gl !! i = Some gr ∧ ebsdGrainId gr = Some (m - 1) ∧
         (Forall (fun c => c = 0) footprint -> m - 1 = -1)) ∧
  ((forall j : nat, (j < length grainList)%nat ->
      exists fp, mask_select (ebsd_grains ebsdMap) warped (Z.of_nat j + 1) = Ret fp ∧
        fp ≠ [] ∧
        Forall (fun c => - Z.of_nat (ebsd_grainList ebsdMap) ≤ c - 1
                         < Z.of_nat (ebsd_grainList ebsdMap)) fp) ->
   exists gl ids, findGrains_link ebsdMap warped grainList = Ret (gl, ids)).
Proof.
  split.
  - intros gl ids Hr.
    destruct (findGrains_link_Ret _ _ _ _ Hr) as (Hlen & Hids & Hrec). simpl in *.
    split; [done|]. split; [done|]. intros i footprint Hi Hfp Hle.
    destruct (Hrec i Hi)
      as (fp & m & c & gr & pos & H1 & H2 & H3 & H4 & H5 & H6 & H7 & H8).
    rewrite Hfp in H1. injection H1 as <-.
    pose proof (proj1 (Forall_forall _ _) Hle m H3) as Hm. simpl in Hm.
    exists m, c, gr. split; [by intros ->; apply elem_of_nil in H3|].
    split; [done|]. split; [done|]. split; [lia|]. split; [done|].
    split; [done|]. split; [done|].
    intros H0. pose proof (proj1 (Forall_forall _ _) H0 m H3) as Hz. simpl in Hz. lia.
  - intros Hall.
    destruct (findGrains_link_returns ebsdMap warped grainList Hall) as [[gl ids] Hr].
    eauto.
Qed.

Lemma link_unlabelled_footprint_witness :
  exists gl ids m c gr,
    findGrains_link ebsd_demo warped_demo [Grain_init; Grain_init] = Ret (gl, ids) ∧
    length ids = 2%nat ∧
    mask_select (ebsd_grains ebsd_demo) warped_demo 1 = Ret [0; 0; 0] ∧
    stats_mode [0; 0; 0] = ([m], [c]) ∧ m - 1 = -1 ∧
    ids !! 0%nat = Some (m - 1) ∧
    gl !! 0%nat = Some gr ∧ ebsdGrainId gr = Some (m - 1).
Proof.
  destruct (link_unlabelled_footprint ebsd_demo warped_demo [Grain_init; Grain_init])
    as [Hrec Hret].
  destruct Hret as (gl & ids & Hr).
  { intros [|[|j]] Hj; [| |simpl in Hj; lia].
    + exists [0; 0; 0]. split; [reflexivity|]. split; [discriminate|].
      repeat constructor; simpl; lia.
    + exists [3; 7; 3]. split; [reflexivity|]. split; [discriminate|].
      repeat constructor; simpl; lia. }
  destruct (Hrec gl ids Hr) as (Hlen & _ & Hall).
  destruct (Hall 0%nat [0; 0; 0]) as (m & c & gr & _ & Hm & _ & _ & Hi & Hg & Hid & Hz);
    [simpl; lia|reflexivity|repeat constructor; lia|].
  exists gl, ids, m, c, gr. split; [done|]. split; [done|]. split; [reflexivity|].
  split; [done|]. split; [apply Hz; by repeat constructor|]. by split.
Defined.

(** C2, as stated, fails for either kind of footprint.  The footprint of
    the first grain of [warped_demo] lies on EBSD background only, and the
    loop returns with -1 recorded for it and nothing marked as unresolved.
    The first grain of [warped_off_map] has an empty footprint, and the loop
    ends with [IndexError] at it: no result for that grain and none for the
    second one, whose footprint lies on EBSD grains. *)
Lemma unlabelled_footprint_not_surfaced :
  (mask_select (ebsd_grains ebsd_demo) warped_demo 1 = Ret [0; 0; 0] ∧
   exists gl,
     findGrains_link ebsd_demo warped_demo [Grain_init; Grain_init]
     = Ret (gl, [-1; 2]) ∧
     ebsdGrainId <$> gl = [Some (-1); Some 2]) ∧
  (mask_select (ebsd_grains ebsd_demo) warped_off_map 1 = Ret [] ∧
   mask_select (ebsd_grains ebsd_demo) warped_off_map 2 = Ret [3; 7; 3] ∧
   findGrains_link ebsd_demo warped_off_map [Grain_init; Grain_init]
   = Raise IndexError).
Proof.
  split.
  - split; [reflexivity|]. eexists. split; [vm_compute; reflexivity|]. done.
  - split; [reflexivity|]. split; reflexivity.
Qed.

(** C9 (code defect). [setCrop] sets the cropped size to the full size less
    the margins, but [crop] slices with [-xMax] and [-yMax] as end indices, so
    a right or bottom margin of 0 gives an empty slice: on a 4x4 array with
    margins (left 1, right 0, top 1, bottom 1) the crop has two rows of width
    0 where [xDim] is 3, and with bottom margin 0 it has no row where [yDim]
    is 3. *)
Theorem crop_zero_margin_is_empty :
  xDim (setCrop (plain_map 4 4 []) 1 0 1 1) = 3 ∧
  yDim (setCrop (plain_map 4 4 []) 1 0 1 1) = 2 ∧
  crop (setCrop (plain_map 4 4 []) 1 0 1 1) grid_4x4 = [[]; []] ∧
  yDim (setCrop (plain_map 4 4 []) 1 1 1 0) = 3 ∧
  crop (setCrop (plain_map 4 4 []) 1 1 1 0) grid_4x4 = [] ∧
  crop (setCrop (plain_map 4 4 []) 1 1 1 1) grid_4x4 = [[6; 7]; [10; 11]].
Proof. repeat split; reflexivity. Qed.

(** C4. After segmentation of a boundary mask of the map's shape the label
    grid still has that shape, and every pixel holds a positive grain label,
    -1 or -2, and none holds 0; a positive label is at most the number of
    grains of the registry, and the pixel that carries the label [c] is a
    pixel of the grain [c - 1] of the registry.  On a mask at least two
    pixels wide and high under a field that covers it the segmentation does
    return. *)
Theorem segment_leaves_no_unknown self mask m :
  shape_ok self mask -> is_mask mask ->
  (forall fuel st, segment self mask m fuel = Ret st ->
     shape_ok self st.1.1 ∧
     Forall (Forall (fun c => 1 ≤ c ≤ Z.of_nat (length st.1.2) ∨ c = -1 ∨ c = -2))
            st.1.1 ∧
     forall p, inb self p ->
       exists c, label st.1.1 p = Some c ∧
         ((1 ≤ c ≤ Z.of_nat (length st.1.2) ∧
           exists gr, st.1.2 !! Z.to_nat (c - 1) = Some gr ∧ p ∈ coordList gr)
          ∨ c = -1 ∨ c = -2)) ∧
  (field_ok self -> 2 ≤ xDim self -> 2 ≤ yDim self ->
   forall fuel, (unknown mask < fuel)%nat ->
     exists st, segment self mask m fuel = Ret st).
Proof.
  intros Hsh Hm. split.
  - intros fuel st Hr. destruct (segment_inv _ _ _ _ _ Hsh Hm Hr) as [Hinv Hnil].
    assert (forall p c, 0 ≤ p.1 -> 0 ≤ p.2 -> label st.1.1 p = Some c ->
              1 ≤ c ≤ Z.of_nat (length st.1.2) ∨ c = -1 ∨ c = -2) as Hval.
    { intros p c H1 H2 Hl. pose proof (si_index Hinv) as Hidx.
      destruct (si_values Hinv p c H1 H2 Hl) as [->|[->|[->|?]]]; [|auto|auto|lia].
      exfalso.
      assert ((p.2, p.1) ∈ np_where_eq st.1.1 0) as Hin by (by apply np_where_elem).
      rewrite Hnil in Hin. by apply elem_of_nil in Hin. }
    split; [apply (si_shape Hinv)|]. split; [by apply Forall_labels|].
    intros p Hp. destruct (label_inb self st.1.1 p (si_shape Hinv) Hp) as [c Hc].
    assert (0 ≤ p.1 ∧ 0 ≤ p.2) as [H1 H2] by (destruct Hp; lia).
    exists c. split; [done|].
    destruct (Hval p c H1 H2 Hc) as [Hpos|Hneg]; [left|by right].
    split; [done|].
    destruct (lookup_lt_is_Some_2 st.1.2 (Z.to_nat (c - 1))) as [gr Hgr]; [lia|].
    exists gr. split; [done|]. apply (si_registry Hinv _ gr Hgr p H1 H2).
    rewrite Hc. f_equal. lia.
  - intros Hf Hx Hy fuel Hfuel. by apply segment_returns.
Qed.

Lemma segment_leaves_no_unknown_witness :
  exists st, segment pocket_map pocket_mask 4 9 = Ret st ∧
    st.1.1 = [[1; 1; 1; 1; -2]; [1; 1; 1; 1; -2]; [1; 1; 1; 1; -2]] ∧
    length st.1.2 = 1%nat ∧
    shape_ok pocket_map st.1.1 ∧
    Forall (Forall (fun c => 1 ≤ c ≤ Z.of_nat (length st.1.2) ∨ c = -1 ∨ c = -2))
           st.1.1.
Proof.
  assert (exists st, segment pocket_map pocket_mask 4 9 = Ret st) as [st Hr]
    by (eexists; vm_compute; reflexivity).
  exists st. split; [done|].
  assert (Ret st = segment pocket_map pocket_mask 4 9) as E by done.
  split; [vm_compute in E; by injection E as ->|].
  split; [vm_compute in E; by injection E as ->|].
  destruct (proj1 (segment_leaves_no_unknown pocket_map pocket_mask 4
                     ltac:(unfold shape_ok; compute_done)
                     ltac:(unfold is_mask; compute_done)) 9%nat st Hr)
    as (Hsh & Hall & _).
  by split.
Defined.

(** C5. After segmentation the positive labels in the grid are exactly
    1..N for the N grains of the registry; the pixels labelled k are the
    pixels of the grain at index k-1; the label counter ends at N+1; the
    registry is the grains grown less the undersized ones, whose pixels all
    carry -2; and a pass whose grain is undersized leaves the registry and the
    label counter as they were, while any other pass appends its grain and
    adds one to the counter. *)
Theorem labels_are_contiguous self mask m fuel g gl k :
  shape_ok self mask -> is_mask mask ->
  segment self mask m fuel = Ret (g, gl, k) ->
  (forall c, 0 < c ->
     ((exists row, row ∈ g ∧ c ∈ row) <-> 1 ≤ c ≤ Z.of_nat (length gl))) ∧
  (forall (i : nat) gr, gl !! i = Some gr ->
     forall p, 0 ≤ p.1 -> 0 ≤ p.2 ->
       (label g p = Some (Z.of_nat i + 1) <-> p ∈ coordList gr)) ∧
  k = Z.of_nat (length gl) + 1 ∧
  gl = filter (fun gr => m ≤ len gr) (grown self m fuel (mask, [], 1)) ∧
  (forall gr, gr ∈ discarded self m fuel (mask, [], 1) ->
     (gr ∉ gl) ∧ forall p, p ∈ coordList gr -> label g p = Some (-2)) ∧
  (forall fuel' row col g0 gl0 k0 st' cg,
     findGrains_pass self m fuel' row col (g0, gl0, k0) = Ret st' ->
     pass_grain self fuel' row col (g0, gl0, k0) = Some cg ->
     (len cg < m -> st'.1.2 = gl0 ∧ st'.2 = k0) ∧
     (m ≤ len cg -> st'.1.2 = gl0 ++ [cg] ∧ st'.2 = k0 + 1)).
Proof.
  intros Hsh Hm Hr. destruct (segment_inv _ _ _ _ _ Hsh Hm Hr) as [Hinv Hnil].
  pose proof (si_index Hinv) as Hidx. pose proof (si_kept Hinv) as Hkept. simpl in *.
  split; [|split; [|split; [|split; [|split]]]].
  - intros c Hc. split.
    + intros (row & Hrow & Hin).
      destruct (occurs_label g row c Hrow Hin) as (p & H1 & H2 & Hl).
      pose proof (si_values Hinv p c H1 H2 Hl) as Hv. simpl in Hv. lia.
    + intros Hrange.
      destruct (lookup_lt_is_Some_2 gl (Z.to_nat (c - 1))) as [gr Hgr]; [lia|].
      assert (gr ∈ grown self m fuel (mask, [], 1)) as Hgrown.
      { apply list_elem_of_lookup_2 in Hgr. rewrite Hkept in Hgr.
        by apply list_elem_of_filter in Hgr as [_ ?]. }
      destruct (grain_ok_seed mask gr (si_grains Hinv gr Hgrown)) as (seed & Hin & H1 & H2).
      apply (label_occurs g seed c H1 H2).
      replace c with (Z.of_nat (Z.to_nat (c - 1)) + 1) by lia.
      by apply (si_registry Hinv _ gr Hgr).
  - apply (si_registry Hinv).
  - done.
  - done.
  - intros gr [Hlt Hgr]%list_elem_of_filter. split.
    + rewrite Hkept. intros [Hge _]%list_elem_of_filter. lia.
    + intros p Hp. destruct (si_grains Hinv gr Hgr) as (_ & _ & Hnn & _).
      destruct (Hnn p Hp) as (H1 & H2 & _).
      apply (si_purged Hinv p H1 H2). eauto.
  - intros fuel' row col g0 gl0 k0 st' cg Hp Hpg.
    unfold findGrains_pass in Hp. unfold pass_grain in Hpg. simpl in Hpg.
    destruct (floodFill self g0 col row k0 fuel') as [[g1 [cg'|]]| |]; simplify_eq/=.
    case_bool_decide.
    + inv_bind Hp. inv_ret. simpl. split; [done|lia].
    + inv_ret. simpl. split; [lia|done].
Qed.

Lemma labels_are_contiguous_witness :
  exists g gl k, segment pocket_map pocket_mask 4 9 = Ret (g, gl, k) ∧
    (forall c, 0 < c ->
       ((exists row, row ∈ g ∧ c ∈ row) <-> 1 ≤ c ≤ Z.of_nat (length gl))) ∧
    k = Z.of_nat (length gl) + 1 ∧ length gl = 1%nat.
Proof.
  eexists _, _, _. split; [vm_compute; reflexivity|].
  split; [|split; [|reflexivity]].
  - refine (proj1 (labels_are_contiguous pocket_map pocket_mask 4 9 _ _ _ _ _ _)).
    + unfold shape_ok. compute_done.
    + unfold is_mask. compute_done.
    + vm_compute; reflexivity.
  - reflexivity.
Defined.

(** C6. Every grain of the registry has at least [minGrainSize] pixels and
    every discarded grain has fewer; the pixels labelled -2 are exactly the
    pixels of the discarded grains; and the size that is compared is the
    whole coordinate list, the unknown pixels of the mask together with the
    absorbed boundary pixels. *)
Theorem size_floor self mask m fuel g gl k :
  shape_ok self mask -> is_mask mask ->
  segment self mask m fuel = Ret (g, gl, k) ->
  Forall (fun gr => m ≤ len gr) gl ∧
  Forall (fun gr => len gr < m) (discarded self m fuel (mask, [], 1)) ∧
  (forall p, 0 ≤ p.1 -> 0 ≤ p.2 ->
     (label g p = Some (-2) <->
      exists gr, gr ∈ discarded self m fuel (mask, [], 1) ∧ p ∈ coordList gr)) ∧
  (forall gr, gr ∈ grown self m fuel (mask, [], 1) ->
     len gr = Z.of_nat (length (filter (fun p => label mask p = Some 0) (coordList gr)))
              + Z.of_nat (length (filter (fun p => label mask p = Some (-1))
                                         (coordList gr)))).
Proof.
  intros Hsh Hm Hr. destruct (segment_inv _ _ _ _ _ Hsh Hm Hr) as [Hinv Hnil].
  pose proof (si_kept Hinv) as Hkept. simpl in *.
  split; [|split; [|split]].
  - rewrite Hkept. apply Forall_forall. by intros gr [? _]%list_elem_of_filter.
  - apply Forall_forall. by intros gr [? _]%list_elem_of_filter.
  - intros p H1 H2. rewrite (si_purged Hinv p H1 H2). simpl. split.
    + intros (gr & Hgr & Hlt & Hp). exists gr. split; [|done].
      by apply list_elem_of_filter.
    + intros (gr & [Hlt Hgr]%list_elem_of_filter & Hp). eauto.
  - intros gr Hgr. destruct (si_grains Hinv gr Hgr) as (_ & _ & Hnn & _).
    unfold len. rewrite <- Nat2Z.inj_add. f_equal.
    apply filter_split_length. intros p Hp.
    destruct (Hnn p Hp) as (_ & _ & [H0|H1]); [left|right]; split; congruence.
Qed.

Lemma size_floor_witness :
  exists g gl k, segment pocket_map pocket_mask 4 9 = Ret (g, gl, k) ∧
    Forall (fun gr => 4 ≤ len gr) gl ∧
    Forall (fun gr => len gr < 4) (discarded pocket_map 4 9 (pocket_mask, [], 1)) ∧
    (len <$> discarded pocket_map 4 9 (pocket_mask, [], 1)) = [3] ∧
    (label g (4, 2) = Some (-2) <->
     exists gr, gr ∈ discarded pocket_map 4 9 (pocket_mask, [], 1) ∧
                (4, 2) ∈ coordList gr).
Proof.
  eexists _, _, _. split; [vm_compute; reflexivity|].
  destruct (size_floor pocket_map pocket_mask 4 9 _ _ _
              ltac:(unfold shape_ok; compute_done) ltac:(unfold is_mask; compute_done)
              ltac:(vm_compute; reflexivity)) as (H1 & H2 & H3 & _).
  split; [exact H1|]. split; [exact H2|]. split; [reflexivity|].
  apply (H3 (4, 2)); simpl; lia.
Defined.

(** C7. The segmentation loop ends within [unknown mask + 1] passes,
    returning or raising: a pass that returns leaves strictly fewer unknown
    points, because a flood fill that returns has claimed at least its seed
    and no labelled pixel becomes unknown again.  A mask without unknown
    point returns at once with an empty registry, and on a mask at least two
    pixels wide and high the loop returns with no unknown point left. *)
Theorem segmentation_terminates self mask m :
  (forall fuel, (unknown mask < fuel)%nat -> segment self mask m fuel ≠ Diverge) ∧
  (forall fuel row col rest g gl k st', 1 ≤ k ->
     np_where_eq g 0 = (row, col) :: rest ->
     findGrains_pass self m fuel row col (g, gl, k) = Ret st' ->
     (unknown st'.1.1 < unknown g)%nat ∧ 1 ≤ st'.2) ∧
  (forall fuel g x y k g' r, k ≠ 0 -> label g (x, y) = Some 0 ->
     floodFill self g x y k fuel = Ret (g', r) -> (unknown g' < unknown g)%nat) ∧
  (forall fuel row col rest g gl k st' p c, 1 ≤ k -> shape_ok self g ->
     np_where_eq g 0 = (row, col) :: rest ->
     findGrains_pass self m fuel row col (g, gl, k) = Ret st' ->
     0 ≤ p.1 -> 0 ≤ p.2 -> label g p = Some c -> c ≠ 0 ->
     exists c', label st'.1.1 p = Some c' ∧ c' ≠ 0) ∧
  (np_where_eq mask 0 = [] ->
   forall fuel, segment self mask m fuel = Ret (mask, [], 1)) ∧
  (shape_ok self mask -> is_mask mask -> field_ok self ->
   2 ≤ xDim self -> 2 ≤ yDim self ->
   forall fuel, (unknown mask < fuel)%nat ->
     exists st, segment self mask m fuel = Ret st ∧ np_where_eq st.1.1 0 = []).
Proof.
  split; [|split; [|split; [|split; [|split]]]].
  - intros fuel Hf. by apply findGrains_while_not_Diverge.
  - intros fuel row col rest g gl k [[g' gl'] k'] Hk E Hp.
    by eapply findGrains_pass_unknown.
  - intros fuel g x y k g' r Hk Hl Hr. by eapply floodFill_unknown.
  - intros fuel row col rest g gl k st' p c Hk Hsh E Hp H1 H2 Hl Hc.
    destruct (pass_effect self m fuel g gl k row col rest st' Hsh Hk E Hp)
      as (cg & v & g1 & _ & _ & _ & _ & Hlab & Hcase).
    rewrite Hlab by done. destruct (decide (p ∈ coordList cg)).
    + exists v. split; [done|]. destruct Hcase as [(_ & -> & _)|(_ & -> & _)]; lia.
    + eauto.
  - intros Hnil fuel. unfold segment. destruct fuel; simpl; by rewrite Hnil.
  - intros Hsh Hm Hf Hx Hy fuel Hfuel.
    destruct (segment_returns self mask m fuel Hf Hx Hy Hsh Hm Hfuel) as [st Hr].
    exists st. split; [done|]. by destruct (segment_inv _ _ _ _ _ Hsh Hm Hr).
Qed.

(** C10. A visited pixel joins the next frontier only if it was unknown.
    A visited boundary pixel (label -1) that lies forward of the frontier
    pixel is appended to the grain and relabelled, and the frontier stays as
    it is; one that does not lie forward is left alone.  So an absorbed
    boundary pixel is recorded in its grain and never expanded.  Hence, after
    segmentation, a boundary pixel of the mask has lost its -1 exactly when
    it lies in a grain that was grown, and in every such grain each pixel is
    unknown or boundary in the mask, each unknown pixel is 4-connected to the
    grain's first pixel, its seed, through unknown pixels of the grain, and
    each boundary pixel is 4-adjacent to an unknown pixel of the grain.  The
    grains of the registry are among the grains grown. *)
Theorem fill_stops_at_boundary :
  (forall self k x y g cg ne s t st',
     visit self k x y (g, cg, ne) (s, t) = Ret st' ->
     (st'.2 = ne ∨ (st'.2 = ne ++ [(s, t)] ∧ label g (s, t) = Some 0)) ∧
     (label g (s, t) = Some (-1) -> s > x ∨ t > y ->
      coordList st'.1.2 = coordList cg ++ [(s, t)] ∧
      length (maxShearList st'.1.2) = S (length (maxShearList cg)) ∧
      setitem g t s k = Ret st'.1.1 ∧ st'.2 = ne) ∧
     (label g (s, t) = Some (-1) -> ¬ (s > x ∨ t > y) -> st' = (g, cg, ne))) ∧
  (forall self mask m fuel st,
     shape_ok self mask -> is_mask mask ->
     segment self mask m fuel = Ret st ->
     (forall gr, gr ∈ st.1.2 -> gr ∈ grown self m fuel (mask, [], 1)) ∧
     (forall p, inb self p -> label mask p = Some (-1) ->
        (label st.1.1 p ≠ Some (-1) <->
         exists gr, gr ∈ grown self m fuel (mask, [], 1) ∧ p ∈ coordList gr)) ∧
     forall gr, gr ∈ grown self m fuel (mask, [], 1) ->
       (forall p, p ∈ coordList gr ->
          label mask p = Some 0 ∨ label mask p = Some (-1)) ∧
       exists seed, head (coordList gr) = Some seed ∧ label mask seed = Some 0 ∧
         (forall p, p ∈ coordList gr -> label mask p = Some 0 ->
            linked (fun q => q ∈ coordList gr ∧ label mask q = Some 0) seed p) ∧
         (forall p, p ∈ coordList gr -> label mask p = Some (-1) ->
            exists q, q ∈ coordList gr ∧ label mask q = Some 0 ∧ adj4 q p)).
Proof.
  split.
  - intros self k x y g cg ne s t [[g' cg'] ne'] (lab & Hl & Hcase)%visit_Ret. simpl.
    split; [|split].
    + destruct Hcase as [(-> & _ & -> & _)|[(_ & _ & _ & -> & _)|(_ & _ & _ & _ & ->)]];
        auto.
    + intros Hb Hfw. rewrite Hb in Hl. injection Hl as <-.
      destruct Hcase as [(? & _)|[(_ & _ & Hset & -> & ms & _ & ->)|(_ & Hn & _)]];
        [done| |tauto].
      simpl. by rewrite length_app, Nat.add_1_r.
    + intros Hb Hfw. rewrite Hb in Hl. injection Hl as <-.
      destruct Hcase as [(? & _)|[(_ & ? & _)|(_ & _ & -> & -> & ->)]]; done.
  - intros self mask m fuel st Hsh Hm Hr.
    destruct (segment_inv _ _ _ _ _ Hsh Hm Hr) as [Hinv Hnil]. split; [|split].
    + intros gr Hgr. rewrite (si_kept Hinv) in Hgr.
      by apply list_elem_of_filter in Hgr as [_ ?].
    + intros p Hp Hb. assert (0 ≤ p.1 ∧ 0 ≤ p.2) as [H1 H2] by (destruct Hp; lia).
      destruct (label_inb self st.1.1 p (si_shape Hinv) Hp) as [c Hc]. split.
      * intros Hne. apply (seg_inv_owner self mask m st _ p c Hinv H1 H2 Hc).
        -- intros ->.
           assert ((p.2, p.1) ∈ np_where_eq st.1.1 0) as Hin by (by apply np_where_elem).
           rewrite Hnil in Hin. by apply elem_of_nil in Hin.
        -- intros ->. done.
      * intros (gr & Hgr & Hin).
        destruct (seg_inv_claimed self mask m st _ gr p Hinv Hgr Hin)
          as (_ & _ & c' & Hc' & _ & Hne).
        congruence.
    + intros gr Hgr.
      destruct (si_grains Hinv gr Hgr) as (_ & _ & Hnn & seed & Hh & Hs & Hint & Habs).
      split; [intros p Hp; by destruct (Hnn p Hp) as (_ & _ & ?)|].
      exists seed. split; [done|]. split; [done|]. split.
      * intros p Hp H0. by apply Hint.
      * intros p Hp H1. destruct (Habs p Hp H1) as (q & [Hq Hq0] & Hadj). eauto.
Qed.

Lemma fill_stops_at_boundary_witness :
  (exists st', visit pocket_map 1 2 0 (pocket_mask, Grain_init, []) (3, 0) = Ret st' ∧
     label pocket_mask (3, 0) = Some (-1) ∧
     coordList st'.1.2 = [(3, 0)] ∧ st'.2 = [] ∧ label st'.1.1 (3, 0) = Some 1) ∧
  exists st, segment pocket_map pocket_mask 4 9 = Ret st ∧
    label pocket_mask (3, 1) = Some (-1) ∧ label st.1.1 (3, 1) = Some 1 ∧
    (exists gr, gr ∈ grown pocket_map 4 9 (pocket_mask, [], 1) ∧ (3, 1) ∈ coordList gr) ∧
    forall gr, gr ∈ st.1.2 ->
      forall p, p ∈ coordList gr -> label pocket_mask p = Some (-1) ->
        exists q, q ∈ coordList gr ∧ label pocket_mask q = Some 0 ∧ adj4 q p.
Proof.
  destruct fill_stops_at_boundary as [Hvisit Hseg]. split.
  - assert (exists st', visit pocket_map 1 2 0 (pocket_mask, Grain_init, []) (3, 0)
                        = Ret st') as [st' Hv] by (eexists; vm_compute; reflexivity).
    exists st'. split; [done|]. split; [reflexivity|].
    destruct (Hvisit pocket_map 1 2 0 pocket_mask Grain_init [] 3 0 st' Hv)
      as (_ & Habs & _).
    destruct Habs as (Hc & _ & Hset & Hne); [reflexivity|lia|].
    split; [done|]. split; [done|].
    assert (Ret st' = visit pocket_map 1 2 0 (pocket_mask, Grain_init, []) (3, 0))
      as E by done.
    vm_compute in E. by injection E as ->.
  - assert (exists st, segment pocket_map pocket_mask 4 9 = Ret st) as [st Hr]
      by (eexists; vm_compute; reflexivity).
    exists st. split; [done|]. split; [reflexivity|].
    destruct (Hseg pocket_map pocket_mask 4 9%nat st
                ltac:(unfold shape_ok; compute_done) ltac:(unfold is_mask; compute_done)
                Hr) as (Hsub & Habsorbed & Hall).
    assert (label st.1.1 (3, 1) = Some 1) as Hl.
    { assert (Ret st = segment pocket_map pocket_mask 4 9) as E by done.
      vm_compute in E. by injection E as ->. }
    split; [done|]. split.
    + apply (Habsorbed (3, 1)); [unfold inb; simpl; lia|reflexivity|].
      rewrite Hl. discriminate.
    + intros gr Hgr. destruct (Hall gr (Hsub gr Hgr)) as (_ & seed & _ & _ & _ & Habs).
      exact Habs.
Defined.

(** On a mask one pixel wide the first flood fill reads a neighbour outside
    the grid: segmentation ends by the exception. *)
Example segment_single_pixel_raises :
  segment (plain_map 1 1 [[0.5]]%float) [[0]] 10 5 = Raise IndexError.
Proof. reflexivity. Qed.

(** C3. A neighbour (s, t) labelled -1 of the frontier pixel (x, y) is
    appended to the growing grain exactly when [s > x or t > y], and is left
    untouched otherwise.  Consequently, on two blocks of unknown pixels
    separated by a boundary column (blocks [w1] and [w2] wide, [h] high) or by
    a boundary row (blocks [h1] and [h2] high, [w] wide), segmentation returns
    and grows exactly two grains: the first holds the first block, the second
    holds the second block, and every pixel of the boundary line lies in the
    first grain and not in the second. *)
Theorem boundary_absorbed_forward_only :
  (forall self k x y g cg ne s t st',
     label g (s, t) = Some (-1) ->
     visit self k x y (g, cg, ne) (s, t) = Ret st' ->
     (coordList st'.1.2 = coordList cg ++ [(s, t)] <-> (s > x ∨ t > y)) ∧
     ((s > x ∨ t > y) -> setitem g t s k = Ret st'.1.1) ∧
     (¬ (s > x ∨ t > y) -> st' = (g, cg, ne))) ∧
  (forall self (w1 w2 h : nat) m fuel,
     (1 ≤ w1)%nat -> (1 ≤ w2)%nat -> (2 ≤ h)%nat ->
     xDim self = Z.of_nat w1 + 1 + Z.of_nat w2 -> yDim self = Z.of_nat h ->
     field_ok self -> (unknown (blocks_v w1 w2 h) < fuel)%nat ->
     exists st g1 g2, segment self (blocks_v w1 w2 h) m fuel = Ret st ∧
       grown self m fuel (blocks_v w1 w2 h, [], 1) = [g1; g2] ∧
       (forall x y, 0 ≤ x < Z.of_nat w1 -> 0 ≤ y < Z.of_nat h ->
          (x, y) ∈ coordList g1) ∧
       (forall x y, Z.of_nat w1 < x < Z.of_nat w1 + 1 + Z.of_nat w2 ->
          0 ≤ y < Z.of_nat h -> (x, y) ∈ coordList g2) ∧
       (forall y, 0 ≤ y < Z.of_nat h ->
          (Z.of_nat w1, y) ∈ coordList g1 ∧ (Z.of_nat w1, y) ∉ coordList g2)) ∧
  (forall self (h1 h2 w : nat) m fuel,
     (1 ≤ h1)%nat -> (1 ≤ h2)%nat -> (2 ≤ w)%nat ->
     xDim self = Z.of_nat w -> yDim self = Z.of_nat h1 + 1 + Z.of_nat h2 ->
     field_ok self -> (unknown (blocks_h h1 h2 w) < fuel)%nat ->
     exists st g1 g2, segment self (blocks_h h1 h2 w) m fuel = Ret st ∧
       grown self m fuel (blocks_h h1 h2 w, [], 1) = [g1; g2] ∧
       (forall x y, 0 ≤ x < Z.of_nat w -> 0 ≤ y < Z.of_nat h1 ->
          (x, y) ∈ coordList g1) ∧
       (forall x y, 0 ≤ x < Z.of_nat w ->
          Z.of_nat h1 < y < Z.of_nat h1 + 1 + Z.of_nat h2 -> (x, y) ∈ coordList g2) ∧
       (forall x, 0 ≤ x < Z.of_nat w ->
          (x, Z.of_nat h1) ∈ coordList g1 ∧ (x, Z.of_nat h1) ∉ coordList g2)).
Proof.
  split; [|split].
  - intros self k x y g cg ne s t [[g' cg'] ne'] Hb (lab & Hl & Hcase)%visit_Ret.
    rewrite Hb in Hl. injection Hl as <-. simpl.
    destruct Hcase as [(? & _)|[(_ & Hfw & Hset & -> & ms & _ & ->)|
                                 (_ & Hnfw & -> & -> & ->)]]; [done| |].
    + split; [|split]; [by split| done | done].
    + split; [|split].
      * split; [|tauto]. intros E. apply (f_equal length) in E.
        rewrite length_app in E. simpl in E. lia.
      * tauto.
      * done.
  - intros self w1 w2 h m fuel Hw1 Hw2 Hh Hx Hy Hf Hfuel.
    destruct (blocks_v_shape self w1 w2 h Hx Hy) as [Hsh Hm].
    destruct (segment_returns self _ m fuel Hf ltac:(lia) ltac:(lia) Hsh Hm Hfuel)
      as [st Hr].
    destruct (blocks_v_two_grains self w1 w2 h m fuel st Hw1 Hw2 Hh Hx Hy Hr)
      as (g1 & g2 & E & H1 & H2 & H3).
    exists st, g1, g2. split; [done|]. split; [done|]. split; [|split; [done|]].
    + intros x y Hxr Hyr. apply H1; lia.
    + intros y Hyr. assert ((Z.of_nat w1, y) ∈ coordList g1) by (apply H1; lia).
      split; [done|]. by apply H3.
  - intros self h1 h2 w m fuel Hh1 Hh2 Hw Hx Hy Hf Hfuel.
    destruct (blocks_h_shape self h1 h2 w Hx Hy) as [Hsh Hm].
    destruct (segment_returns self _ m fuel Hf ltac:(lia) ltac:(lia) Hsh Hm Hfuel)
      as [st Hr].
    destruct (blocks_h_two_grains self h1 h2 w m fuel st Hh1 Hh2 Hw Hx Hy Hr)
      as (g1 & g2 & E & H1 & H2 & H3).
    exists st, g1, g2. split; [done|]. split; [done|]. split; [|split; [done|]].
    + intros x y Hxr Hyr. apply H1; lia.
    + intros x Hxr. assert ((x, Z.of_nat h1) ∈ coordList g1) by (apply H1; lia).
      split; [done|]. by apply H3.
Qed.

Lemma boundary_absorbed_forward_only_witness :
  (exists st g1 g2, segment blocks_v_map (blocks_v 5 5 5) 10 51 = Ret st ∧
     st.1.2 = [g1; g2] ∧ len g1 = 30 ∧ len g2 = 25 ∧
     grown blocks_v_map 10 51 (blocks_v 5 5 5, [], 1) = [g1; g2] ∧
     (forall x y, 0 ≤ x < 5 -> 0 ≤ y < 5 -> (x, y) ∈ coordList g1) ∧
     (forall x y, 5 < x < 11 -> 0 ≤ y < 5 -> (x, y) ∈ coordList g2) ∧
     (forall y, 0 ≤ y < 5 -> (5, y) ∈ coordList g1 ∧ (5, y) ∉ coordList g2)) ∧
  (exists st g1 g2, segment blocks_h_map (blocks_h 5 5 5) 10 51 = Ret st ∧
     st.1.2 = [g1; g2] ∧ len g1 = 30 ∧ len g2 = 25 ∧
     grown blocks_h_map 10 51 (blocks_h 5 5 5, [], 1) = [g1; g2] ∧
     (forall x y, 0 ≤ x < 5 -> 0 ≤ y < 5 -> (x, y) ∈ coordList g1) ∧
     (forall x y, 0 ≤ x < 5 -> 5 < y < 11 -> (x, y) ∈ coordList g2) ∧
     (forall x, 0 ≤ x < 5 -> (x, 5) ∈ coordList g1 ∧ (x, 5) ∉ coordList g2)).
Proof.
  destruct boundary_absorbed_forward_only as (_ & Hv & Hh). split.
  - destruct (Hv blocks_v_map 5%nat 5%nat 5%nat 10 51%nat)
      as (st & g1 & g2 & Hr & Hg & Hall);
      [lia|lia|lia|reflexivity|reflexivity|unfold field_ok; compute_done|
       vm_compute; lia|].
    exists st, g1, g2. split; [done|].
    assert (Ret st = segment blocks_v_map (blocks_v 5 5 5) 10 51) as E by done.
    assert ([g1; g2] = grown blocks_v_map 10 51 (blocks_v 5 5 5, [], 1)) as E' by done.
    vm_compute in E, E'. injection E as ->. injection E' as -> ->.
    split; [reflexivity|]. split; [reflexivity|]. split; [reflexivity|]. by split.
  - destruct (Hh blocks_h_map 5%nat 5%nat 5%nat 10 51%nat)
      as (st & g1 & g2 & Hr & Hg & Hall);
      [lia|lia|lia|reflexivity|reflexivity|unfold field_ok; compute_done|
       vm_compute; lia|].
    exists st, g1, g2. split; [done|].
    assert (Ret st = segment blocks_h_map (blocks_h 5 5 5) 10 51) as E by done.
    assert ([g1; g2] = grown blocks_h_map 10 51 (blocks_h 5 5 5, [], 1)) as E' by done.
    vm_compute in E, E'. injection E as ->. injection E' as -> ->.
    split; [reflexivity|]. split; [reflexivity|]. split; [reflexivity|]. by split.
Defined.

(** * Further properties *)

(** X1. No pixel lies in two of the grains grown by one segmentation. *)
Theorem grown_disjoint self mask m fuel st (i j : nat) gr gr' p :
  shape_ok self mask -> is_mask mask ->
  segment self mask m fuel = Ret st ->
  grown self m fuel (mask, [], 1) !! i = Some gr ->
  grown self m fuel (mask, [], 1) !! j = Some gr' ->
  p ∈ coordList gr -> p ∈ coordList gr' -> i = j.
Proof.
  intros Hsh Hm Hr Hi Hj Hp Hp'.
  destruct (segment_inv _ _ _ _ _ Hsh Hm Hr) as [Hinv _].
  destruct (decide (i = j)) as [|Hne]; [done|exfalso].
  by apply (si_disjoint Hinv i j gr gr' Hi Hj Hne p).
Qed.

Lemma grown_disjoint_witness :
  exists gr, grown pocket_map 4 9 (pocket_mask, [], 1) !! 0%nat = Some gr ∧
    (0, 0) ∈ coordList gr ∧ 0%nat = 0%nat.
Proof.
  eexists. split; [vm_compute; reflexivity|]. split; [apply elem_of_cons; by left|].
  eapply (grown_disjoint pocket_map pocket_mask 4 9 _ 0 0 _ _ (0, 0)).
  - unfold shape_ok. compute_done.
  - unfold is_mask. compute_done.
  - vm_compute; reflexivity.
  - vm_compute; reflexivity.
  - vm_compute; reflexivity.
  - apply elem_of_cons; by left.
  - apply elem_of_cons; by left.
Defined.

(** X2. The unknown pixels of a grain are exactly the unknown pixels of the
    mask that are 4-connected to its seed through unknown pixels. *)
Theorem grains_are_maximal_regions self mask m fuel st gr seed p :
  shape_ok self mask -> is_mask mask -> 2 ≤ xDim self -> 2 ≤ yDim self ->
  segment self mask m fuel = Ret st ->
  gr ∈ grown self m fuel (mask, [], 1) -> head (coordList gr) = Some seed ->
  (p ∈ coordList gr ∧ label mask p = Some 0 <->
   linked (fun q => inb self q ∧ label mask q = Some 0) seed p).
Proof.
  intros Hsh Hm Hx Hy Hr Hgr Hhead.
  destruct (segment_inv _ _ _ _ _ Hsh Hm Hr) as [Hinv _].
  pose proof (findGrains_while_closed self mask m fuel _ st [] Hx Hy
                (seg_inv_init _ _ _ Hsh Hm) ltac:(by intros ? ?%elem_of_nil) Hr gr Hgr)
    as Hcl.
  destruct (si_grains Hinv gr Hgr) as (_ & _ & Hnn & seed' & Hh & Hs0 & Hint & _).
  rewrite Hhead in Hh. injection Hh as <-.
  split.
  - intros [Hp H0]. eapply linked_mono; [|by apply Hint].
    intros q [Hq Hq0]. split; [|done]. destruct (Hnn q Hq) as (H1 & H2 & _).
    by eapply label_Some_inb.
  - induction 1 as [[Hs Hs0']|p q _ IH Hadj [Hq Hq0]].
    + split; [|done]. destruct (coordList gr); simplify_eq/=. apply elem_of_cons. by left.
    + destruct IH as [Hp Hp0]. split; [|done]. by apply (Hcl p q).
Qed.

Lemma grains_are_maximal_regions_witness :
  exists gr, grown pocket_map 4 9 (pocket_mask, [], 1) !! 0%nat = Some gr ∧
    ((1, 1) ∈ coordList gr ∧ label pocket_mask (1, 1) = Some 0 <->
     linked (fun q => inb pocket_map q ∧ label pocket_mask q = Some 0) (0, 0) (1, 1)).
Proof.
  eexists. split; [vm_compute; reflexivity|].
  eapply (grains_are_maximal_regions pocket_map pocket_mask 4 9).
  - unfold shape_ok. compute_done.
  - unfold is_mask. compute_done.
  - vm_compute; discriminate.
  - vm_compute; discriminate.
  - vm_compute; reflexivity.
  - apply elem_of_cons; by left.
  - reflexivity.
Defined.

(** X3. The mode of a non-empty array is one of its values, no value occurs
    more often, and among the values that occur as often it is the
    smallest. *)
Theorem stats_mode_smallest (a : list Z) :
  a ≠ [] ->
  exists m c, stats_mode a = ([m], [c]) ∧ m ∈ a ∧ c = count_of m a ∧
    (forall s, s ∈ a -> count_of s a ≤ c) ∧
    (forall s, s ∈ a -> count_of s a = c -> m ≤ s).
Proof.
  intros Hne. destruct (stats_mode_elem a Hne) as (m & c & Hm & Hin).
  exists m, c. split; [done|]. split; [done|].
  destruct (stats_mode_max a m c Hm) as [Hc Hmax]. split; [done|]. split; [done|].
  destruct a as [|v a]; [done|]. unfold stats_mode in Hm.
  set (l := v :: a) in *.
  destruct (foldl _ (0, 0) (merge_sort Z.le (remove_dups l))) as [m' c'] eqn:E.
  injection Hm as -> ->.
  assert (Hscores : forall s, s ∈ merge_sort Z.le (remove_dups l) <-> s ∈ l).
  { intros s. rewrite merge_sort_Permutation. apply elem_of_remove_dups. }
  destruct (mode_fold_first l (merge_sort Z.le (remove_dups l)) 0 0 m c
              (StronglySorted_merge_sort Z.le _)) as [_ Hfirst]; [|done|].
  - right. split; [lia|]. intros s Hs. apply count_of_elem. by apply Hscores.
  - intros s Hs. apply Hfirst. by apply Hscores.
Qed.

Lemma stats_mode_smallest_witness :
  exists m c, stats_mode [7; 3; 3; 7; 5] = ([m], [c]) ∧ m ∈ [7; 3; 3; 7; 5] ∧
    c = count_of m [7; 3; 3; 7; 5] ∧
    (forall s, s ∈ [7; 3; 3; 7; 5] -> count_of s [7; 3; 3; 7; 5] ≤ c) ∧
    (forall s, s ∈ [7; 3; 3; 7; 5] -> count_of s [7; 3; 3; 7; 5] = c -> m ≤ s).
Proof. apply (stats_mode_smallest [7; 3; 3; 7; 5]). discriminate. Defined.

(** X4. With positive right and bottom margins that fit, cropping an array
    of width [w] leaves the rows and columns between the margins: the shape
    is the full shape less the margins. *)
Theorem crop_shape_inner {A} self (mapData : ndarray A) (w : Z) :
  0 ≤ cropDists_0_0 self -> 0 < cropDists_0_1 self ->
  0 ≤ cropDists_1_0 self -> 0 < cropDists_1_1 self ->
  cropDists_1_0 self + cropDists_1_1 self ≤ Z.of_nat (length mapData) ->
  cropDists_0_0 self + cropDists_0_1 self ≤ w ->
  Forall (fun row => Z.of_nat (length row) = w) mapData ->
  Z.of_nat (length (crop self mapData))
    = Z.of_nat (length mapData) - cropDists_1_0 self - cropDists_1_1 self ∧
  Forall (fun row => Z.of_nat (length row)
                     = w - cropDists_0_0 self - cropDists_0_1 self)
         (crop self mapData).
Proof.
  intros Hl Hr Ht Hb Hrows Hw Hcols. unfold crop. split.
  - rewrite length_fmap. by apply py_slice_length.
  - apply Forall_fmap, py_slice_Forall.
    eapply Forall_impl; [exact Hcols|]. intros row Hrow. unfold compose. cbn beta in *.
    rewrite py_slice_length by lia. lia.
Qed.

Lemma crop_shape_inner_witness :
  Z.of_nat (length (crop (setCrop (plain_map 4 4 []) 1 1 1 1) grid_4x4)) = 4 - 1 - 1 ∧
  Forall (fun row => Z.of_nat (length row) = 4 - 1 - 1)
         (crop (setCrop (plain_map 4 4 []) 1 1 1 1) grid_4x4).
Proof.
  apply (crop_shape_inner (setCrop (plain_map 4 4 []) 1 1 1 1) grid_4x4 4);
    compute_done.
Defined.

(** ** Checked calls *)

Lemma checked_bind_Ret {A B} (c : checked A) (f : A -> checked B) (b : B) :
  c ≫= f = Within (Ret b) -> exists a, c = Within (Ret a) ∧ f a = Within (Ret b).
Proof. destruct c as [[a| |]|]; simpl; intros H; try done. eauto. Qed.

Lemma checked_ret_bind {A B} (a : A) (f : A -> checked B) : Within (Ret a) ≫= f = f a.
Proof. reflexivity. Qed.

Lemma checked_mret_Ret {A} (a b : A) : (mret a : checked A) = Within (Ret b) -> a = b.
Proof. by intros [= ->]. Qed.

Ltac inv_checked H :=
  let a := fresh "a" in
  let Ha := fresh "Ha" in
  apply checked_bind_Ret in H; destruct H as (a & Ha & H).

(** Progress rule for [for_all], with the invariant indexed by the part of
    the list already done. *)
Lemma for_all_returns {A St} (P : list A -> St -> Prop) (body : St -> A -> checked St)
    (l : list A) (st : St) :
  P [] st ->
  (forall pre a s, take (S (length pre)) l = pre ++ [a] -> P pre s ->
     exists s', body s a = Within (Ret s') ∧ P (pre ++ [a]) s') ->
  exists st', for_all body l st = Within (Ret st') ∧ P l st'.
Proof.
  intros H0 Hstep.
  assert (G : forall suf pre s, l = pre ++ suf -> P pre s ->
              exists st', for_all body suf s = Within (Ret st') ∧ P l st').
  { induction suf as [|a suf IH]; intros pre s El Hp; simpl.
    - rewrite app_nil_r in El. subst. eauto.
    - destruct (Hstep pre a s) as (s' & Hb & Hp'); [|done|].
      + rewrite El, take_app_ge by lia.
        replace (S (length pre) - length pre)%nat with 1%nat by lia. done.
      + rewrite Hb; simpl. apply (IH (pre ++ [a])); [by rewrite <- app_assoc|done]. }
  by apply (G l [] st).
Qed.

(** ** Cropping and reshaping *)

Lemma py_slice_lookup {A} (l : list A) (lo hi : Z) (i : nat) :
  0 ≤ lo -> 0 < hi -> lo + hi ≤ Z.of_nat (length l) ->
  Z.of_nat i < Z.of_nat (length l) - lo - hi ->
  py_slice l lo (- hi) !! i = l !! (Z.to_nat lo + i)%nat.
Proof.
  intros Hlo Hhi Hsum Hi. unfold py_slice, slice_bound.
  rewrite (bool_decide_false (lo < 0)) by lia.
  rewrite (bool_decide_true (- hi < 0)) by lia.
  rewrite lookup_take_lt by lia. rewrite lookup_drop. f_equal. lia.
Qed.

Lemma py_slice_to_zero {A} (l : list A) (lo hi : Z) :
  0 ≤ lo -> 0 ≤ hi -> Z.of_nat (length l) ≤ hi -> py_slice l lo (- hi) = [].
Proof.
  intros Hlo Hhi Hlen. unfold py_slice, slice_bound.
  rewrite (bool_decide_false (lo < 0)) by lia.
  case_bool_decide.
  - replace (Z.to_nat (Z.max 0 (- hi + Z.of_nat (length l)))) with 0%nat by lia.
    done.
  - replace (Z.to_nat (Z.min (- hi) (Z.of_nat (length l)))) with 0%nat by lia.
    done.
Qed.

Lemma crop_cell {A} self (mapData : ndarray A) (w : Z) (x y : Z) :
  0 ≤ cropDists_0_0 self -> 0 < cropDists_0_1 self ->
  0 ≤ cropDists_1_0 self -> 0 < cropDists_1_1 self ->
  cropDists_1_0 self + cropDists_1_1 self ≤ Z.of_nat (length mapData) ->
  cropDists_0_0 self + cropDists_0_1 self ≤ w ->
  Forall (fun row => Z.of_nat (length row) = w) mapData ->
  0 ≤ y < Z.of_nat (length mapData) - cropDists_1_0 self - cropDists_1_1 self ->
  0 ≤ x < w - cropDists_0_0 self - cropDists_0_1 self ->
  cell (crop self mapData) y x
  = cell mapData (y + cropDists_1_0 self) (x + cropDists_0_0 self).
Proof.
  intros Hl Hr Ht Hb Hrows Hw Hcols Hy Hx.
  rewrite !cell_nonneg by lia. unfold crop.
  rewrite list_lookup_fmap, (py_slice_lookup mapData) by lia.
  replace (Z.to_nat (cropDists_1_0 self) + Z.to_nat y)%nat
    with (Z.to_nat (y + cropDists_1_0 self)) by lia.
  destruct (mapData !! Z.to_nat (y + cropDists_1_0 self)) as [row|] eqn:E; [|done].
  simpl. apply list_elem_of_lookup_2 in E as Hin.
  rewrite Forall_forall in Hcols. apply Hcols in Hin.
  rewrite py_slice_lookup by lia. f_equal. lia.
Qed.

Lemma chunks_length {A} (n cols : nat) (l : list A) : length (chunks n cols l) = n.
Proof. revert l. induction n as [|n IH]; intros l; simpl; [done|]. by rewrite IH. Qed.

Lemma chunks_lookup {A} (n cols : nat) (l : list A) (i : nat) :
  (i < n)%nat -> chunks n cols l !! i = Some (take cols (drop (i * cols) l)).
Proof.
  revert l i. induction n as [|n IH]; intros l i Hi; [lia|].
  destruct i as [|i]; simpl; [done|].
  rewrite IH by lia. by rewrite drop_drop.
Qed.

Lemma chunks_concat {A} (n cols : nat) (l : list A) :
  concat (chunks n cols l) = take (n * cols) l.
Proof.
  revert l. induction n as [|n IH]; intros l; simpl; [by rewrite take_0|].
  rewrite IH. rewrite <- (take_drop cols l) at 3.
  destruct (decide (cols ≤ length l)%nat).
  - rewrite take_app_ge by (rewrite length_take; lia).
    rewrite length_take. do 2 f_equal. lia.
  - rewrite (drop_ge l cols) by lia. rewrite take_nil, !app_nil_r.
    rewrite (take_ge l cols) by lia. by rewrite take_ge by lia.
Qed.

Lemma chunks_widths {A} (n cols : nat) (l : list A) :
  (n * cols ≤ length l)%nat ->
  Forall (fun row => length row = cols) (chunks n cols l).
Proof.
  revert l. induction n as [|n IH]; intros l Hl; simpl; constructor.
  - rewrite length_take. lia.
  - apply IH. rewrite length_drop. lia.
Qed.

(** ** The shift between the DIC and the EBSD frames *)

Lemma py_slice_from_drop {A} (l : list A) (s : Z) :
  0 ≤ s -> py_slice_from l s = drop (Z.to_nat s) l.
Proof.
  intros Hs. unfold py_slice_from, slice_bound.
  rewrite bool_decide_false by lia.
  destruct (decide (s ≤ Z.of_nat (length l))).
  - by replace (Z.min s (Z.of_nat (length l))) with s by lia.
  - replace (Z.min s (Z.of_nat (length l))) with (Z.of_nat (length l)) by lia.
    rewrite Nat2Z.id, !drop_ge by lia. done.
Qed.

Lemma zip_with_replicate_l {A B C} (f : A -> B -> C) (x : A) (l : list B) :
  zip_with f (replicate (length l) x) l = f x <$> l.
Proof. induction l as [|b l IH]; simpl; [done|]. by rewrite IH. Qed.

Lemma shape1_shape_ok self g : shape_ok self g -> g ≠ [] -> shape1 g = xDim self.
Proof.
  intros [_ Hw] Hne. destruct g as [|row g]; [done|]. simpl.
  by apply Forall_cons in Hw as [? _].
Qed.

(** The padded grid, in closed form. *)
Lemma pad_by_shift_value self g :
  shape_ok self g -> g ≠ [] -> 0 ≤ (ebsdShift self).1 -> 0 ≤ (ebsdShift self).2 ->
  pad_by_shift self g
  = Within (Ret (replicate (Z.to_nat (ebsdShift self).2)
                   (replicate (Z.to_nat (xDim self + (ebsdShift self).1)) 0)
                 ++ ((replicate (Z.to_nat (ebsdShift self).1) 0 ++.) <$> g))).
Proof.
  intros Hsh Hne Hsx Hsy. pose proof Hsh as [Hrows Hw].
  assert (0 ≤ xDim self) as HxDim.
  { rewrite <- (shape1_shape_ok self g Hsh Hne). destruct g; simpl; lia. }
  unfold pad_by_shift.
  destruct (ebsdShift self) as [sx sy]. cbn [fst snd] in *.
  assert (forall d : ndarray Z,
            (if bool_decide (sx ≠ 0)
             then zeros ← np_full (shape0 d) sx 0; np_hstack zeros d
             else mret d)
            = Within (Ret ((replicate (Z.to_nat sx) 0 ++.) <$> d))) as Hh.
  { intros d. destruct (decide (sx = 0)) as [->|E].
    - rewrite bool_decide_false by (by intros []). simpl.
      f_equal. f_equal. by rewrite list_fmap_id.
    - rewrite bool_decide_true by done. unfold np_full, shape0.
      rewrite (bool_decide_false (Z.of_nat (length d) < 0)) by lia.
      rewrite (bool_decide_false (sx < 0)) by lia. simpl.
      unfold np_hstack, shape0. rewrite length_replicate, Nat2Z.id.
      rewrite bool_decide_true by done. rewrite zip_with_replicate_l. reflexivity. }
  assert ((if bool_decide (sy ≠ 0)
           then zeros ← np_full sy (shape1 g) 0; np_vstack zeros g
           else mret g)
          = Within (Ret (replicate (Z.to_nat sy) (replicate (Z.to_nat (xDim self)) 0) ++ g)))
    as ->.
  { destruct (decide (sy = 0)) as [->|E].
    - rewrite bool_decide_false by (by intros []). reflexivity.
    - rewrite bool_decide_true by done. unfold np_full.
      rewrite (shape1_shape_ok self g Hsh Hne).
      rewrite (bool_decide_false (sy < 0)) by lia.
      rewrite (bool_decide_false (xDim self < 0)) by lia. simpl. unfold np_vstack.
      rewrite bool_decide_true; [reflexivity|].
      rewrite (shape1_shape_ok self g Hsh Hne).
      destruct (Z.to_nat sy) as [|n] eqn:En; [lia|]. simpl.
      rewrite length_replicate. lia. }
  simpl. rewrite Hh. do 2 f_equal. rewrite fmap_app. f_equal.
  rewrite fmap_replicate. f_equal. rewrite <- replicate_add. f_equal. lia.
Qed.

Lemma py_slice_from_length {A} (l : list A) (s n : Z) :
  0 ≤ s -> 0 ≤ n -> Z.of_nat (length l) = n + s ->
  Z.of_nat (length (py_slice_from l s)) = n.
Proof. intros Hs Hn Hl. rewrite py_slice_from_drop by done. rewrite length_drop. lia. Qed.

Lemma py_slice_from_lookup {A} (l : list A) (s : Z) (i : nat) :
  0 ≤ s -> py_slice_from l s !! i = l !! (Z.to_nat s + i)%nat.
Proof. intros Hs. rewrite py_slice_from_drop by done. apply lookup_drop. Qed.

(** [a[sy:, sx:]] *)
Lemma slice_from_cell {A} (a : ndarray A) (sx sy x y : Z) :
  0 ≤ sx -> 0 ≤ sy -> 0 ≤ x -> 0 ≤ y ->
  cell ((fun row => py_slice_from row sx) <$> py_slice_from a sy) y x
  = cell a (y + sy) (x + sx).
Proof.
  intros Hsx Hsy Hx Hy. rewrite !cell_nonneg by lia.
  rewrite list_lookup_fmap, py_slice_from_lookup by done.
  replace (Z.to_nat sy + Z.to_nat y)%nat with (Z.to_nat (y + sy)) by lia.
  destruct (a !! Z.to_nat (y + sy)) as [row|]; [|done]. simpl.
  rewrite py_slice_from_lookup by done. f_equal. lia.
Qed.

Lemma elementwise_shape {A B} (f : A -> B) (a : ndarray A) :
  length <$> elementwise f a = length <$> a.
Proof.
  unfold elementwise. rewrite <- list_fmap_compose. apply list_fmap_ext.
  intros i row _. simpl. apply length_fmap.
Qed.

Lemma shape_of_lengths {A B} (a : ndarray A) (b : ndarray B) (n w : Z) :
  length <$> a = length <$> b ->
  Z.of_nat (length b) = n -> Forall (fun row => Z.of_nat (length row) = w) b ->
  Z.of_nat (length a) = n ∧ Forall (fun row => Z.of_nat (length row) = w) a.
Proof.
  intros E Hrows Hw. split.
  - apply (f_equal length) in E. rewrite !length_fmap in E. lia.
  - rewrite Forall_forall in Hw. apply Forall_forall. intros row Hin.
    apply (list_elem_of_fmap_2 length) in Hin. rewrite E in Hin.
    apply list_elem_of_fmap in Hin as (row' & -> & Hin'). by apply Hw.
Qed.

Lemma slice_from_shape {A} (a : ndarray A) (sx sy n w : Z) :
  0 ≤ sx -> 0 ≤ sy -> 0 ≤ w -> 0 ≤ n ->
  Z.of_nat (length a) = n + sy ->
  Forall (fun row => Z.of_nat (length row) = w + sx) a ->
  Z.of_nat (length ((fun row => py_slice_from row sx) <$> py_slice_from a sy)) = n ∧
  Forall (fun row => Z.of_nat (length row) = w)
         ((fun row => py_slice_from row sx) <$> py_slice_from a sy).
Proof.
  intros Hsx Hsy Hw Hn Hrows Hcols. split.
  - rewrite length_fmap. by apply py_slice_from_length.
  - apply Forall_fmap. rewrite py_slice_from_drop by done. apply Forall_drop.
    eapply Forall_impl; [exact Hcols|]. intros row Hrow. simpl in *.
    by apply py_slice_from_length.
Qed.

(** ** The bounding box of a grain and the arrays drawn over it *)

Lemma py_min_spec (v : Z) (t : list Z) :
  (forall x, x ∈ v :: t -> py_min v t ≤ x) ∧ py_min v t ∈ v :: t.
Proof.
  unfold py_min. revert v. induction t as [|a t IH]; intros v; simpl.
  - split; [|apply elem_of_cons; by left].
    intros x Hx. apply list_elem_of_singleton in Hx. lia.
  - destruct (IH (Z.min v a)) as [Hle Hin]. split.
    + intros x Hx. pose proof (Hle (Z.min v a) ltac:(apply elem_of_cons; by left)).
      apply elem_of_cons in Hx as [->|Hx]; [lia|].
      apply elem_of_cons in Hx as [->|Hx]; [lia|].
      apply Hle. apply elem_of_cons. by right.
    + apply elem_of_cons in Hin as [E|Hin].
      * rewrite E. destruct (Z.min_spec v a) as [[_ ->]|[_ ->]].
        -- apply elem_of_cons. by left.
        -- apply elem_of_cons. right. apply elem_of_cons. by left.
      * apply elem_of_cons. right. apply elem_of_cons. by right.
Qed.

Lemma py_max_spec (v : Z) (t : list Z) :
  (forall x, x ∈ v :: t -> x ≤ py_max v t) ∧ py_max v t ∈ v :: t.
Proof.
  unfold py_max. revert v. induction t as [|a t IH]; intros v; simpl.
  - split; [|apply elem_of_cons; by left].
    intros x Hx. apply list_elem_of_singleton in Hx. lia.
  - destruct (IH (Z.max v a)) as [Hle Hin]. split.
    + intros x Hx. pose proof (Hle (Z.max v a) ltac:(apply elem_of_cons; by left)).
      apply elem_of_cons in Hx as [->|Hx]; [lia|].
      apply elem_of_cons in Hx as [->|Hx]; [lia|].
      apply Hle. apply elem_of_cons. by right.
    + apply elem_of_cons in Hin as [E|Hin].
      * rewrite E. destruct (Z.max_spec v a) as [[_ ->]|[_ ->]].
        -- apply elem_of_cons. right. apply elem_of_cons. by left.
        -- apply elem_of_cons. by left.
      * apply elem_of_cons. right. apply elem_of_cons. by right.
Qed.

Lemma extremeCoords_Ret g :
  coordList g ≠ [] ->
  exists x0 y0 xmax ymax, extremeCoords g = Ret (x0, y0, xmax, ymax) ∧
    (forall p, p ∈ coordList g -> x0 ≤ p.1 ≤ xmax ∧ y0 ≤ p.2 ≤ ymax) ∧
    (exists p, p ∈ coordList g ∧ p.1 = x0) ∧
    (exists p, p ∈ coordList g ∧ p.2 = y0) ∧
    (exists p, p ∈ coordList g ∧ p.1 = xmax) ∧
    (exists p, p ∈ coordList g ∧ p.2 = ymax).
Proof.
  intros Hne. unfold extremeCoords. destruct (coordList g) as [|c cs]; [done|].
  do 4 eexists. split; [reflexivity|].
  destruct (py_min_spec c.1 cs.*1) as [Hx0 Hx0'].
  destruct (py_min_spec c.2 cs.*2) as [Hy0 Hy0'].
  destruct (py_max_spec c.1 cs.*1) as [Hx1 Hx1'].
  destruct (py_max_spec c.2 cs.*2) as [Hy1 Hy1'].
  assert (forall (f : Z * Z -> Z) v, v ∈ f c :: (f <$> cs) ->
            exists p, p ∈ c :: cs ∧ f p = v) as Hback.
  { intros f v [->|Hv]%elem_of_cons.
    - exists c. split; [apply elem_of_cons; by left|done].
    - apply list_elem_of_fmap in Hv as (p & -> & Hp). exists p.
      split; [apply elem_of_cons; by right|done]. }
  assert (forall (f : Z * Z -> Z) p, p ∈ c :: cs -> f p ∈ f c :: (f <$> cs)) as Hfwd.
  { intros f p [->|Hp]%elem_of_cons; [apply elem_of_cons; by left|].
    apply elem_of_cons. right. by apply list_elem_of_fmap_2. }
  split; [|split; [|split; [|split]]].
  - intros p Hp. pose proof (Hx0 _ (Hfwd fst p Hp)). pose proof (Hx1 _ (Hfwd fst p Hp)).
    pose proof (Hy0 _ (Hfwd snd p Hp)). pose proof (Hy1 _ (Hfwd snd p Hp)). lia.
  - by apply (Hback fst).
  - by apply (Hback snd).
  - by apply (Hback fst).
  - by apply (Hback snd).
Qed.

(** *** Writes into an array *)

Lemma setitem_cell {A} (a a' : ndarray A) (t s : Z) (v : A) :
  0 ≤ t -> 0 ≤ s -> setitem a t s v = Ret a' ->
  length <$> a' = length <$> a ∧
  forall t' s', 0 ≤ t' -> 0 ≤ s' ->
    cell a' t' s' = if decide (t' = t ∧ s' = s) then Some v else cell a t' s'.
Proof.
  intros Ht Hs Hset.
  apply setitem_Ret in Hset as (i & row & j & old & Ei & Er & Ej & Ho & Hc & ->).
  rewrite norm_index_nonneg in Ei, Ej by done.
  case_bool_decide; simplify_eq. case_bool_decide; simplify_eq.
  split.
  - rewrite list_fmap_insert, length_insert. by apply list_insert_id, list_lookup_fmap_Some_2.
  - intros t' s' Ht' Hs'. rewrite !cell_nonneg by done.
    destruct (decide (t' = t ∧ s' = s)) as [[-> ->]|Hne].
    + rewrite list_lookup_insert_eq by (by eapply lookup_lt_Some). simpl.
      by rewrite list_lookup_insert_eq by (by eapply lookup_lt_Some).
    + destruct (decide (Z.to_nat t' = Z.to_nat t)) as [E|E].
      * rewrite E, list_lookup_insert_eq, Er by (by eapply lookup_lt_Some). simpl.
        apply list_lookup_insert_ne. lia.
      * by rewrite list_lookup_insert_ne.
Qed.

Lemma has_shape_lengths {A B} (a : ndarray A) (b : ndarray B) rows cols :
  length <$> a = length <$> b -> has_shape b rows cols -> has_shape a rows cols.
Proof. intros E [H1 H2]. by apply (shape_of_lengths a b). Qed.

Lemma has_shape_cell {A} (a : ndarray A) rows cols t s :
  has_shape a rows cols -> 0 ≤ t < rows -> 0 ≤ s < cols -> is_Some (cell a t s).
Proof.
  intros [Hr Hc] Ht Hs. rewrite cell_nonneg by lia.
  destruct (lookup_lt_is_Some_2 a (Z.to_nat t)) as [row Hrow]; [lia|].
  rewrite Hrow. simpl. apply lookup_lt_is_Some_2.
  rewrite Forall_forall in Hc. apply list_elem_of_lookup_2 in Hrow. apply Hc in Hrow. lia.
Qed.

Lemma np_full_Ret {A} (rows cols : Z) (v : A) :
  0 ≤ rows -> 0 ≤ cols ->
  exists a, np_full rows cols v = Within (Ret a) ∧ has_shape a rows cols ∧
    forall t s, 0 ≤ t < rows -> 0 ≤ s < cols -> cell a t s = Some v.
Proof.
  intros Hr Hc. unfold np_full.
  rewrite (bool_decide_false (rows < 0)), (bool_decide_false (cols < 0)) by lia.
  eexists. split; [reflexivity|]. split; [split|].
  - rewrite length_replicate. lia.
  - apply Forall_replicate. rewrite length_replicate. lia.
  - intros t s Ht Hs. rewrite cell_nonneg by lia.
    rewrite lookup_replicate_2 by lia. simpl. by rewrite lookup_replicate_2 by lia.
Qed.

Lemma painted_snoc {A} (writes : list (Z * Z * A)) cv p d :
  painted (writes ++ [cv]) p d
  = if decide (cv.1 = p) then cv.2 else painted writes p d.
Proof. revert d. induction writes as [|w writes IH]; intros d; simpl; [done|]. apply IH. Qed.

(** A loop of writes inside an array leaves at every cell the value of the
    last write there. *)
Lemma writes_painted {A} (writes : list (Z * Z * A)) (a0 : ndarray A)
    (rows cols x0 y0 : Z) :
  has_shape a0 rows cols ->
  (forall cv, cv ∈ writes ->
     x0 ≤ cv.1.1 < x0 + cols ∧ y0 ≤ cv.1.2 < y0 + rows) ->
  exists a, for_each (fun a cv => setitem a (cv.1.2 - y0) (cv.1.1 - x0) cv.2) writes a0
            = Ret a ∧
    has_shape a rows cols ∧
    forall x y, x0 ≤ x < x0 + cols -> y0 ≤ y < y0 + rows ->
      cell a (y - y0) (x - x0) = painted writes (x, y) <$> cell a0 (y - y0) (x - x0).
Proof.
  intros Hsh Hin.
  destruct (for_each_returns
              (fun pre a => length <$> a = length <$> a0 ∧
                 forall x y, x0 ≤ x < x0 + cols -> y0 ≤ y < y0 + rows ->
                   cell a (y - y0) (x - x0)
                   = painted pre (x, y) <$> cell a0 (y - y0) (x - x0))
              (fun a cv => setitem a (cv.1.2 - y0) (cv.1.1 - x0) cv.2) writes a0)
    as (a & Hr & Hl & Hc).
  - split; [done|]. intros x y Hx Hy. simpl. by destruct (cell a0 _ _).
  - intros pre cv a Hpre [Hl Hc].
    destruct (Hin cv (take_S_elem _ _ _ Hpre)) as [Hx Hy].
    pose proof (has_shape_lengths a a0 rows cols Hl Hsh) as Hsh'.
    destruct (has_shape_cell a rows cols (cv.1.2 - y0) (cv.1.1 - x0) Hsh')
      as [old Hold]; [lia..|].
    destruct (setitem_of_cell a _ _ old cv.2 Hold) as [a' Ha'].
    exists a'. split; [done|].
    destruct (setitem_cell a a' (cv.1.2 - y0) (cv.1.1 - x0) cv.2 ltac:(lia) ltac:(lia) Ha')
      as [Hl' Hc'].
    split; [congruence|]. intros x y Hxr Hyr.
    rewrite Hc' by lia.
    destruct (has_shape_cell a0 rows cols (y - y0) (x - x0) Hsh) as [d Hd]; [lia..|].
    pose proof (Hc x y Hxr Hyr) as Hold'. rewrite Hd in Hold' |- *. simpl in *.
    rewrite painted_snoc.
    destruct (decide (y - y0 = cv.1.2 - y0 ∧ x - x0 = cv.1.1 - x0)) as [[E1 E2]|Hne].
    + by rewrite decide_True by (destruct cv as [[cx cy] v]; simpl in *; f_equal; lia).
    + rewrite decide_False; [done|].
      intros E. apply Hne. destruct cv as [[cx cy] v]. simpl in *.
      injection E as -> ->. done.
  - exists a. split; [done|]. split; [|done].
    by apply (has_shape_lengths a a0).
Qed.

Lemma for_each_fmap {A B St} (f : A -> B) (body : St -> B -> outcome St)
    (l : list A) (st : St) :
  for_each body (f <$> l) st = for_each (fun s a => body s (f a)) l st.
Proof.
  revert st. induction l as [|a l IH]; intros st; simpl; [done|].
  destruct (body st (f a)); simpl; [apply IH|done..].
Qed.

Lemma painted_const {A} (coords : list (Z * Z)) (v d : A) p :
  painted ((fun c => (c, v)) <$> coords) p d
  = if decide (p ∈ coords) then v else d.
Proof.
  induction coords as [|c coords IH] using rev_ind.
  - destruct (decide (p ∈ [])) as [H|H]; [by apply elem_of_nil in H|done].
  - rewrite fmap_app. simpl. rewrite painted_snoc. simpl.
    destruct (decide (c = p)) as [->|Hne].
    + rewrite decide_True; [done|]. apply elem_of_app. right. by apply list_elem_of_singleton.
    + rewrite IH. destruct (decide (p ∈ coords)) as [Hin|Hnin].
      * rewrite decide_True; [done|]. apply elem_of_app. by left.
      * rewrite decide_False; [done|]. intros [?|?%list_elem_of_singleton]%elem_of_app; done.
Qed.

Lemma painted_zip {A} (coords : list (Z * Z)) (vals : list A) (d : A) p :
  NoDup coords -> length vals = length coords ->
  (p ∉ coords -> painted (zip coords vals) p d = d) ∧
  (forall (i : nat) v, coords !! i = Some p -> vals !! i = Some v ->
     painted (zip coords vals) p d = v).
Proof.
  revert vals. induction coords as [|c coords IH] using rev_ind; intros vals Hnd Hlen.
  - destruct vals; [|done]. split; [done|]. intros i v Hi. by rewrite lookup_nil in Hi.
  - rewrite length_app in Hlen. simpl in Hlen.
    destruct (decide (vals = [])) as [->|Hvne]; [simpl in Hlen; lia|].
    destruct (exists_last Hvne) as (vals' & w & ->).
    rewrite length_app in Hlen. simpl in Hlen.
    rewrite zip_with_app by lia. simpl. rewrite painted_snoc. simpl.
    apply NoDup_app in Hnd as (Hnd & Hdisj & _).
    destruct (IH vals' Hnd ltac:(lia)) as [IH1 IH2]. split.
    + intros Hnin. rewrite decide_False.
      * apply IH1. intros ?. apply Hnin, elem_of_app. by left.
      * intros ->. apply Hnin, elem_of_app. right. by apply list_elem_of_singleton.
    + intros i v Hi Hv. destruct (decide (i < length coords)%nat) as [Hlt|Hge].
      * rewrite lookup_app_l in Hi by lia. rewrite lookup_app_l in Hv by lia.
        rewrite decide_False; [by eapply IH2|].
        intros ->. apply (Hdisj p); [by eapply list_elem_of_lookup_2|].
        by apply list_elem_of_singleton.
      * rewrite lookup_app_r in Hi by lia. rewrite lookup_app_r in Hv by lia.
        replace (i - length vals')%nat with (i - length coords)%nat in Hv by lia.
        destruct (i - length coords)%nat as [|n]; simplify_eq/=.
        by rewrite decide_True.
Qed.

Lemma for_each_ext {A St} (body body' : St -> A -> outcome St) (l : list A) (st : St) :
  (forall s a, body s a = body' s a) -> for_each body l st = for_each body' l st.
Proof.
  intros E. revert st. induction l as [|a l IH]; intros st; simpl; [done|].
  rewrite E. destruct (body' st a); simpl; [apply IH|done..].
Qed.

Lemma elementwise_cell {A B} (f : A -> B) (a : ndarray A) t s :
  cell (elementwise f a) t s = f <$> cell a t s.
Proof.
  unfold cell, elementwise. rewrite length_fmap.
  destruct (norm_index (length a) t) as [i|]; [|done]. simpl.
  rewrite list_lookup_fmap. destruct (a !! i) as [row|]; [|done]. simpl.
  rewrite length_fmap. destruct (norm_index (length row) s) as [j|]; [|done]. simpl.
  by rewrite list_lookup_fmap.
Qed.

(** The outline of a grain: its bounding box, [fg] on its pixels and [bg]
    elsewhere. *)
Lemma grainOutline_spec nan g bg fg :
  coordList g ≠ [] ->
  exists x0 y0 xmax ymax outline,
    extremeCoords g = Ret (x0, y0, xmax, ymax) ∧
    grainOutline nan g bg fg = Within (Ret outline) ∧
    has_shape outline (ymax - y0 + 1) (xmax - x0 + 1) ∧
    forall x y, x0 ≤ x ≤ xmax -> y0 ≤ y ≤ ymax ->
      cell outline (y - y0) (x - x0)
      = Some (if decide ((x, y) ∈ coordList g) then int64_val fg
              else as_int64 nan bg).
Proof.
  intros Hne.
  destruct (extremeCoords_Ret g Hne)
    as (x0 & y0 & xmax & ymax & He & Hbox & (px & Hpx & _) & _).
  pose proof (Hbox px Hpx) as Hpos.
  destruct (np_full_Ret (ymax - y0 + 1) (xmax - x0 + 1) (as_int64 nan bg)) as (a0 & Hfull & Hsh & Hbg);
    [lia..|].
  destruct (writes_painted ((fun c => (c, int64_val fg)) <$> coordList g) a0
              (ymax - y0 + 1) (xmax - x0 + 1) x0 y0 Hsh) as (outline & Hr & Hsh' & Hc).
  { intros cv (c & -> & Hc)%list_elem_of_fmap. simpl.
    pose proof (Hbox c Hc). lia. }
  exists x0, y0, xmax, ymax, outline. split; [done|]. split; [|split; [done|]].
  - unfold grainOutline. rewrite He. simpl. rewrite Hfull. simpl.
    rewrite for_each_fmap in Hr. simpl in Hr. by rewrite Hr.
  - intros x y Hx Hy. rewrite Hc by lia. rewrite Hbg by lia. simpl.
    by rewrite painted_const.
Qed.

(** ** The overlay of highlighted grains *)

Lemma bidx_lt (n i : nat) : (i < n)%nat -> bidx n i = i.
Proof. intros Hi. unfold bidx. case_bool_decide; lia. Qed.

Lemma at2_cell (a : ndarray Z) (t s v : Z) :
  0 ≤ t -> 0 ≤ s -> cell a t s = Some v -> at2 a (Z.to_nat t) (Z.to_nat s) = v.
Proof. intros Ht Hs Hc. rewrite cell_nonneg in Hc by done. unfold at2. by rewrite Hc. Qed.

Lemma slice_range_inside (n : nat) (lo hi : Z) :
  0 ≤ lo ≤ hi -> hi < Z.of_nat n ->
  slice_range n lo (hi + 1) = (Z.to_nat lo, Z.to_nat (hi - lo + 1)).
Proof.
  intros Hlo Hhi. unfold slice_range, slice_bound.
  rewrite (bool_decide_false (lo < 0)), (bool_decide_false (hi + 1 < 0)) by lia.
  f_equal; lia.
Qed.

Lemma has_shape_shape1 {A} (a : ndarray A) rows cols :
  has_shape a rows cols -> 0 < rows -> shape0 a = rows ∧ shape1 a = cols.
Proof.
  intros [Hr Hc] Hpos. split; [done|]. destruct a as [|row a]; [simpl in Hr; lia|].
  simpl. by apply Forall_cons in Hc as [? _].
Qed.

(** One highlighted grain: its pixels become 1 and the others stay. *)
Lemma highlight_grain_spec nan self outline grainId gr :
  has_shape outline (yDim self) (xDim self) ->
  Forall (Forall (fun c => c = 0 ∨ c = 1)) outline ->
  py_getitem (grainList self) grainId = Ret gr ->
  coordList gr ≠ [] -> (forall p, p ∈ coordList gr -> inb self p) ->
  exists outline',
    highlight_grain nan self outline grainId = Within (Ret outline') ∧
    has_shape outline' (yDim self) (xDim self) ∧
    Forall (Forall (fun c => c = 0 ∨ c = 1)) outline' ∧
    forall p c, inb self p -> label outline p = Some c ->
      label outline' p = Some (if decide (p ∈ coordList gr) then 1 else c).
Proof.
  intros Hsh H01 Hget Hne Hin.
  destruct (grainOutline_spec nan gr (ColourInt int64_0) int64_1 Hne)
    as (x0 & y0 & xmax & ymax & G & He & HG & HshG & HcG).
  change (int64_val int64_1) with 1 in HcG.
  change (as_int64 nan (ColourInt int64_0)) with 0 in HcG.
  destruct (extremeCoords_Ret gr Hne)
    as (? & ? & ? & ? & He' & Hbox & (px0 & Hpx0 & Ex0) & (py0 & Hpy0 & Ey0)
        & (px1 & Hpx1 & Ex1) & (py1 & Hpy1 & Ey1)).
  rewrite He in He'. injection He' as <- <- <- <-.
  pose proof (Hin _ Hpx0) as [Bx0 _]. pose proof (Hin _ Hpy0) as [_ By0].
  pose proof (Hin _ Hpx1) as [Bx1 _]. pose proof (Hin _ Hpy1) as [_ By1].
  pose proof (Hbox _ Hpx0) as [Cx _]. pose proof (Hbox _ Hpy0) as [_ Cy].
  destruct (has_shape_shape1 G _ _ HshG ltac:(lia)) as [Hh Hw].
  set (a := Z.to_nat (ymax - y0 + 1)). set (b := Z.to_nat (xmax - x0 + 1)).
  set (new := imap (fun y row =>
                imap (fun x old =>
                        if bool_decide (Z.to_nat y0 ≤ y < Z.to_nat y0 + a)%nat
                           && bool_decide (Z.to_nat x0 ≤ x < Z.to_nat x0 + b)%nat
                        then
                          if bool_decide (at2 outline
                                            (Z.to_nat y0 + bidx a (bidx a (y - Z.to_nat y0)))
                                            (Z.to_nat x0 + bidx b (bidx b (x - Z.to_nat x0)))
                                          ≠ 0)
                             || bool_decide (at2 G (bidx a (bidx a (y - Z.to_nat y0)))
                                               (bidx b (bidx b (x - Z.to_nat x0))) ≠ 0)
                          then 1 else 0
                        else old) row) outline).
  assert (highlight_grain nan self outline grainId = Within (Ret new)) as Hrun.
  { unfold highlight_grain. rewrite Hget, checked_ret_bind, HG, !checked_ret_bind.
    rewrite He, checked_ret_bind. cbv beta iota.
    rewrite (slice_range_inside _ y0 ymax), (slice_range_inside _ x0 xmax) by lia.
    rewrite Hh, Hw. fold a b.
    unfold broadcast_dim.
    rewrite (bool_decide_true (a = a)), (bool_decide_true (b = b)) by done.
    cbv beta iota.
    rewrite (bool_decide_true (a = a)), (bool_decide_true (b = b)) by done.
    simpl. reflexivity. }
  assert (forall p c, inb self p -> label outline p = Some c ->
            label new p = Some (if decide (p ∈ coordList gr) then 1 else c)) as Hcells.
  { intros p c [Hp1 Hp2] Hc. pose proof Hc as Hc'.
    apply label_nonneg_lookup in Hc as (row & Hrow & Hv); [|lia..].
    apply label_nonneg_lookup; [lia..|]. eexists. unfold new.
    rewrite list_lookup_imap, Hrow. simpl. split; [reflexivity|].
    rewrite list_lookup_imap, Hv. simpl. f_equal.
    destruct (decide (y0 ≤ p.2 ≤ ymax ∧ x0 ≤ p.1 ≤ xmax)) as [[Hy Hx]|Hout].
    - rewrite !bool_decide_true by (unfold a, b; lia). simpl.
      rewrite !bidx_lt by (rewrite ?bidx_lt; unfold a, b; lia).
      replace (Z.to_nat y0 + (Z.to_nat p.2 - Z.to_nat y0))%nat with (Z.to_nat p.2) by lia.
      replace (Z.to_nat x0 + (Z.to_nat p.1 - Z.to_nat x0))%nat with (Z.to_nat p.1) by lia.
      rewrite (at2_cell outline p.2 p.1 c) by (done || lia).
      replace (Z.to_nat p.2 - Z.to_nat y0)%nat with (Z.to_nat (p.2 - y0)) by lia.
      replace (Z.to_nat p.1 - Z.to_nat x0)%nat with (Z.to_nat (p.1 - x0)) by lia.
      rewrite (at2_cell G (p.2 - y0) (p.1 - x0) _ ltac:(lia) ltac:(lia)
                 (HcG p.1 p.2 Hx Hy)).
      replace (p.1, p.2) with p by (by destruct p).
      assert (c = 0 ∨ c = 1) as Hc01.
      { rewrite Forall_labels in H01. by apply (H01 p c); [lia..|]. }
      destruct (decide (p ∈ coordList gr)).
      + rewrite (bool_decide_true (1 ≠ 0)) by done. by rewrite orb_true_r.
      + rewrite (bool_decide_false (0 ≠ 0)) by auto. rewrite orb_false_r.
        destruct Hc01 as [->| ->]; by case_bool_decide.
    - rewrite decide_False by (intros Hp; apply Hbox in Hp; lia).
      destruct (bool_decide (Z.to_nat y0 ≤ Z.to_nat p.2 < Z.to_nat y0 + a)%nat) eqn:E1;
        [|done].
      destruct (bool_decide (Z.to_nat x0 ≤ Z.to_nat p.1 < Z.to_nat x0 + b)%nat) eqn:E2;
        [|done].
      apply bool_decide_eq_true in E1, E2. unfold a, b in *. lia. }
  exists new. split; [done|]. split; [|split; [|done]].
  - destruct Hsh as [Hr Hc]. split; [unfold new; by rewrite length_imap|].
    apply Forall_forall. intros row' Hrow'. apply list_elem_of_lookup in Hrow' as [i Hi].
    unfold new in Hi. rewrite list_lookup_imap in Hi.
    destruct (outline !! i) as [row|] eqn:Er; [|done]. simpl in Hi. injection Hi as <-.
    rewrite length_imap. rewrite Forall_forall in Hc.
    by apply Hc, (list_elem_of_lookup_2 _ i).
  - apply Forall_labels. intros p c Hp1 Hp2 Hc.
    assert (inb self p) as Hp.
    { apply label_nonneg_lookup in Hc as (row' & Hrow' & Hv); [|done..].
      unfold new in Hrow'. rewrite list_lookup_imap in Hrow'.
      destruct (outline !! Z.to_nat p.2) as [row|] eqn:Er; [|done].
      simpl in Hrow'. injection Hrow' as <-. rewrite list_lookup_imap in Hv.
      destruct (row !! Z.to_nat p.1) as [old|] eqn:Eo; [|done].
      destruct Hsh as [Hr Hcs]. rewrite Forall_forall in Hcs.
      pose proof (Hcs row (list_elem_of_lookup_2 _ _ _ Er)).
      apply lookup_lt_Some in Er, Eo. unfold inb. lia. }
    destruct (has_shape_cell outline _ _ p.2 p.1 Hsh) as [old Hold];
      [destruct Hp; lia..|].
    rewrite (Hcells p old Hp Hold) in Hc. injection Hc as <-.
    case_decide; [by right|]. rewrite Forall_labels in H01.
    by apply (H01 p old); [lia..|].
Qed.

(** ** More on the grains that segmentation grows *)

Lemma filter_all {A} (P : A -> Prop) `{forall x, Decision (P x)} (l : list A) :
  (forall x, x ∈ l -> P x) -> filter P l = l.
Proof.
  induction l as [|a l IH]; intros HP; [done|].
  rewrite filter_cons_True by (apply HP, elem_of_cons; by left).
  f_equal. apply IH. intros x Hx. apply HP, elem_of_cons. by right.
Qed.

Lemma filter_none {A} (P : A -> Prop) `{forall x, Decision (P x)} (l : list A) :
  (forall x, x ∈ l -> ¬ P x) -> filter P l = [].
Proof.
  induction l as [|a l IH]; intros HP; [done|].
  rewrite filter_cons_False by (apply HP, elem_of_cons; by left).
  apply IH. intros x Hx. apply HP, elem_of_cons. by right.
Qed.

Lemma grain_ok_facts self mask gr :
  shape_ok self mask -> grain_ok mask gr ->
  NoDup (coordList gr) ∧ length (maxShearList gr) = length (coordList gr) ∧
  1 ≤ len gr ∧ forall p, p ∈ coordList gr -> inb self p.
Proof.
  intros Hsh (Hnd & Hlen & Hnn & seed & Hh & _).
  split; [done|]. split; [done|]. split.
  - unfold len. destruct (coordList gr); [done|]. simpl. lia.
  - intros p Hp. destruct (Hnn p Hp) as (H1 & H2 & [H0|H0]); by eapply label_Some_inb.
Qed.

(** The grains of the registry are grains grown, in the same order. *)
Lemma seg_inv_kept_grown self mask m st passed gr :
  seg_inv self mask m st passed -> gr ∈ st.1.2 -> gr ∈ passed ∧ m ≤ len gr.
Proof.
  intros Hinv Hgr. rewrite (si_kept Hinv) in Hgr.
  by apply list_elem_of_filter in Hgr as [? ?].
Qed.

(** What the final label of a pixel says about the grains. *)
Lemma seg_inv_label_cases self mask m st passed p c :
  seg_inv self mask m st passed -> np_where_eq st.1.1 0 = [] ->
  0 ≤ p.1 -> 0 ≤ p.2 -> label st.1.1 p = Some c ->
  (c = -1 ∧ label mask p = Some (-1) ∧ forall gr, gr ∈ passed -> p ∉ coordList gr) ∨
  (c ≠ -1 ∧ c ≠ 0 ∧ exists gr, gr ∈ passed ∧ p ∈ coordList gr).
Proof.
  intros Hinv Hnil H1 H2 Hc.
  destruct (decide (c = 0)) as [->|H0].
  { assert ((p.2, p.1) ∈ np_where_eq st.1.1 0) as Hin by (by apply np_where_elem).
    rewrite Hnil in Hin. by apply elem_of_nil in Hin. }
  destruct (decide (c = -1)) as [->|Hm1].
  - left. split; [done|]. split; [apply (si_mask Hinv p (-1)); auto|].
    intros gr Hgr Hp.
    destruct (seg_inv_claimed self mask m st passed gr p Hinv Hgr Hp)
      as (_ & _ & c' & Hc' & _ & Hne).
    congruence.
  - right. split; [done|]. split; [done|]. by eapply seg_inv_owner.
Qed.

(** ** One highlighted grain *)

Lemma zeros_01 (o : ndarray Z) rows cols :
  has_shape o rows cols ->
  (forall t s, 0 ≤ t < rows -> 0 ≤ s < cols -> cell o t s = Some 0) ->
  Forall (Forall (fun c => c = 0 ∨ c = 1)) o.
Proof.
  intros [Hr Hc] Hz. apply Forall_labels. intros p c Hp1 Hp2 Hl. left.
  assert (label o p = Some 0) as E; [|congruence].
  apply label_nonneg_lookup in Hl as (row & Hrow & Hv); [|done..].
  rewrite Forall_forall in Hc. pose proof (Hc row (list_elem_of_lookup_2 _ _ _ Hrow)).
  apply lookup_lt_Some in Hrow, Hv. unfold label. apply Hz; lia.
Qed.

Lemma highlight_single nan self id gr :
  dims_int self = true -> 0 ≤ xDim self -> 0 ≤ yDim self ->
  py_getitem (grainList self) id = Ret gr ->
  coordList gr ≠ [] -> (forall p, p ∈ coordList gr -> inb self p) ->
  exists outline, highlightGrains nan self [id] = Within (Ret outline) ∧
    forall p, inb self p ->
      label outline p = Some (if decide (p ∈ coordList gr) then 1 else 0).
Proof.
  intros Hint Hx Hy Hget Hne Hin. unfold highlightGrains. rewrite Hint.
  destruct (np_full_Ret (yDim self) (xDim self) 0 Hy Hx) as (o0 & Hfull & Hsh0 & Hz).
  rewrite Hfull, checked_ret_bind.
  destruct (highlight_grain_spec nan self o0 id gr Hsh0 (zeros_01 _ _ _ Hsh0 Hz) Hget Hne Hin)
    as (o' & Hrun & _ & _ & Hcells).
  exists o'. split.
  - simpl. by rewrite Hrun.
  - intros p Hp. apply Hcells; [done|]. unfold label. apply Hz; destruct Hp; lia.
Qed.

Lemma highlight_missing nan self id rest :
  dims_int self = true -> 0 ≤ xDim self -> 0 ≤ yDim self ->
  py_getitem (grainList self) id = Raise IndexError ->
  highlightGrains nan self (id :: rest) = Within (Raise IndexError).
Proof.
  intros Hint Hx Hy Hget. unfold highlightGrains. rewrite Hint.
  destruct (np_full_Ret (yDim self) (xDim self) 0 Hy Hx) as (o0 & Hfull & _).
  rewrite Hfull, checked_ret_bind. simpl. unfold highlight_grain. by rewrite Hget.
Qed.

Lemma py_getitem_negative {A} (l : list A) (i : Z) :
  i < 0 ->
  (Z.of_nat (length l) < - i -> py_getitem l i = Raise IndexError) ∧
  (- i ≤ Z.of_nat (length l) ->
   exists v, l !! Z.to_nat (Z.of_nat (length l) + i) = Some v ∧ py_getitem l i = Ret v).
Proof.
  intros Hi. unfold py_getitem, norm_index.
  rewrite (bool_decide_false (0 ≤ i < Z.of_nat (length l))) by lia. split; intros Hlen.
  - by rewrite bool_decide_false by lia.
  - rewrite bool_decide_true by lia. simpl.
    replace (i + Z.of_nat (length l)) with (Z.of_nat (length l) + i) by lia.
    destruct (lookup_lt_is_Some_2 l (Z.to_nat (Z.of_nat (length l) + i))) as [v Hv]; [lia|].
    exists v. by rewrite Hv.
Qed.

(** ** The order in which grains are seeded *)

Lemma where_row_first v t s row r c rest :
  where_row v t s row = (r, c) :: rest ->
  forall p, p ∈ where_row v t s row -> c ≤ p.2.
Proof.
  revert s. induction row as [|c0 row IH]; intros s E p Hp; [done|].
  pose proof Hp as Hp'. apply where_row_elem in Hp' as (_ & j & Hj & _).
  simpl in E, Hp. destruct (bool_decide (c0 = v)); simpl in E, Hp.
  - injection E as <- <- <-. lia.
  - by apply (IH (s + 1)).
Qed.

Lemma where_rows_first v t a r c rest :
  where_rows v t a = (r, c) :: rest ->
  forall p, p ∈ where_rows v t a -> r < p.1 ∨ (r = p.1 ∧ c ≤ p.2).
Proof.
  revert t. induction a as [|row a IH]; intros t E p Hp; [done|].
  simpl in E, Hp. destruct (where_row v t 0 row) as [|[r0 c0] rest0] eqn:Er.
  - simpl in *. by apply (IH (t + 1)).
  - simpl in E. injection E as -> -> <-.
    assert ((r, c) ∈ where_row v t 0 row) as Hhead by (rewrite Er; apply elem_of_cons; by left).
    apply where_row_elem in Hhead as (Hr & _). simpl in Hr. subst r.
    apply elem_of_app in Hp as [Hp|Hp].
    + right. rewrite <- Er in Hp. pose proof (where_row_first _ _ _ _ _ _ _ Er p Hp).
      apply where_row_elem in Hp as (-> & _). done.
    + left. apply where_rows_elem in Hp as (i & j & row' & -> & _). simpl. lia.
Qed.

(** The point that [np.where] lists first is the first in raster order. *)
Lemma np_where_first g row col rest p :
  np_where_eq g 0 = (row, col) :: rest ->
  0 ≤ p.1 -> 0 ≤ p.2 -> label g p = Some 0 -> p ≠ (col, row) ->
  raster_lt (col, row) p.
Proof.
  intros E H1 H2 Hl Hne.
  assert ((p.2, p.1) ∈ np_where_eq g 0) as Hin by (by apply np_where_elem).
  destruct (where_rows_first _ _ _ _ _ _ E _ Hin) as [Hlt|[Heq Hle]]; simpl in *.
  - by left.
  - right. split; [done|]. destruct (decide (col = p.1)) as [->|]; [|simpl; lia].
    destruct Hne. destruct p; simpl in *. by subst.
Qed.

Lemma StronglySorted_filter_2 {A} (R : relation A) (P : A -> Prop)
    `{forall x, Decision (P x)} (l : list A) :
  StronglySorted R l -> StronglySorted R (filter P l).
Proof.
  induction 1 as [|x l Hl IH Hx]; [constructor|].
  rewrite filter_cons. case_decide; [|done]. constructor; [done|].
  apply Forall_forall. intros y [_ Hy]%list_elem_of_filter.
  rewrite Forall_forall in Hx. by apply Hx.
Qed.

Lemma StronglySorted_lookup_lt {A} (R : relation A) (l : list A) (i j : nat) a b :
  StronglySorted R l -> (i < j)%nat -> l !! i = Some a -> l !! j = Some b -> R a b.
Proof.
  intros Hs. revert i j. induction Hs as [|x l Hl IH Hx]; intros i j Hij Hi Hj; [done|].
  destruct j as [|j]; [lia|]. simpl in Hj. destruct i as [|i]; simpl in Hi.
  - injection Hi as <-. rewrite Forall_forall in Hx.
    by apply Hx, (list_elem_of_lookup_2 _ j).
  - apply (IH i j); [lia|done..].
Qed.

(** Every grain grown from the state [st] on starts at a pixel that is still
    unknown in [st]. *)
Lemma grown_seeds_unknown self m fuel st gr :
  shape_ok self st.1.1 -> 1 ≤ st.2 -> gr ∈ grown self m fuel st ->
  exists seed, head (coordList gr) = Some seed ∧ 0 ≤ seed.1 ∧ 0 ≤ seed.2 ∧
    label st.1.1 seed = Some 0.
Proof.
  revert st. induction fuel as [|fuel IH]; intros [[g gl] k] Hsh Hk Hgr;
    cbn [grown fst snd] in *.
  { destruct (np_where_eq g 0) as [|[row col] rest]; by apply elem_of_nil in Hgr. }
  destruct (np_where_eq g 0) as [|[row col] rest] eqn:E; [by apply elem_of_nil in Hgr|].
  destruct (findGrains_pass self m fuel row col (g, gl, k)) as [st'| |] eqn:Hp;
    [|by apply elem_of_nil in Hgr..].
  destruct (pass_effect self m fuel g gl k row col rest st' Hsh Hk E Hp)
    as (cg & v & g1 & Hpg & Hfi & Hl0 & Hsh' & Hlab & Hcase).
  rewrite Hpg in Hgr. simpl in Hgr. apply elem_of_cons in Hgr as [->|Hgr].
  - exists (col, row). split; [apply (fi_head Hfi)|].
    destruct (np_where_head g row col rest E) as (? & ? & ?). done.
  - destruct (IH st' Hsh') as (seed & Hh & H1 & H2 & Hl); [|done|].
    { destruct Hcase as [(_ & _ & _ & ->)|(_ & _ & _ & ->)]; lia. }
    exists seed. split; [done|]. split; [done|]. split; [done|].
    rewrite Hlab in Hl by done. case_decide; [|done].
    destruct Hcase as [(_ & -> & _)|(_ & -> & _)]; [done|].
    injection Hl as ->. lia.
Qed.

Lemma grown_sorted self m fuel st :
  shape_ok self st.1.1 -> 1 ≤ st.2 ->
  StronglySorted seed_before (grown self m fuel st).
Proof.
  revert st. induction fuel as [|fuel IH]; intros [[g gl] k] Hsh Hk;
    cbn [grown fst snd] in *.
  { destruct (np_where_eq g 0) as [|[row col] rest]; constructor. }
  destruct (np_where_eq g 0) as [|[row col] rest] eqn:E; [constructor|].
  destruct (findGrains_pass self m fuel row col (g, gl, k)) as [st'| |] eqn:Hp;
    [|constructor..].
  destruct (pass_effect self m fuel g gl k row col rest st' Hsh Hk E Hp)
    as (cg & v & g1 & Hpg & Hfi & Hl0 & Hsh' & Hlab & Hcase).
  assert (1 ≤ st'.2) as Hk'
    by (destruct Hcase as [(_ & _ & _ & ->)|(_ & _ & _ & ->)]; lia).
  rewrite Hpg. simpl. constructor; [by apply IH|].
  apply Forall_forall. intros gr Hgr.
  destruct (grown_seeds_unknown self m fuel st' gr Hsh' Hk' Hgr)
    as (seed & Hh & H1 & H2 & Hl).
  exists (col, row), seed. split; [apply (fi_head Hfi)|]. split; [done|].
  rewrite Hlab in Hl by done.
  assert (v ≠ 0) as Hv by (destruct Hcase as [(_ & -> & _)|(_ & -> & _)]; lia).
  case_decide as Hin; [congruence|].
  apply (np_where_first g row col rest seed E H1 H2 Hl).
  intros ->. apply Hin. pose proof (fi_head Hfi) as Hhead. simpl in Hhead.
  destruct (coordList cg); simplify_eq/=. apply elem_of_cons. by left.
Qed.

(** ** Grids one pixel wide or high *)

Lemma getitem_Raise {A} (a : ndarray A) t s e : getitem a t s = Raise e -> e = IndexError.
Proof. unfold getitem. destruct (cell a t s); [done|]. by intros [= <-]. Qed.

Lemma setitem_Raise {A} (a : ndarray A) t s v e :
  setitem a t s v = Raise e -> e = IndexError.
Proof.
  unfold setitem. destruct (norm_index (length a) t); [|by intros [= <-]].
  destruct (a !! n); [|by intros [= <-]].
  destruct (norm_index (length l) s); [done|by intros [= <-]].
Qed.

Lemma visit_Raise self k x y st mv e :
  visit self k x y st mv = Raise e -> e = IndexError.
Proof.
  destruct st as [[g cg] ne], mv as [s t]. unfold visit.
  destruct (getitem g t s) as [lab|e'|] eqn:El; simpl;
    [|intros [= <-]; by eapply getitem_Raise|done].
  assert (forall ne' : list (Z * Z),
            (maxShear ← getitem (max_shear self) (y + cropDists_1_0 self)
                                (x + cropDists_0_0 self);
             g' ← setitem g t s k;
             mret (g', addPoint cg (s, t) maxShear, ne') : outcome fill_state)
            = Raise e ->
            e = IndexError) as Hclaim.
  { intros ne'. destruct (getitem (max_shear self) _ _) as [ms|e'|] eqn:Em; simpl;
      [|intros [= <-]; by eapply getitem_Raise|done].
    destruct (setitem g t s k) as [g'|e'|] eqn:Es; simpl;
      [done|intros [= <-]; by eapply setitem_Raise|done]. }
  case_bool_decide; [apply Hclaim|].
  destruct (bool_decide (lab = -1) && (bool_decide (s > x) || bool_decide (t > y)));
    [apply Hclaim|done].
Qed.

Lemma visit_shape self k x y st mv st' :
  0 ≤ mv.1 -> 0 ≤ mv.2 ->
  shape_ok self st.1.1 -> visit self k x y st mv = Ret st' -> shape_ok self st'.1.1.
Proof.
  destruct st as [[g cg] ne], mv as [s t], st' as [[g' cg'] ne'].
  intros H1 H2 Hsh (lab & _ & Hcase)%visit_Ret. simpl in *.
  destruct Hcase as [(_ & Hset & _)|[(_ & _ & Hset & _)|(_ & _ & -> & _)]]; [| |done].
  - by apply (setitem_label g (s, t) k g' H1 H2 Hset).
  - by apply (setitem_label g (s, t) k g' H1 H2 Hset).
Qed.

Lemma visit_outside self k x y st s t :
  shape_ok self st.1.1 -> 0 ≤ s -> 0 ≤ t -> ¬ inb self (s, t) ->
  visit self k x y st (s, t) = Raise IndexError.
Proof.
  destruct st as [[g cg] ne]. intros Hsh Hs Ht Hout. unfold visit.
  assert (getitem g t s = Raise IndexError) as ->; [|done].
  unfold getitem. destruct (cell g t s) as [v|] eqn:Ec; [|done].
  destruct Hout. by apply (label_Some_inb self g (s, t) v).
Qed.

(** On a grid one pixel wide or one pixel high, the moves from any pixel
    include one outside the grid. *)
Lemma moves_from_narrow self x y :
  inb self (x, y) -> xDim self = 1 ∨ yDim self = 1 ->
  exists q, q ∈ moves_from self x y ∧ 0 ≤ q.1 ∧ 0 ≤ q.2 ∧ ¬ inb self q.
Proof.
  intros [Hx Hy] Hnarrow. simpl in *.
  destruct (decide (xDim self = 1)) as [E|E].
  - exists (x + 1, y). unfold inb. simpl. split; [|lia].
    unfold moves_from. rewrite (bool_decide_true (x ≤ 0)) by lia.
    repeat case_bool_decide; simpl; apply elem_of_cons; by left.
  - assert (yDim self = 1) as Ey by (by destruct Hnarrow).
    exists (x, y + 1). unfold inb. simpl. split; [|lia].
    unfold moves_from. rewrite (bool_decide_true (y ≤ 0)) by lia.
    repeat case_bool_decide; simpl; repeat (apply elem_of_cons; (by left) || right);
      apply elem_of_cons; by left.
Qed.

Lemma expand_narrow self k st p :
  shape_ok self st.1.1 -> inb self p -> xDim self = 1 ∨ yDim self = 1 ->
  expand self k st p = Raise IndexError.
Proof.
  intros Hsh Hp Hnarrow.
  destruct (moves_from_narrow self p.1 p.2) as (q & Hq & H1 & H2 & Hout);
    [by destruct p|done|].
  unfold expand.
  assert (forall mv, mv ∈ moves_from self p.1 p.2 -> 0 ≤ mv.1 ∧ 0 ≤ mv.2) as Hnn.
  { intros mv Hmv. destruct (moves_from_adj self p.1 p.2 mv Hmv) as (_ & Ha & Hb).
    destruct Hp. split; [apply Ha|apply Hb]; lia. }
  revert st Hsh. induction (moves_from self p.1 p.2) as [|a l IH]; intros st Hsh;
    [by apply elem_of_nil in Hq|].
  simpl. destruct (visit self k p.1 p.2 st a) as [s'|e|] eqn:Ev.
  - simpl. destruct (Hnn a ltac:(apply elem_of_cons; by left)) as [Ha1 Ha2].
    pose proof (visit_shape self k p.1 p.2 st a s' Ha1 Ha2 Hsh Ev) as Hsh'.
    apply elem_of_cons in Hq as [<-|Hq].
    + destruct q as [s t]. rewrite visit_outside in Ev by done. done.
    + apply IH; [done| |done]. intros mv Hmv. apply Hnn, elem_of_cons. by right.
  - simpl. by rewrite (visit_Raise _ _ _ _ _ _ _ Ev).
  - by destruct (visit_not_Diverge self k p.1 p.2 st a).
Qed.

(** ** Where the samples of a grain are taken *)

Lemma sampled_from_mask self g mask gr :
  (forall q, q ∈ coordList gr -> 0 ≤ q.1 ∧ 0 ≤ q.2) ->
  (forall q c, 0 ≤ q.1 -> 0 ≤ q.2 -> label g q = Some c -> c = 0 ∨ c = -1 ->
     label mask q = Some c) ->
  sampled_from self g gr -> sampled_from self mask gr.
Proof.
  intros Hnn Hmask Hs i p v Hi Hv.
  destruct (Hs i p v Hi Hv) as [?|(j & q & Hj & Hq & Hadj & Hq0 & Hf)]; [by left|].
  right. exists j, q. split; [done|]. split; [done|]. split; [done|]. split; [|done].
  destruct (Hnn q (list_elem_of_lookup_2 _ _ _ Hq)) as [H1 H2].
  apply (Hmask q 0 H1 H2 Hq0). by left.
Qed.

Lemma addPoint_sampled self g0 cg xy q ms :
  length (maxShearList cg) = length (coordList cg) ->
  sampled_from self g0 cg -> interior g0 (coordList cg) xy -> adj4 xy q ->
  field_sample self xy = Ret ms ->
  sampled_from self g0 (addPoint cg q ms).
Proof.
  intros Hlen Hs [Hxy Hxy0] Hadj Hms i p v Hi Hv. simpl in Hi, Hv.
  destruct (decide (i < length (coordList cg))%nat) as [Hlt|Hge].
  - rewrite lookup_app_l in Hi by lia. rewrite lookup_app_l in Hv by lia.
    destruct (Hs i p v Hi Hv) as [?|(j & q' & Hj & Hq' & Hadj' & Hq0 & Hf)]; [by left|].
    right. exists j, q'. split; [done|]. split; [|done].
    by apply lookup_app_l_Some.
  - rewrite lookup_app_r in Hi by lia. rewrite lookup_app_r in Hv by lia.
    rewrite Hlen in Hv.
    destruct (i - length (coordList cg))%nat as [|n] eqn:En; simplify_eq/=.
    apply list_elem_of_lookup in Hxy as [j Hj]. right. exists j, xy.
    split; [apply lookup_lt_Some in Hj; lia|]. split; [by apply lookup_app_l_Some|].
    done.
Qed.

Section SampleOrigin.
Variables (self : Map) (g0 : ndarray Z) (k : Z) (seed : Z * Z).
Hypothesis Hk0 : k ≠ 0.
Hypothesis Hk1 : k ≠ -1.

Local Abbreviation fill_inv := (fill_inv self g0 k seed).
Local Abbreviation interior := (interior g0).
Local Abbreviation sampled := (sampled_from self g0).

Lemma visit_sampled edge x y st mv st' :
  fill_inv edge st -> interior (coordList st.1.2) (x, y) ->
  mv ∈ moves_from self x y ->
  visit self k x y st mv = Ret st' ->
  sampled st.1.2 -> sampled st'.1.2.
Proof.
  destruct st as [[g cg] ne], st' as [[g' cg'] ne'], mv as [s t].
  intros Hinv Hxy Hmv (lab & Hl & Hcase)%visit_Ret Hs. simpl in *.
  destruct (moves_from_adj _ _ _ _ Hmv) as (Hadj & _).
  pose proof (fi_samples Hinv) as Hlen. simpl in Hlen.
  destruct Hcase as [H|[H|H]].
  - destruct H as (_ & _ & _ & ms & Hms & ->).
    by apply (addPoint_sampled self g0 cg (x, y) (s, t) ms).
  - destruct H as (_ & _ & _ & _ & ms & Hms & ->).
    by apply (addPoint_sampled self g0 cg (x, y) (s, t) ms).
  - by destruct H as (_ & _ & _ & -> & _).
Qed.

Lemma expand_sampled edge st p st' :
  fill_inv edge st -> interior (coordList st.1.2) p ->
  expand self k st p = Ret st' ->
  sampled st.1.2 -> sampled st'.1.2.
Proof.
  destruct p as [x y]. intros Hinv Hp Hr Hs. unfold expand in Hr. simpl in Hr.
  refine (proj2 (proj2 (for_each_inv
            (fun _ s => fill_inv edge s ∧ coordList st.1.2 ⊆ coordList s.1.2
                        ∧ sampled s.1.2) _ _ st st' _ _ Hr))); [done|].
  intros pre a s s' Hpre (Hi & Hsub & Hss) Hv.
  assert (Hp' : interior (coordList s.1.2) (x, y)).
  { destruct Hp. split; [|done]. by apply Hsub. }
  destruct (visit_inv self g0 k seed Hk0 Hk1 edge x y s a s' Hi Hp'
              (take_S_elem _ _ _ Hpre) Hv) as [Hi' Hsub'].
  split; [done|]. split; [by etrans|].
  by eapply (visit_sampled edge x y s a s' Hi Hp' (take_S_elem _ _ _ Hpre)).
Qed.

Lemma sweep_sampled edge st st' :
  fill_inv edge st ->
  for_each (expand self k) edge st = Ret st' ->
  sampled st.1.2 -> sampled st'.1.2.
Proof.
  intros Hinv Hr Hs.
  refine (proj2 (for_each_inv (fun _ s => fill_inv edge s ∧ sampled s.1.2)
                   _ _ st st' _ _ Hr)); [done|].
  intros pre a s s' Hpre [Hi Hss] Hv.
  assert (interior (coordList s.1.2) a) as Ha.
  { apply (fi_edge Hi). apply elem_of_app. left. by eapply take_S_elem. }
  split.
  - by eapply (expand_inv self g0 k seed Hk0 Hk1 edge s a s' Hi).
  - by eapply (expand_sampled edge s a s' Hi).
Qed.

Lemma floodFill_while_sampled fuel edge g cg g' cg' :
  fill_inv edge (g, cg, []) -> sampled cg ->
  floodFill_while self k fuel edge g cg = Ret (g', Some cg') ->
  sampled cg'.
Proof.
  revert edge g cg. induction fuel as [|fuel IH]; intros [|p edge] g cg Hinv Hs H;
    cbn [floodFill_while] in H; simplify_eq.
  inv_bind H. destruct a as [[g1 cg1] ne].
  pose proof (sweep_sampled _ _ _ Hinv Ha Hs) as Hs1.
  apply (sweep_inv self g0 k seed Hk0 Hk1) in Ha; [|done].
  destruct ne as [|q ne]; simplify_eq; [done|].
  apply (IH (q :: ne) g1 cg1); [|done|exact H].
  by apply (fill_inv_next self g0 k seed (p :: edge)).
Qed.

Hypothesis Hshape : shape_ok self g0.
Hypothesis Hseed1 : 0 ≤ seed.1.
Hypothesis Hseed2 : 0 ≤ seed.2.
Hypothesis Hseed0 : label g0 seed = Some 0.

Lemma floodFill_sampled fuel g' cg :
  floodFill self g0 seed.1 seed.2 k fuel = Ret (g', Some cg) -> sampled cg.
Proof.
  unfold floodFill. intros H. inv_bind H. inv_bind H.
  rewrite <- surjective_pairing in H.
  refine (floodFill_while_sampled fuel [seed] _ _ _ _ _ _ H).
  - by apply (fill_inv_init self g0 k seed).
  - intros i p v Hi Hv. simpl in Hi, Hv. destruct i as [|i]; simplify_eq/=.
    left. split; [done|]. unfold field_sample. by destruct p.
Qed.
End SampleOrigin.

Lemma pass_sampled self mask m fuel g gl k row col rest st' passed cg :
  seg_inv self mask m (g, gl, k) passed ->
  np_where_eq g 0 = (row, col) :: rest ->
  findGrains_pass self m fuel row col (g, gl, k) = Ret st' ->
  pass_grain self fuel row col (g, gl, k) = Some cg ->
  sampled_from self mask cg.
Proof.
  intros Hinv E Hpass Hpg.
  pose proof (si_shape Hinv) as Hsh. simpl in Hsh.
  assert (Hk : 1 ≤ k) by (pose proof (si_index Hinv) as Hidx; simpl in Hidx; lia).
  apply np_where_head in E as (Hrow & Hcol & Hl).
  unfold pass_grain in Hpg. simpl in Hpg.
  destruct (floodFill self g col row k fuel) as [[g1 [cg'|]]| |] eqn:Hff; simplify_eq.
  destruct (floodFill_inv self g k (col, row) ltac:(lia) ltac:(lia) Hsh
              Hcol Hrow Hl fuel g1 _ Hff) as (cg' & [= <-] & Hfi).
  apply (sampled_from_mask self g mask cg).
  - intros q Hq. by destruct (fi_in Hfi q Hq) as (? & ? & _).
  - intros q c H1 H2 Hc H01. by apply (si_mask Hinv q c).
  - by apply (floodFill_sampled self g k (col, row) ltac:(lia) ltac:(lia) Hsh
                Hcol Hrow Hl fuel g1 cg).
Qed.

Lemma findGrains_while_sampled self mask m fuel st st' passed :
  seg_inv self mask m st passed ->
  (forall gr, gr ∈ passed -> sampled_from self mask gr) ->
  findGrains_while self m fuel st = Ret st' ->
  forall gr, gr ∈ passed ++ grown self m fuel st -> sampled_from self mask gr.
Proof.
  revert st passed.
  induction fuel as [|fuel IH]; intros [[g gl] k] passed Hinv Hall H;
    cbn [findGrains_while grown fst snd] in *;
    destruct (np_where_eq g 0) as [|[row col] rest] eqn:E; simplify_eq.
  - rewrite app_nil_r. done.
  - rewrite app_nil_r. done.
  - inv_bind H. rewrite Ha.
    pose proof (seg_inv_pass _ _ _ _ _ _ _ _ _ _ _ _ Hinv E Ha) as Hinv'.
    destruct (pass_effect self m fuel g gl k row col rest a (si_shape Hinv)
                ltac:(pose proof (si_index Hinv) as Hi; simpl in Hi; lia) E Ha)
      as (cg & v & g1 & Hpg & _).
    rewrite Hpg in Hinv' |- *. cbn [option_list] in Hinv' |- *. rewrite app_assoc.
    apply (IH a (passed ++ [cg]) Hinv'); [|done].
    intros gr [Hgr| ->%list_elem_of_singleton]%elem_of_app; [auto|].
    by eapply pass_sampled.
Qed.

(** ** Boundary pixels next to a grain *)

Lemma pass_absorbs self mask m fuel g gl k row col rest st' passed cg :
  2 ≤ xDim self -> 2 ≤ yDim self ->
  seg_inv self mask m (g, gl, k) passed ->
  np_where_eq g 0 = (row, col) :: rest ->
  findGrains_pass self m fuel row col (g, gl, k) = Ret st' ->
  pass_grain self fuel row col (g, gl, k) = Some cg ->
  absorbs_forward self mask (passed ++ [cg]) cg.
Proof.
  intros Hx Hy Hinv E Hpass Hpg p b Hp Hp0 Hadj Hfw Hb Hb1.
  pose proof (si_shape Hinv) as Hsh. simpl in Hsh.
  assert (Hk : 1 ≤ k) by (pose proof (si_index Hinv) as Hidx; simpl in Hidx; lia).
  apply np_where_head in E as (Hrow & Hcol & Hl).
  unfold pass_grain in Hpg. simpl in Hpg.
  destruct (floodFill self g col row k fuel) as [[g1 [cg'|]]| |] eqn:Hff; simplify_eq.
  destruct (floodFill_inv self g k (col, row) ltac:(lia) ltac:(lia) Hsh
              Hcol Hrow Hl fuel g1 _ Hff) as (cg' & [= <-] & Hfi).
  destruct (fi_in Hfi p Hp) as (Hp1 & Hp2 & _ & Hg).
  assert (Hgp : label g p = Some 0).
  { destruct Hg as [?|Hg]; [done|].
    pose proof (si_mask Hinv p (-1) Hp1 Hp2 Hg ltac:(auto)). congruence. }
  destruct (label_inb self g b Hsh Hb) as [c Hc]. destruct Hb as [Hb1' Hb2'].
  destruct (decide (c = -1)) as [->|Hc1].
  { exists cg. split; [apply elem_of_app; right; by apply list_elem_of_singleton|].
    eapply (floodFill_complete self g k (col, row) ltac:(lia) ltac:(lia) Hsh
              Hcol Hrow Hl fuel g1 cg p b); eauto; by split. }
  destruct (decide (c = 0)) as [->|Hc0].
  { pose proof (si_mask Hinv b 0 ltac:(lia) ltac:(lia) Hc ltac:(auto)). congruence. }
  destruct (seg_inv_owner _ _ _ _ _ b c Hinv ltac:(lia) ltac:(lia) Hc Hc0 Hc1)
    as (gr & Hgr & Hbgr).
  exists gr. split; [|done]. apply elem_of_app. by left.
Qed.

Lemma findGrains_while_absorbs self mask m fuel st st' passed :
  2 ≤ xDim self -> 2 ≤ yDim self ->
  seg_inv self mask m st passed ->
  (forall gr, gr ∈ passed -> absorbs_forward self mask passed gr) ->
  findGrains_while self m fuel st = Ret st' ->
  forall gr, gr ∈ passed ++ grown self m fuel st ->
    absorbs_forward self mask (passed ++ grown self m fuel st) gr.
Proof.
  intros Hx Hy. revert st passed.
  induction fuel as [|fuel IH]; intros [[g gl] k] passed Hinv Hall H;
    cbn [findGrains_while grown fst snd] in *;
    destruct (np_where_eq g 0) as [|[row col] rest] eqn:E; simplify_eq.
  - rewrite app_nil_r. done.
  - rewrite app_nil_r. done.
  - inv_bind H. rewrite Ha.
    pose proof (seg_inv_pass _ _ _ _ _ _ _ _ _ _ _ _ Hinv E Ha) as Hinv'.
    destruct (pass_effect self m fuel g gl k row col rest a (si_shape Hinv)
                ltac:(pose proof (si_index Hinv) as Hi; simpl in Hi; lia) E Ha)
      as (cg & v & g1 & Hpg & _).
    rewrite Hpg in Hinv' |- *. cbn [option_list] in Hinv' |- *. rewrite app_assoc.
    apply (IH a (passed ++ [cg]) Hinv'); [|done].
    intros gr [Hgr| ->%list_elem_of_singleton]%elem_of_app.
    + intros p b Hp Hp0 Hadj Hfw Hb Hb1.
      destruct (Hall gr Hgr p b Hp Hp0 Hadj Hfw Hb Hb1) as (gr' & Hgr' & Hin).
      exists gr'. split; [apply elem_of_app; by left|done].
    + by eapply pass_absorbs.
Qed.

(** ** Counting the unknown pixels *)

Lemma where_row_NoDup v t s row : NoDup (where_row v t s row).
Proof.
  revert s. induction row as [|c row IH]; intros s; simpl; [constructor|].
  apply NoDup_app. split; [|split; [|apply IH]].
  - case_bool_decide; [apply NoDup_singleton|constructor].
  - intros p Hp Hp'. apply where_row_elem in Hp' as (_ & j & Hj & _).
    case_bool_decide; [|by apply elem_of_nil in Hp].
    apply list_elem_of_singleton in Hp as ->. simpl in Hj. lia.
Qed.

Lemma where_rows_NoDup v t a : NoDup (where_rows v t a).
Proof.
  revert t. induction a as [|row a IH]; intros t; simpl; [constructor|].
  apply NoDup_app. split; [apply where_row_NoDup|]. split; [|apply IH].
  intros p Hp Hp'. apply where_row_elem in Hp as (Hp & _).
  apply where_rows_elem in Hp' as (i & j & row' & -> & _). simpl in Hp. lia.
Qed.

Lemma NoDup_join_disjoint {A} (ls : list (list A)) :
  (forall l, l ∈ ls -> NoDup l) ->
  (forall (i j : nat) l l', i ≠ j -> ls !! i = Some l -> ls !! j = Some l' ->
     forall x, x ∈ l -> x ∉ l') ->
  NoDup (mjoin ls).
Proof.
  induction ls as [|l ls IH]; intros Hnd Hdis; [constructor|].
  change (mjoin (l :: ls)) with (l ++ mjoin ls).
  apply NoDup_app. split; [apply Hnd, elem_of_cons; by left|]. split.
  - intros x Hx (l' & Hx' & Hl')%list_elem_of_join.
    apply list_elem_of_lookup in Hl' as [j Hj].
    by apply (Hdis 0%nat (S j) l l' ltac:(lia) eq_refl Hj x).
  - apply IH.
    + intros l' Hl'. apply Hnd, elem_of_cons. by right.
    + intros i j l1 l2 Hij Hi Hj. apply (Hdis (S i) (S j) l1 l2); [lia|done..].
Qed.

Lemma swap_inj : Inj (=) (=) (fun rc : Z * Z => (rc.2, rc.1)).
Proof. intros [a b] [c d] [= -> ->]. done. Qed.

(** * Further properties: set-up, cropping and the frame shift *)

(** X5. After [setCrop] with margins that fit into the data, the right and
    bottom ones positive, the scalar field covers the cropped grid,
    [crop(max_shear)] has the shape [(yDim, xDim)], and its entry [y, x] is
    the sample [max_shear[y + yMin, x + xMin]] that [floodFill] reads for the
    pixel (x, y). *)
Theorem setCrop_field_window self xMin xMax yMin yMax :
  0 ≤ xMin -> 0 < xMax -> xMin + xMax ≤ xdim self ->
  0 ≤ yMin -> 0 < yMax -> yMin + yMax ≤ ydim self ->
  Z.of_nat (length (max_shear self)) = ydim self ->
  Forall (fun row => Z.of_nat (length row) = xdim self) (max_shear self) ->
  let self' := setCrop self xMin xMax yMin yMax in
  field_ok self' ∧
  Z.of_nat (length (crop self' (max_shear self'))) = yDim self' ∧
  Forall (fun row => Z.of_nat (length row) = xDim self') (crop self' (max_shear self')) ∧
  forall p, inb self' p ->
    exists v, field_sample self' p = Ret v ∧
      getitem (crop self' (max_shear self')) p.2 p.1 = Ret v.
Proof.
  intros Hx0 Hx1 Hx Hy0 Hy1 Hy Hrows Hcols self'.
  assert (field_ok self') as Hf.
  { unfold field_ok, self'. simpl. unfold cropDists_0_0, cropDists_1_0. simpl.
    split; [done|]. split; [done|]. split; [lia|].
    eapply Forall_impl; [exact Hcols|]. intros row Hrow. simpl in *. lia. }
  split; [done|]. split; [|split].
  - unfold crop. rewrite length_fmap.
    unfold self', cropDists_1_0, cropDists_1_1. simpl.
    rewrite py_slice_length by lia. lia.
  - unfold crop. apply Forall_fmap, py_slice_Forall.
    eapply Forall_impl; [exact Hcols|]. intros row Hrow. unfold compose.
    cbn beta in *. unfold self', cropDists_0_0, cropDists_0_1. simpl.
    rewrite py_slice_length by lia. lia.
  - intros p [Hp1 Hp2].
    destruct (field_sample_inb self' p Hf) as [v Hv]; [done|].
    exists v. split; [done|]. apply getitem_Ret.
    unfold field_sample in Hv. apply getitem_Ret in Hv. rewrite <- Hv.
    unfold self' in *. simpl in *.
    apply (crop_cell _ _ (xdim self)); unfold cropDists_0_0, cropDists_0_1,
      cropDists_1_0, cropDists_1_1; simpl; try done; lia.
Qed.

Lemma setCrop_field_window_witness :
  field_ok (setCrop map_4x4 1 1 1 1) ∧
  crop (setCrop map_4x4 1 1 1 1) field_4x4 = [[6; 7]; [10; 11]]%float ∧
  exists v, field_sample (setCrop map_4x4 1 1 1 1) (1, 0) = Ret v ∧
    getitem (crop (setCrop map_4x4 1 1 1 1) field_4x4) 0 1 = Ret v.
Proof.
  destruct (setCrop_field_window map_4x4 1 1 1 1) as (Hf & _ & _ & Hs);
    [lia|lia|simpl; lia|lia|lia|simpl; lia|reflexivity|
     unfold map_4x4; simpl; repeat constructor|].
  split; [done|]. split; [reflexivity|].
  apply (Hs (1, 0)). unfold inb. simpl. lia.
Defined.

(** X6. A map as [__init__] leaves it has the crop distances
    [((0, xdim), (0, ydim))]: until [setCrop] is called, [crop] returns an
    array without rows for every array of at most [ydim] rows, the scalar
    field itself among them. *)
Theorem crop_before_setCrop {A} (xdim ydim : Z) ms (mapData : ndarray A) :
  0 ≤ ydim -> Z.of_nat (length mapData) ≤ ydim ->
  crop (Map_init xdim ydim ms) mapData = [].
Proof.
  intros Hy Hrows. unfold crop, cropDists_1_0, cropDists_1_1. simpl.
  by rewrite py_slice_to_zero.
Qed.

Lemma crop_before_setCrop_witness : crop map_4x4 (max_shear map_4x4) = [].
Proof. apply (crop_before_setCrop 4 4 field_4x4 field_4x4); simpl; lia. Defined.

(** X7. [_map] lays a data column of [ydim * xdim] values out row by row:
    the array has [ydim] rows of [xdim] entries, its entry [y, x] is the
    value number [y * xdim + x], and the rows joined give the column back.  A
    column of any other length raises [ValueError]. *)
Theorem _map_row_major {A} self (data_col : list A) :
  0 ≤ xdim self -> 0 ≤ ydim self ->
  (ydim self * xdim self = Z.of_nat (length data_col) ->
   exists data_map, _map self data_col = Within (Ret data_map) ∧
     Z.of_nat (length data_map) = ydim self ∧
     Forall (fun row => Z.of_nat (length row) = xdim self) data_map ∧
     concat data_map = data_col ∧
     forall y x, 0 ≤ y < ydim self -> 0 ≤ x < xdim self ->
       cell data_map y x = data_col !! Z.to_nat (y * xdim self + x)) ∧
  (ydim self * xdim self ≠ Z.of_nat (length data_col) ->
   _map self data_col = ValueError).
Proof.
  intros Hx Hy. unfold _map, np_reshape.
  rewrite (bool_decide_false (ydim self < 0)) by lia.
  rewrite (bool_decide_false (xdim self < 0)) by lia.
  split; intros Hsize.
  - rewrite bool_decide_true by done. eexists. split; [reflexivity|].
    assert (Z.to_nat (ydim self) * Z.to_nat (xdim self) = length data_col)%nat
      as Hn by nia.
    split; [rewrite chunks_length; lia|]. split; [|split].
    + eapply Forall_impl; [apply chunks_widths; lia|]. intros row Hrow.
      simpl in Hrow. lia.
    + rewrite chunks_concat, Hn. by rewrite take_ge by lia.
    + intros y x Hyr Hxr. rewrite cell_nonneg by lia.
      rewrite chunks_lookup by lia. simpl.
      rewrite lookup_take_lt by lia. rewrite lookup_drop. f_equal. nia.
  - by rewrite bool_decide_false.
Qed.

Lemma _map_row_major_witness :
  (exists data_map, _map map_4x4 (seq 0 16) = Within (Ret data_map) ∧
     concat data_map = seq 0 16 ∧ cell data_map 2 3 = Some 11%nat) ∧
  _map map_4x4 (seq 0 15) = ValueError.
Proof.
  destruct (_map_row_major map_4x4 (seq 0 16)) as [Hfit _]; [simpl; lia|simpl; lia|].
  destruct (_map_row_major map_4x4 (seq 0 15)) as [_ Hnot]; [simpl; lia|simpl; lia|].
  split.
  - destruct Hfit as (data_map & Hm & _ & _ & Hc & Hcell); [reflexivity|].
    exists data_map. split; [done|]. split; [done|].
    rewrite (Hcell 2 3) by (simpl; lia). reflexivity.
  - apply Hnot. simpl. lia.
Defined.

(** X8. For a shift without negative component, [findGrains] puts
    [ebsdShift[1]] rows and [ebsdShift[0]] columns of zeros before the label
    grid: the pixel (x, y) moves to (x + xShift, y + yShift), the cells above
    and to the left are 0, and the slice [[yShift:, xShift:]] that
    [warpToDicFrame] takes gives the grid back.  A negative component raises
    [ValueError]. *)
Theorem pad_by_shift_round_trip self (g : ndarray Z) :
  shape_ok self g -> g ≠ [] ->
  (0 ≤ (ebsdShift self).1 -> 0 ≤ (ebsdShift self).2 ->
   exists padded, pad_by_shift self g = Within (Ret padded) ∧
     Z.of_nat (length padded) = yDim self + (ebsdShift self).2 ∧
     Forall (fun row => Z.of_nat (length row) = xDim self + (ebsdShift self).1)
            padded ∧
     (forall x y, 0 ≤ x -> 0 ≤ y ->
        cell padded (y + (ebsdShift self).2) (x + (ebsdShift self).1) = cell g y x) ∧
     (forall x y, 0 ≤ x < xDim self + (ebsdShift self).1 ->
        0 ≤ y < yDim self + (ebsdShift self).2 ->
        x < (ebsdShift self).1 ∨ y < (ebsdShift self).2 ->
        cell padded y x = Some 0) ∧
     (fun row => py_slice_from row (ebsdShift self).1)
       <$> py_slice_from padded (ebsdShift self).2 = g) ∧
  ((ebsdShift self).1 < 0 ∨ (ebsdShift self).2 < 0 ->
   pad_by_shift self g = ValueError).
Proof.
  intros Hsh Hne. pose proof Hsh as [Hrows Hw]. split.
  - intros Hsx Hsy. eexists. split; [by apply pad_by_shift_value|].
    destruct (ebsdShift self) as [sx sy]. cbn [fst snd] in *.
    assert (0 ≤ xDim self) as HxDim.
    { rewrite <- (shape1_shape_ok self g Hsh Hne). destruct g; simpl; lia. }
    assert (Hcell : forall x y, 0 ≤ x -> 0 ≤ y ->
              cell (replicate (Z.to_nat sy) (replicate (Z.to_nat (xDim self + sx)) 0)
                    ++ ((replicate (Z.to_nat sx) 0 ++.) <$> g)) (y + sy) (x + sx)
              = cell g y x).
    { intros x y Hx Hy. rewrite !cell_nonneg by lia.
      rewrite lookup_app_r by (rewrite length_replicate; lia).
      rewrite length_replicate.
      replace (Z.to_nat (y + sy) - Z.to_nat sy)%nat with (Z.to_nat y) by lia.
      rewrite list_lookup_fmap. destruct (g !! Z.to_nat y) as [row|]; [|done]. simpl.
      rewrite lookup_app_r by (rewrite length_replicate; lia).
      rewrite length_replicate. f_equal. lia. }
    split; [|split; [|split; [done|split]]].
    + rewrite length_app, length_replicate, length_fmap. lia.
    + apply Forall_app. split.
      * apply Forall_replicate. rewrite length_replicate. lia.
      * apply Forall_fmap. eapply Forall_impl; [exact Hw|]. intros row Hrow.
        simpl in *. rewrite length_app, length_replicate. lia.
    + intros x y Hx Hy Hpad. rewrite cell_nonneg by lia.
      destruct (decide (y < sy)) as [Hlt|Hge].
      * rewrite lookup_app_l by (rewrite length_replicate; lia).
        rewrite lookup_replicate_2 by lia. simpl.
        by rewrite lookup_replicate_2 by lia.
      * rewrite lookup_app_r by (rewrite length_replicate; lia).
        rewrite length_replicate, list_lookup_fmap.
        destruct (lookup_lt_is_Some_2 g (Z.to_nat y - Z.to_nat sy)) as [row Hrow];
          [lia|].
        rewrite Hrow. simpl. rewrite lookup_app_l by (rewrite length_replicate; lia).
        by rewrite lookup_replicate_2 by lia.
    + rewrite (py_slice_from_drop _ sy) by done.
      rewrite drop_app_length' by (by rewrite length_replicate).
      rewrite <- list_fmap_compose. rewrite <- (list_fmap_id g) at 2.
      apply list_fmap_ext. intros i row _. simpl.
      rewrite py_slice_from_drop by done.
      by rewrite drop_app_length' by (by rewrite length_replicate).
  - intros Hneg. unfold pad_by_shift, np_full.
    destruct (decide ((ebsdShift self).2 < 0)) as [Hy|Hy].
    + rewrite (bool_decide_true ((ebsdShift self).2 ≠ 0)) by lia.
      by rewrite (bool_decide_true ((ebsdShift self).2 < 0)) by done.
    + assert ((ebsdShift self).1 < 0) as Hx by (destruct Hneg; [done|lia]).
      rewrite (bool_decide_false ((ebsdShift self).2 < 0)) by done.
      assert (forall d : ndarray Z,
                (if bool_decide ((ebsdShift self).1 ≠ 0)
                 then zeros ← (if bool_decide (shape0 d < 0)
                                  || bool_decide ((ebsdShift self).1 < 0)
                               then ValueError
                               else mret (replicate (Z.to_nat (shape0 d))
                                            (replicate (Z.to_nat (ebsdShift self).1) 0)));
                      np_hstack zeros d
                 else mret d) = ValueError) as Hh.
      { intros d. rewrite (bool_decide_true ((ebsdShift self).1 ≠ 0)) by lia.
        rewrite (bool_decide_true ((ebsdShift self).1 < 0)) by done.
        by rewrite orb_true_r. }
      destruct (decide ((ebsdShift self).2 = 0)) as [E|E].
      * rewrite (bool_decide_false ((ebsdShift self).2 ≠ 0)) by (intros H; by apply H).
        simpl. apply Hh.
      * rewrite (bool_decide_true ((ebsdShift self).2 ≠ 0)) by done.
        rewrite (bool_decide_false (shape1 g < 0)) by (destruct g; simpl; lia).
        simpl. unfold np_vstack.
        assert (shape1 (replicate (Z.to_nat (ebsdShift self).2)
                          (replicate (Z.to_nat (shape1 g)) 0)) = shape1 g) as Ev.
        { destruct (Z.to_nat (ebsdShift self).2) as [|n] eqn:En; [lia|]. simpl.
          rewrite length_replicate. destruct g; simpl; lia. }
        rewrite (bool_decide_true _ Ev). simpl. apply Hh.
Qed.

Lemma pad_by_shift_round_trip_witness :
  (exists padded, pad_by_shift shifted_map labels_3x2 = Within (Ret padded) ∧
     padded = [[0; 0; 0; 0]; [0; 0; 0; 0]; [0; 1; -1; 2]; [0; 1; -1; 2]] ∧
     (fun row => py_slice_from row 1) <$> py_slice_from padded 2 = labels_3x2) ∧
  pad_by_shift (setEbsdShift shifted_map (Some (-1)) None) labels_3x2 = ValueError.
Proof.
  destruct (pad_by_shift_round_trip shifted_map labels_3x2) as [Hpos _];
    [unfold shape_ok; compute_done|discriminate|].
  destruct (pad_by_shift_round_trip (setEbsdShift shifted_map (Some (-1)) None)
              labels_3x2) as [_ Hneg];
    [unfold shape_ok; compute_done|discriminate|].
  split.
  - destruct Hpos as (padded & Hp & _ & _ & _ & _ & Hback); [simpl; lia|simpl; lia|].
    exists padded. split; [done|]. split; [|done].
    assert (Within (Ret padded) = pad_by_shift shifted_map labels_3x2) as E by done.
    vm_compute in E. by injection E as ->.
  - apply Hneg. left. simpl. lia.
Defined.

(** X9. When the shift has no negative component and the warp returns an
    image of the shape it is asked for, [warpToDicFrame] returns an image of
    the shape [(yDim, xDim)] whose pixel (x, y) is the pixel
    (x + xShift, y + yShift) of the warped image. *)
Theorem warpToDicFrame_window tf_warp self mapData warpedMap :
  0 ≤ (ebsdShift self).1 -> 0 ≤ (ebsdShift self).2 ->
  0 ≤ xDim self -> 0 ≤ yDim self ->
  tf_warp mapData (yDim self + (ebsdShift self).2, xDim self + (ebsdShift self).1)
    = Within (Ret warpedMap) ->
  Z.of_nat (length warpedMap) = yDim self + (ebsdShift self).2 ->
  Forall (fun row => Z.of_nat (length row) = xDim self + (ebsdShift self).1)
         warpedMap ->
  exists image, warpToDicFrame tf_warp self mapData = Within (Ret image) ∧
    Z.of_nat (length image) = yDim self ∧
    Forall (fun row => Z.of_nat (length row) = xDim self) image ∧
    forall x y, 0 ≤ x -> 0 ≤ y ->
      cell image y x
      = cell warpedMap (y + (ebsdShift self).2) (x + (ebsdShift self).1).
Proof.
  intros Hsx Hsy Hx Hy Hwarp Hrows Hw. unfold warpToDicFrame. rewrite Hwarp. simpl.
  eexists. split; [reflexivity|].
  destruct (slice_from_shape warpedMap _ _ _ _ Hsx Hsy Hx Hy Hrows Hw) as [H1 H2].
  split; [done|]. split; [done|].
  intros x y Hx0 Hy0. by apply slice_from_cell.
Qed.

Lemma warpToDicFrame_window_witness :
  exists image,
    warpToDicFrame warp_identity shifted_map
      [[0; 0; 0; 0]; [0; 0; 0; 0]; [0; 1; 2; 3]; [0; 4; 5; 6]]%float
    = Within (Ret image) ∧
    image = [[1; 2; 3]; [4; 5; 6]]%float ∧
    cell image 1 2 = Some 6%float.
Proof.
  destruct (warpToDicFrame_window warp_identity shifted_map
              [[0; 0; 0; 0]; [0; 0; 0; 0]; [0; 1; 2; 3]; [0; 4; 5; 6]]%float
              [[0; 0; 0; 0]; [0; 0; 0; 0]; [0; 1; 2; 3]; [0; 4; 5; 6]]%float)
    as (image & Hi & _ & _ & Hc);
    [simpl; lia|simpl; lia|simpl; lia|simpl; lia|reflexivity|reflexivity|
     repeat constructor|].
  exists image. split; [done|].
  assert (Within (Ret image)
          = warpToDicFrame warp_identity shifted_map
              [[0; 0; 0; 0]; [0; 0; 0; 0]; [0; 1; 2; 3]; [0; 4; 5; 6]]%float) as E by done.
  vm_compute in E. injection E as ->. split; reflexivity.
Defined.

(** X10. Whatever the image library returns, the array that [boundaries]
    returns holds only 0 and -1; and it has the shape [(yDim, xDim)] when the
    shift has no negative component, the warp returns the shape it is asked
    for, and the skeleton and the small-object filter keep the shape of their
    argument.  It is then a mask that the segmentation can start from: on a
    grid at least two pixels wide and high under a field that covers it, the
    segmentation of it returns with no unknown point left. *)
Theorem boundaries_is_mask tf_warp skeletonize remove_small_objects self
    ebsd_boundaries b :
  boundaries tf_warp skeletonize remove_small_objects self ebsd_boundaries
    = Within (Ret b) ->
  is_mask b ∧
  (0 ≤ (ebsdShift self).1 -> 0 ≤ (ebsdShift self).2 ->
   0 ≤ xDim self -> 0 ≤ yDim self ->
   (forall image rows cols warped, tf_warp image (rows, cols) = Within (Ret warped) ->
      Z.of_nat (length warped) = rows ∧
      Forall (fun row => Z.of_nat (length row) = cols) warped) ->
   (forall a a', skeletonize a = Within (Ret a') -> length <$> a' = length <$> a) ->
   (forall a a', remove_small_objects a = Within (Ret a') ->
      length <$> a' = length <$> a) ->
   shape_ok self b ∧
   (field_ok self -> 2 ≤ xDim self -> 2 ≤ yDim self ->
    forall m fuel, (unknown b < fuel)%nat ->
      exists st, segment self b m fuel = Ret st ∧ np_where_eq st.1.1 0 = [])).
Proof.
  intros Hb. unfold boundaries in Hb.
  inv_checked Hb. inv_checked Hb. inv_checked Hb.
  apply checked_mret_Ret in Hb. subst b.
  assert (is_mask (elementwise (fun b : bool => - (if b then 1 else 0)) a1)) as Hmask.
  { unfold is_mask, elementwise. apply Forall_fmap, Forall_true.
    intros row. apply Forall_fmap, Forall_true. intros []; simpl; auto. }
  split; [done|].
  intros Hsx Hsy Hx Hy Hwarp Hskel Hrem.
  assert (shape_ok self (elementwise (fun b : bool => - (if b then 1 else 0)) a1))
    as Hshape.
  { unfold warpToDicFrame in Ha. inv_checked Ha. apply checked_mret_Ret in Ha.
    destruct (Hwarp _ _ _ _ Ha2) as [Hrows Hw].
    destruct (slice_from_shape a2 _ _ _ _ Hsx Hsy Hx Hy Hrows Hw) as [H1 H2].
    rewrite Ha in H1, H2.
    apply (shape_of_lengths _ a _ _); [|done..].
    rewrite elementwise_shape, (Hrem _ _ Ha1), (Hskel _ _ Ha0).
    apply elementwise_shape. }
  split; [done|].
  intros Hf Hx2 Hy2 m fuel Hfuel.
  destruct (segment_returns self _ m fuel Hf Hx2 Hy2 Hshape Hmask Hfuel) as [st Hr].
  exists st. split; [done|]. by destruct (segment_inv _ _ _ _ _ Hshape Hmask Hr).
Qed.

Lemma boundaries_is_mask_witness :
  exists b,
    boundaries warp_identity keep_all keep_all shifted_map ebsd_boundaries_4x4
    = Within (Ret b) ∧
    b = [[0; -1; 0]; [0; -1; 0]] ∧ is_mask b ∧ shape_ok shifted_map b ∧
    exists st, segment shifted_map b 1 5 = Ret st ∧ np_where_eq st.1.1 0 = [].
Proof.
  eexists. split; [vm_compute; reflexivity|]. split; [reflexivity|].
  destruct (boundaries_is_mask warp_identity keep_all keep_all shifted_map
              ebsd_boundaries_4x4 [[0; -1; 0]; [0; -1; 0]]) as [Hm Hs];
    [vm_compute; reflexivity|].
  split; [done|].
  destruct Hs as [Hsh Hseg]; try (simpl; lia).
  - intros image rows cols warped Hw. unfold warp_identity in Hw.
    case_bool_decide as E; [|done]. apply checked_mret_Ret in Hw. subst warped.
    simpl in E. by destruct E as [E1 E2].
  - intros a a' [= ->]. done.
  - intros a a' [= ->]. done.
  - split; [done|]. apply Hseg; try (simpl; lia).
    + unfold field_ok. compute_done.
    + vm_compute. lia.
Defined.

(** * Further properties: the arrays that are drawn *)

(** X11. [extremeCoords] of a grain with at least one pixel is its tight
    bounding box: every pixel lies within [x0..xmax] and [y0..ymax], and each
    of the four bounds is the coordinate of some pixel.  A grain without
    pixels raises [IndexError]. *)
Theorem extremeCoords_bounding_box g :
  (coordList g = [] -> extremeCoords g = Raise IndexError) ∧
  (coordList g ≠ [] ->
   exists x0 y0 xmax ymax, extremeCoords g = Ret (x0, y0, xmax, ymax) ∧
     (forall p, p ∈ coordList g -> x0 ≤ p.1 ≤ xmax ∧ y0 ≤ p.2 ≤ ymax) ∧
     (exists p, p ∈ coordList g ∧ p.1 = x0) ∧
     (exists p, p ∈ coordList g ∧ p.2 = y0) ∧
     (exists p, p ∈ coordList g ∧ p.1 = xmax) ∧
     (exists p, p ∈ coordList g ∧ p.2 = ymax)).
Proof.
  split.
  - intros E. unfold extremeCoords. by rewrite E.
  - apply extremeCoords_Ret.
Qed.

(** X12. [grainOutline(bg, fg)], with [fg] an integer that an int64 holds
    and [bg] such an integer or the default [np.nan], of a grain with at least
    one pixel is an array over the bounding box, [ymax - y0 + 1] rows of
    [xmax - x0 + 1] entries, which holds [fg] at [y - y0, x - x0] for every
    pixel (x, y) of the grain and everywhere else [bg], or for [np.nan] the
    integer that the platform converts it to.  A grain without pixels raises
    [IndexError]. *)
Theorem grainOutline_marks_pixels nan_as_int g bg fg :
  (coordList g = [] -> grainOutline nan_as_int g bg fg = Within (Raise IndexError)) ∧
  (coordList g ≠ [] ->
   exists x0 y0 xmax ymax outline,
     extremeCoords g = Ret (x0, y0, xmax, ymax) ∧
     grainOutline nan_as_int g bg fg = Within (Ret outline) ∧
     has_shape outline (ymax - y0 + 1) (xmax - x0 + 1) ∧
     forall x y, x0 ≤ x ≤ xmax -> y0 ≤ y ≤ ymax ->
       cell outline (y - y0) (x - x0)
       = Some (if decide ((x, y) ∈ coordList g) then int64_val fg
               else match bg with
                    | ColourInt v => int64_val v
                    | ColourNan => int64_val nan_as_int
                    end)).
Proof.
  split.
  - intros E. unfold grainOutline, extremeCoords. by rewrite E.
  - intros Hne.
    destruct (grainOutline_spec nan_as_int g bg fg Hne)
      as (x0 & y0 & xmax & ymax & outline & He & Hrun & Hsh & Hc).
    exists x0, y0, xmax, ymax, outline. split; [done|]. split; [done|]. split; [done|].
    intros x y Hx Hy. rewrite (Hc x y Hx Hy). by destruct bg.
Qed.

Lemma grainOutline_marks_pixels_witness :
  extremeCoords grain_L = Ret (1, 1, 2, 2) ∧
  grainOutline (mk_int64 (- 2 ^ 63) eq_refl) grain_L ColourNan int64_0
  = Within (Ret [[0; 0]; [0; - 2 ^ 63]]) ∧
  grainOutline (mk_int64 (- 2 ^ 63) eq_refl) grain_L (ColourInt int64_0) int64_1
  = Within (Ret [[1; 1]; [1; 0]]) ∧
  exists outline,
    grainOutline int64_0 grain_L (ColourInt (mk_int64 7 eq_refl)) (mk_int64 (-3) eq_refl)
    = Within (Ret outline) ∧
    cell outline (1 - 1) (2 - 1) = Some (-3) ∧ cell outline (2 - 1) (2 - 1) = Some 7.
Proof.
  split; [reflexivity|]. split; [reflexivity|]. split; [reflexivity|].
  destruct (proj2 (grainOutline_marks_pixels int64_0 grain_L
                     (ColourInt (mk_int64 7 eq_refl)) (mk_int64 (-3) eq_refl)))
    as (x0 & y0 & xmax & ymax & outline & He & Hrun & _ & Hc); [discriminate|].
  vm_compute in He. injection He as <- <- <- <-.
  exists outline. split; [done|]. split.
  - by rewrite (Hc 2 1) by lia.
  - by rewrite (Hc 2 2) by lia.
Defined.

(** X13. For a grain whose pixels are distinct and have one sample each,
    the image that [Grain.plotMaxShear] shows covers the bounding box and
    holds, at [y - y0, x - x0], the sample stored with the pixel (x, y) times
    the multiplier (100 for percent, 1 otherwise), and [nan] where the box
    has no pixel of the grain. *)
Theorem Grain_plotMaxShear_image g plotPercent :
  coordList g ≠ [] -> NoDup (coordList g) ->
  length (maxShearList g) = length (coordList g) ->
  exists x0 y0 xmax ymax image,
    extremeCoords g = Ret (x0, y0, xmax, ymax) ∧
    Grain_plotMaxShear g plotPercent = Within (Ret image) ∧
    has_shape image (ymax - y0 + 1) (xmax - x0 + 1) ∧
    (forall (i : nat) p v, coordList g !! i = Some p -> maxShearList g !! i = Some v ->
       cell image (p.2 - y0) (p.1 - x0)
       = Some (v * (if plotPercent then 100 else 1))%float) ∧
    (forall x y, x0 ≤ x ≤ xmax -> y0 ≤ y ≤ ymax -> (x, y) ∉ coordList g ->
       cell image (y - y0) (x - x0) = Some nan).
Proof.
  intros Hne Hnd Hlen.
  destruct (extremeCoords_Ret g Hne)
    as (x0 & y0 & xmax & ymax & He & Hbox & (px & Hpx & _) & _).
  pose proof (Hbox px Hpx) as Hpos.
  destruct (np_full_Ret (ymax - y0 + 1) (xmax - x0 + 1) nan) as (a0 & Hfull & Hsh & Hbg);
    [lia..|].
  destruct (writes_painted (zip (coordList g) (maxShearList g)) a0
              (ymax - y0 + 1) (xmax - x0 + 1) x0 y0 Hsh) as (a & Hr & Hsh' & Hc).
  { intros [c v] Hcv. apply elem_of_zip_l in Hcv. simpl.
    pose proof (Hbox c Hcv). lia. }
  exists x0, y0, xmax, ymax. eexists. split; [done|]. split; [|split; [|split]].
  - unfold Grain_plotMaxShear. rewrite He. simpl. rewrite Hfull. simpl.
    erewrite for_each_ext; [rewrite Hr; simpl; reflexivity|].
    by intros s [c v].
  - eapply has_shape_lengths; [apply elementwise_shape|done].
  - intros i p v Hi Hv. rewrite elementwise_cell.
    pose proof (Hbox p (list_elem_of_lookup_2 _ _ _ Hi)) as Hp.
    replace p with (p.1, p.2) in Hi by (by destruct p).
    rewrite Hc by lia. rewrite Hbg by lia. simpl.
    destruct (painted_zip (coordList g) (maxShearList g) nan (p.1, p.2) Hnd Hlen)
      as [_ Hv'].
    by rewrite (Hv' i v Hi Hv).
  - intros x y Hx Hy Hnin. rewrite elementwise_cell.
    rewrite Hc by lia. rewrite Hbg by lia. simpl.
    destruct (painted_zip (coordList g) (maxShearList g) nan (x, y) Hnd Hlen)
      as [Hd _].
    rewrite (Hd Hnin). by destruct plotPercent.
Qed.

Lemma Grain_plotMaxShear_image_witness :
  exists image,
    extremeCoords grain_L = Ret (1, 1, 2, 2) ∧
    Grain_plotMaxShear grain_L true = Within (Ret image) ∧
    image = [[100; 200]; [300; nan]]%float ∧
    cell image (1 - 1) (2 - 1) = Some (2 * 100)%float.
Proof.
  destruct (Grain_plotMaxShear_image grain_L true)
    as (x0 & y0 & xmax & ymax & image & He & Hi & _ & Hc & _);
    [discriminate|compute_done|reflexivity|].
  vm_compute in He. injection He as <- <- <- <-.
  exists image. split; [reflexivity|]. split; [done|].
  split; [|apply (Hc 1%nat (2, 1) 2%float); reflexivity].
  assert (Within (Ret image) = Grain_plotMaxShear grain_L true) as E by done.
  vm_compute in E. by injection E as ->.
Defined.

(** X14. On a map that [setCrop] has given integer sizes, when every id of
    [grainIds] indexes a grain of the registry that has at least one pixel
    and lies inside the cropped grid, [highlightGrains] draws an overlay of
    the shape [(yDim, xDim)] that is 1 exactly on the pixels of these grains
    and 0 elsewhere.  On a map whose sizes are still the floats of
    [__init__] it raises [TypeError], whatever the ids. *)
Theorem highlightGrains_union nan_as_int self grainIds :
  (dims_int self = false ->
   highlightGrains nan_as_int self grainIds = Within (Raise TypeError)) ∧
  (dims_int self = true -> 0 ≤ xDim self -> 0 ≤ yDim self ->
   (forall id, id ∈ grainIds ->
      exists gr, py_getitem (grainList self) id = Ret gr ∧ coordList gr ≠ [] ∧
        forall p, p ∈ coordList gr -> inb self p) ->
   exists outline, highlightGrains nan_as_int self grainIds = Within (Ret outline) ∧
     has_shape outline (yDim self) (xDim self) ∧
     forall p, inb self p ->
       (label outline p = Some 1 ∨ label outline p = Some 0) ∧
       (label outline p = Some 1 <->
        exists id gr, id ∈ grainIds ∧ py_getitem (grainList self) id = Ret gr ∧
          p ∈ coordList gr)).
Proof.
  split; [intros Hf; unfold highlightGrains; by rewrite Hf|].
  intros Hint Hx Hy Hids. unfold highlightGrains. rewrite Hint.
  destruct (np_full_Ret (yDim self) (xDim self) 0 Hy Hx) as (o0 & Hfull & Hsh0 & Hz).
  rewrite Hfull, checked_ret_bind.
  destruct (for_all_returns
              (fun pre o =>
                 has_shape o (yDim self) (xDim self) ∧
                 Forall (Forall (fun c => c = 0 ∨ c = 1)) o ∧
                 forall p, inb self p ->
                   (label o p = Some 1 <->
                    exists id gr, id ∈ pre ∧ py_getitem (grainList self) id = Ret gr ∧
                      p ∈ coordList gr))
              (highlight_grain nan_as_int self) grainIds o0)
    as (outline & Hr & Hsh & H01 & Hc).
  - split; [done|]. split.
    + apply Forall_labels. intros p c Hp1 Hp2 Hl. left.
      assert (label o0 p = Some 0) as E; [|congruence].
      unfold label. apply Hz.
      * destruct Hsh0 as [Hr _]. apply label_nonneg_lookup in Hl as (row & Hrow & _);
          [|done..]. apply lookup_lt_Some in Hrow. lia.
      * destruct Hsh0 as [_ Hc]. apply label_nonneg_lookup in Hl as (row & Hrow & Hv);
          [|done..]. rewrite Forall_forall in Hc.
        pose proof (Hc row (list_elem_of_lookup_2 _ _ _ Hrow)).
        apply lookup_lt_Some in Hv. lia.
    + intros p [Hp1 Hp2]. unfold label. rewrite Hz by lia. split; [done|].
      by intros (id & gr & Hid%elem_of_nil & _).
  - intros pre id o Hpre (Hsh & H01 & Hc).
    destruct (Hids id (take_S_elem _ _ _ Hpre)) as (gr & Hget & Hne & Hin).
    destruct (highlight_grain_spec nan_as_int self o id gr Hsh H01 Hget Hne Hin)
      as (o' & Hrun & Hsh' & H01' & Hcells).
    exists o'. split; [done|]. split; [done|]. split; [done|].
    intros p Hp.
    destruct (has_shape_cell o _ _ p.2 p.1 Hsh) as [c Hold]; [destruct Hp; lia..|].
    rewrite (Hcells p c Hp Hold). split.
    + destruct (decide (p ∈ coordList gr)) as [Hpin|Hnin].
      * intros _. exists id, gr. split; [|done]. apply elem_of_app. right.
        by apply list_elem_of_singleton.
      * intros [= ->]. destruct (proj1 (Hc p Hp) Hold) as (id' & gr' & Hid' & Hg' & Hp').
        exists id', gr'. split; [|done]. apply elem_of_app. by left.
    + intros (id' & gr' & Hid' & Hg' & Hp').
      apply elem_of_app in Hid' as [Hid'|Hid'%list_elem_of_singleton].
      * assert (label o p = Some 1) as E by (apply Hc; eauto).
        assert (c = 1) as -> by (unfold label in E; congruence). by case_decide.
      * subst id'. rewrite Hget in Hg'. injection Hg' as <-. by rewrite decide_True.
  - exists outline. split; [done|]. split; [done|]. intros p Hp. split; [|by apply Hc].
    destruct (has_shape_cell outline _ _ p.2 p.1 Hsh) as [c Hl]; [destruct Hp; lia..|].
    rewrite Forall_labels in H01.
    destruct (H01 p c ltac:(destruct Hp; lia) ltac:(destruct Hp; lia) Hl) as [->| ->];
      [by right|by left].
Qed.

Lemma highlightGrains_union_witness :
  highlightGrains int64_0 map_4x4 [0] = Within (Raise TypeError) ∧
  exists outline, highlightGrains int64_0 map_two_grains [0; -1] = Within (Ret outline) ∧
    outline = [[0; 0; 0; 1]; [0; 1; 1; 0]; [0; 1; 0; 0]] ∧
    (label outline (3, 0) = Some 1 <->
     exists id gr, id ∈ [0; -1] ∧ py_getitem (grainList map_two_grains) id = Ret gr ∧
       (3, 0) ∈ coordList gr).
Proof.
  split; [by apply (highlightGrains_union int64_0 map_4x4 [0])|].
  destruct (proj2 (highlightGrains_union int64_0 map_two_grains [0; -1]))
    as (outline & Hr & _ & Hc); [reflexivity|simpl; lia|simpl; lia| |].
  - intros id Hid. apply elem_of_cons in Hid as [->|Hid].
    { exists grain_L. split; [reflexivity|]. split; [discriminate|].
      apply Forall_forall. unfold inb. compute_done. }
    apply list_elem_of_singleton in Hid as ->.
    exists grain_dot. split; [reflexivity|]. split; [discriminate|].
    apply Forall_forall. unfold inb. compute_done.
  - exists outline. split; [done|]. split; [|apply Hc; unfold inb; simpl; lia].
    assert (Within (Ret outline) = highlightGrains int64_0 map_two_grains [0; -1]) as E by done.
    vm_compute in E. by injection E as ->.
Defined.

(** * Further properties: the grains and the label grid *)

(** X15. After segmentation every unknown pixel of the mask lies in a grain
    that was grown, and the pixels that still carry -1 are exactly the
    boundary pixels of the mask that no grain absorbed. *)
Theorem every_pixel_accounted self mask m fuel st p :
  shape_ok self mask -> is_mask mask ->
  segment self mask m fuel = Ret st -> inb self p ->
  (label mask p = Some 0 ->
   exists gr, gr ∈ grown self m fuel (mask, [], 1) ∧ p ∈ coordList gr) ∧
  (label st.1.1 p = Some (-1) <->
   label mask p = Some (-1) ∧
   forall gr, gr ∈ grown self m fuel (mask, [], 1) -> p ∉ coordList gr).
Proof.
  intros Hsh Hm Hr Hp.
  destruct (segment_inv _ _ _ _ _ Hsh Hm Hr) as [Hinv Hnil].
  destruct (label_inb self st.1.1 p (si_shape Hinv) Hp) as [c Hc].
  pose proof Hp as [Hp1 Hp2].
  destruct (seg_inv_label_cases self mask m st _ p c Hinv Hnil
              ltac:(lia) ltac:(lia) Hc) as [(-> & Hmask & Hnone)|(Hne & H0 & gr & Hgr & Hin)].
  - split; [intros E; congruence|]. by split.
  - split; [eauto|]. split.
    + intros E. congruence.
    + intros [_ Hnone]. by destruct (Hnone gr Hgr).
Qed.

Lemma every_pixel_accounted_witness :
  exists st, segment pocket_map pocket_mask 4 9 = Ret st ∧
    (exists gr, gr ∈ grown pocket_map 4 9 (pocket_mask, [], 1) ∧ (4, 0) ∈ coordList gr) ∧
    (label st.1.1 (3, 2) = Some (-1) <->
     label pocket_mask (3, 2) = Some (-1) ∧
     forall gr, gr ∈ grown pocket_map 4 9 (pocket_mask, [], 1) -> (3, 2) ∉ coordList gr).
Proof.
  eexists. split; [vm_compute; reflexivity|].
  destruct (every_pixel_accounted pocket_map pocket_mask 4 9 _ (4, 0)
              ltac:(unfold shape_ok; compute_done) ltac:(unfold is_mask; compute_done)
              ltac:(vm_compute; reflexivity) ltac:(unfold inb; simpl; lia)) as [H0 _].
  destruct (every_pixel_accounted pocket_map pocket_mask 4 9 _ (3, 2)
              ltac:(unfold shape_ok; compute_done) ltac:(unfold is_mask; compute_done)
              ltac:(vm_compute; reflexivity) ltac:(unfold inb; simpl; lia)) as [_ H1].
  split; [by apply H0|done].
Defined.

(** X16. Every grain that segmentation grows has at least one pixel, holds
    no pixel twice, stores one sample per pixel, and lies inside the cropped
    grid together with its bounding box, which [extremeCoords] returns. *)
Theorem grown_grains_wellformed self mask m fuel st gr :
  shape_ok self mask -> is_mask mask ->
  segment self mask m fuel = Ret st ->
  gr ∈ grown self m fuel (mask, [], 1) ->
  1 ≤ len gr ∧ NoDup (coordList gr) ∧
  length (maxShearList gr) = length (coordList gr) ∧
  (forall p, p ∈ coordList gr -> inb self p) ∧
  exists x0 y0 xmax ymax, extremeCoords gr = Ret (x0, y0, xmax, ymax) ∧
    0 ≤ x0 ≤ xmax ∧ xmax < xDim self ∧ 0 ≤ y0 ≤ ymax ∧ ymax < yDim self.
Proof.
  intros Hsh Hm Hr Hgr.
  destruct (segment_inv _ _ _ _ _ Hsh Hm Hr) as [Hinv _].
  destruct (grain_ok_facts self mask gr Hsh (si_grains Hinv gr Hgr))
    as (Hnd & Hlen & Hpos & Hin).
  split; [done|]. split; [done|]. split; [done|]. split; [done|].
  assert (coordList gr ≠ []) as Hne.
  { unfold len in Hpos. destruct (coordList gr); [simpl in Hpos; lia|done]. }
  destruct (extremeCoords_Ret gr Hne)
    as (x0 & y0 & xmax & ymax & He & Hbox & (px0 & Hpx0 & Ex0) & (py0 & Hpy0 & Ey0)
        & (px1 & Hpx1 & Ex1) & (py1 & Hpy1 & Ey1)).
  exists x0, y0, xmax, ymax. split; [done|].
  pose proof (Hin _ Hpx0) as [? _]. pose proof (Hin _ Hpy0) as [_ ?].
  pose proof (Hin _ Hpx1) as [? _]. pose proof (Hin _ Hpy1) as [_ ?].
  pose proof (Hbox _ Hpx0). lia.
Qed.

Lemma grown_grains_wellformed_witness :
  exists gr, grown pocket_map 4 9 (pocket_mask, [], 1) !! 1%nat = Some gr ∧
    len gr = 3 ∧ NoDup (coordList gr) ∧
    extremeCoords gr = Ret (4, 0, 4, 2).
Proof.
  eexists. split; [vm_compute; reflexivity|].
  edestruct (grown_grains_wellformed pocket_map pocket_mask 4 9)
    as (_ & Hnd & _ & _ & _).
  - unfold shape_ok. compute_done.
  - unfold is_mask. compute_done.
  - vm_compute; reflexivity.
  - apply elem_of_cons. right. apply elem_of_cons. by left.
  - split; [reflexivity|]. split; [exact Hnd|reflexivity].
Defined.

(** X17. With [minGrainSize] at most 1 no grain is discarded: the registry
    holds every grain grown, in order, and no pixel is labelled -2. *)
Theorem small_floor_keeps_everything self mask m fuel st :
  m ≤ 1 -> shape_ok self mask -> is_mask mask ->
  segment self mask m fuel = Ret st ->
  st.1.2 = grown self m fuel (mask, [], 1) ∧
  discarded self m fuel (mask, [], 1) = [] ∧
  Forall (Forall (fun c => c ≠ -2)) st.1.1.
Proof.
  intros Hm1 Hsh Hm Hr.
  destruct (segment_inv _ _ _ _ _ Hsh Hm Hr) as [Hinv _].
  assert (forall gr, gr ∈ grown self m fuel (mask, [], 1) -> m ≤ len gr) as Hall.
  { intros gr Hgr.
    destruct (grain_ok_facts self mask gr Hsh (si_grains Hinv gr Hgr)) as (_ & _ & ? & _).
    lia. }
  split; [|split].
  - rewrite (si_kept Hinv). by apply filter_all.
  - unfold discarded. apply filter_none. intros gr Hgr. pose proof (Hall gr Hgr). lia.
  - apply Forall_labels. intros p c H1 H2 Hc ->.
    apply (si_purged Hinv p H1 H2) in Hc as (gr & Hgr & Hlt & _).
    pose proof (Hall gr Hgr). lia.
Qed.

Lemma small_floor_keeps_everything_witness :
  exists st, segment pocket_map pocket_mask 1 9 = Ret st ∧
    length st.1.2 = 2%nat ∧
    st.1.2 = grown pocket_map 1 9 (pocket_mask, [], 1) ∧
    Forall (Forall (fun c => c ≠ -2)) st.1.1.
Proof.
  eexists. split; [vm_compute; reflexivity|]. split; [reflexivity|].
  destruct (small_floor_keeps_everything pocket_map pocket_mask 1 9 _
              ltac:(lia) ltac:(unfold shape_ok; compute_done)
              ltac:(unfold is_mask; compute_done) ltac:(vm_compute; reflexivity))
    as (H1 & _ & H3).
  by split.
Defined.

(** X18. When [findGrains] returns, its label grid and registry are those
    of the segmentation, each grain with its pixels and samples as grown;
    [ebsdGrainIds] has one entry per grain, the same that the grain stores
    as [ebsdGrainId]; every grain holds an EBSD grain that exists in
    [ebsdMap.grainList]; and the sizes, the crop and the field of the map are
    as before. *)
Theorem findGrains_links_every_grain warp_to_ebsd self mask ebsdMap m fuel self' :
  findGrains warp_to_ebsd self mask ebsdMap m fuel = Ret self' ->
  exists st, segment self mask m fuel = Ret st ∧
    grains self' = st.1.1 ∧
    coordList <$> grainList self' = coordList <$> st.1.2 ∧
    maxShearList <$> grainList self' = maxShearList <$> st.1.2 ∧
    length (ebsdGrainIds self') = length (grainList self') ∧
    (forall (i : nat) gr, grainList self' !! i = Some gr ->
       exists id (pos : nat), ebsdGrainIds self' !! i = Some id ∧
         ebsdGrainId gr = Some id ∧ ebsdGrain gr = Some pos ∧
         (pos < ebsd_grainList ebsdMap)%nat) ∧
    (xdim self', ydim self', xDim self', yDim self')
      = (xdim self, ydim self, xDim self, yDim self) ∧
    cropDists self' = cropDists self ∧ max_shear self' = max_shear self ∧
    ebsdShift self' = ebsdShift self.
Proof.
  intros Hr. unfold findGrains in Hr. inv_bind Hr. destruct a as [[g gl] k].
  inv_bind Hr. destruct a as [gl' ids]. inv_ret.
  exists (g, gl, k). split; [done|]. simpl.
  destruct (findGrains_link_frame _ _ _ _ _ Ha0) as [Hc Hs].
  destruct (findGrains_link_Ret _ _ _ _ Ha0) as (Hn & Hd & Hall). simpl in *.
  split; [done|]. split; [done|]. split; [done|]. split; [lia|].
  split; [|done].
  intros i gr Hi. apply lookup_lt_Some in Hi as Hlt.
  destruct (Hall i ltac:(lia)) as (fp & mo & c & gr' & pos & _ & _ & _ & Hpos & Hid & Hg & H1 & H2).
  rewrite Hi in Hg. injection Hg as <-.
  exists (mo - 1), pos. split; [done|]. split; [done|]. split; [done|].
  unfold py_index in Hpos.
  destruct (norm_index (length (seq 0 (ebsd_grainList ebsdMap))) (mo - 1)) as [n|] eqn:En;
    [|done].
  injection Hpos as <-. apply norm_index_lt in En. by rewrite length_seq in En.
Qed.

Lemma findGrains_links_every_grain_witness :
  exists self' st,
    findGrains (fun _ g => g) pocket_map pocket_mask
      {| ebsd_grains := [[5; 5; 5; 0; 2]; [5; 5; 5; 0; 2]; [5; 5; 5; 0; 0]];
         ebsd_grainList := 6 |} 1 9 = Ret self' ∧
    segment pocket_map pocket_mask 1 9 = Ret st ∧
    grains self' = st.1.1 ∧ ebsdGrainIds self' = [4; 1] ∧
    length (ebsdGrainIds self') = length (grainList self').
Proof.
  eexists.
  edestruct (findGrains_links_every_grain (fun _ g => g) pocket_map pocket_mask
               {| ebsd_grains := [[5; 5; 5; 0; 2]; [5; 5; 5; 0; 2]; [5; 5; 5; 0; 0]];
                  ebsd_grainList := 6 |} 1 9) as (st & Hs & Hg & _ & _ & Hl & _).
  - vm_compute. reflexivity.
  - exists st. split; [reflexivity|]. split; [done|]. split; [done|].
    split; [reflexivity|done].
Defined.

(** * Further properties: selecting a grain by a click *)

(** X19. After [findGrains] on a map that [setCrop] has given integer
    sizes, a click on a pixel that carries a grain label
    [c >= 1] selects the id [c - 1] and highlights exactly the pixels that
    carry the label [c].  A click on a pixel that carries -1 or -2 (a boundary
    pixel that no grain absorbed, or a pixel of a discarded grain) selects
    the negative id [c - 1], which Python counts from the end of the
    registry: it raises [IndexError] when the registry has fewer than
    [1 - c] grains, and otherwise highlights a grain that does not contain
    the pixel clicked.  An event outside the axes selects nothing.  On a map
    whose sizes are still the floats of [__init__] every click on a pixel
    raises [TypeError] when the overlay is allocated. *)
Theorem clickGrainId_selects nan_as_int warp_to_ebsd self mask ebsdMap m fuel self'
    x y c :
  shape_ok self mask -> is_mask mask ->
  findGrains warp_to_ebsd self mask ebsdMap m fuel = Ret self' ->
  inb self (x, y) -> label (grains self') (x, y) = Some c ->
  clickGrainId nan_as_int self' None = Within (Ret None) ∧
  (dims_int self = false ->
   clickGrainId nan_as_int self' (Some (x, y)) = Within (Raise TypeError)) ∧
  (dims_int self = true -> 1 ≤ c ->
   exists outline,
     clickGrainId nan_as_int self' (Some (x, y))
     = Within (Ret (Some (c - 1, outline))) ∧
     forall p, inb self p ->
       label outline p
       = Some (if decide (label (grains self') p = Some c) then 1 else 0)) ∧
  (dims_int self = true -> c < 0 ->
   (Z.of_nat (length (grainList self')) < 1 - c ->
    clickGrainId nan_as_int self' (Some (x, y)) = Within (Raise IndexError)) ∧
   (1 - c ≤ Z.of_nat (length (grainList self')) ->
    exists outline gr,
      clickGrainId nan_as_int self' (Some (x, y))
      = Within (Ret (Some (c - 1, outline))) ∧
      grainList self' !! Z.to_nat (Z.of_nat (length (grainList self')) + (c - 1))
        = Some gr ∧
      ((x, y) ∉ coordList gr) ∧
      forall p, inb self p ->
        label outline p = Some (if decide (p ∈ coordList gr) then 1 else 0))).
Proof.
  intros Hsh Hm Hr Hxy Hc. split; [done|].
  unfold findGrains in Hr. inv_bind Hr. destruct a as [[g gl] k].
  inv_bind Hr. destruct a as [gl' ids]. inv_ret.
  set (self' := {| xdim := xdim self; ydim := ydim self; xDim := xDim self;
                   yDim := yDim self; dims_int := dims_int self;
                   cropDists := cropDists self;
                   max_shear := max_shear self; ebsdShift := ebsdShift self;
                   grains := g; grainList := gl'; ebsdGrainIds := ids |}) in *.
  change (grains self') with g in *. change (grainList self') with gl' in *.
  destruct (segment_inv _ _ _ _ _ Hsh Hm Ha) as [Hinv Hnil]. cbn [fst snd] in *.
  destruct (findGrains_link_frame _ _ _ _ _ Ha0) as [Hcoords _].
  assert (Hlen : length gl' = length gl).
  { apply (f_equal length) in Hcoords. by rewrite !length_fmap in Hcoords. }
  assert (Hgl : forall (i : nat) gr', gl' !! i = Some gr' ->
            exists gr, gl !! i = Some gr ∧ coordList gr' = coordList gr ∧
              coordList gr' ≠ [] ∧ (forall p, p ∈ coordList gr' -> inb self p) ∧
              forall p, inb self p ->
                (label g p = Some (Z.of_nat i + 1) <-> p ∈ coordList gr')).
  { intros i gr' Hi.
    destruct (lookup_lt_is_Some_2 gl i) as [gr Hgr];
      [apply lookup_lt_Some in Hi; lia|].
    assert (coordList gr' = coordList gr) as E.
    { apply (f_equal (.!! i)) in Hcoords. rewrite !list_lookup_fmap, Hi, Hgr in Hcoords.
      by injection Hcoords. }
    exists gr. split; [done|]. split; [done|]. rewrite E.
    destruct (seg_inv_kept_grown self mask m _ _ gr Hinv
                (list_elem_of_lookup_2 _ _ _ Hgr)) as [Hgrown _].
    destruct (grain_ok_facts self mask gr Hsh (si_grains Hinv gr Hgrown))
      as (_ & _ & Hpos & Hin).
    split; [|split; [done|]].
    - unfold len in Hpos. destruct (coordList gr); [simpl in Hpos; lia|done].
    - intros p [Hp1 Hp2]. apply (si_registry Hinv i gr Hgr); lia. }
  assert (Hdims : 0 ≤ xDim self' ∧ 0 ≤ yDim self') by (destruct Hxy; simpl in *; lia).
  assert (Hclick : clickGrainId nan_as_int self' (Some (x, y))
                   = outline ← highlightGrains nan_as_int self' [c - 1];
                     mret (Some (c - 1, outline))).
  { unfold clickGrainId. change (grains self') with g. unfold label in Hc.
    cbn [fst snd] in Hc. apply getitem_Ret in Hc. by rewrite Hc. }
  split; [|split].
  - intros Hf. rewrite Hclick. unfold highlightGrains.
    change (dims_int self') with (dims_int self). by rewrite Hf.
  - intros Hint Hpos.
    pose proof (si_values Hinv (x, y) c ltac:(destruct Hxy; simpl in *; lia)
                  ltac:(destruct Hxy; simpl in *; lia) Hc) as Hv.
    rewrite (si_index Hinv) in Hv. simpl in Hv.
    destruct (lookup_lt_is_Some_2 gl' (Z.to_nat (c - 1))) as [gr' Hgr']; [lia|].
    destruct (Hgl _ _ Hgr') as (gr & Hgr & E & Hne & Hin & Hreg).
    destruct (highlight_single nan_as_int self' (c - 1) gr' Hint
                (proj1 Hdims) (proj2 Hdims))
      as (outline & Hrun & Hcells); [|done|done|].
    { replace (c - 1) with (Z.of_nat (Z.to_nat (c - 1))) by lia.
      by apply py_getitem_lookup. }
    exists outline. split; [by rewrite Hclick, Hrun|].
    intros p Hp. rewrite (Hcells p Hp).
    replace (Z.of_nat (Z.to_nat (c - 1)) + 1) with c in Hreg by lia.
    destruct (decide (p ∈ coordList gr')) as [Hpin|Hnin].
    + by rewrite decide_True by (by apply Hreg).
    + rewrite decide_False; [done|]. intros Hl. by apply Hnin, Hreg.
  - intros Hint Hneg.
    destruct (py_getitem_negative gl' (c - 1) ltac:(lia)) as [Hout Hinr]. split.
    + intros Hshort. rewrite Hclick.
      rewrite (highlight_missing nan_as_int self' (c - 1) [] Hint
                 (proj1 Hdims) (proj2 Hdims)); [done|].
      apply Hout. lia.
    + intros Hlong. destruct Hinr as (gr' & Hgr' & Hget); [lia|].
      destruct (Hgl _ _ Hgr') as (gr & Hgr & E & Hne & Hin & Hreg).
      destruct (highlight_single nan_as_int self' (c - 1) gr' Hint
                  (proj1 Hdims) (proj2 Hdims) Hget Hne Hin)
        as (outline & Hrun & Hcells).
      exists outline, gr'. split; [by rewrite Hclick, Hrun|]. split; [done|].
      split; [|done].
      intros Hpin. apply (Hreg (x, y) Hxy) in Hpin. rewrite Hc in Hpin.
      injection Hpin as E'. lia.
Qed.

Lemma clickGrainId_selects_witness :
  (exists self',
     findGrains (fun _ g => g) (Map_init 5 3 (replicate 3 (replicate 5 0.5%float)))
       pocket_mask
       {| ebsd_grains := [[5; 5; 5; 0; 2]; [5; 5; 5; 0; 2]; [5; 5; 5; 0; 0]];
          ebsd_grainList := 6 |} 1 9 = Ret self' ∧
     clickGrainId int64_0 self' (Some (4, 1)) = Within (Raise TypeError)) ∧
  exists self',
    findGrains (fun _ g => g) pocket_map pocket_mask
      {| ebsd_grains := [[5; 5; 5; 0; 2]; [5; 5; 5; 0; 2]; [5; 5; 5; 0; 0]];
         ebsd_grainList := 6 |} 1 9 = Ret self' ∧
    grains self' = [[1; 1; 1; 1; 2]; [1; 1; 1; 1; 2]; [1; 1; 1; 1; 2]] ∧
    exists outline,
      clickGrainId int64_0 self' (Some (4, 1)) = Within (Ret (Some (2 - 1, outline))) ∧
      forall p, inb pocket_map p ->
        label outline p = Some (if decide (label (grains self') p = Some 2) then 1 else 0).
Proof.
  split.
  { assert (exists self',
              findGrains (fun _ g => g)
                (Map_init 5 3 (replicate 3 (replicate 5 0.5%float))) pocket_mask
                {| ebsd_grains := [[5; 5; 5; 0; 2]; [5; 5; 5; 0; 2]; [5; 5; 5; 0; 0]];
                   ebsd_grainList := 6 |} 1 9 = Ret self') as [self' Hf]
      by (eexists; vm_compute; reflexivity).
    exists self'. split; [done|].
    assert (grains self' = [[1; 1; 1; 1; 2]; [1; 1; 1; 1; 2]; [1; 1; 1; 1; 2]]) as Hg.
    { assert (Ret self' = findGrains (fun _ g => g)
                (Map_init 5 3 (replicate 3 (replicate 5 0.5%float))) pocket_mask
                {| ebsd_grains := [[5; 5; 5; 0; 2]; [5; 5; 5; 0; 2]; [5; 5; 5; 0; 0]];
                   ebsd_grainList := 6 |} 1 9) as E by done.
      vm_compute in E. by injection E as ->. }
    destruct (clickGrainId_selects int64_0 (fun _ g => g)
                (Map_init 5 3 (replicate 3 (replicate 5 0.5%float))) pocket_mask
                {| ebsd_grains := [[5; 5; 5; 0; 2]; [5; 5; 5; 0; 2]; [5; 5; 5; 0; 0]];
                   ebsd_grainList := 6 |} 1 9 self' 4 1 2) as (_ & Hfloat & _).
    - unfold shape_ok. compute_done.
    - unfold is_mask. compute_done.
    - done.
    - unfold inb. simpl. lia.
    - by rewrite Hg.
    - by apply Hfloat. }
  assert (exists self',
            findGrains (fun _ g => g) pocket_map pocket_mask
              {| ebsd_grains := [[5; 5; 5; 0; 2]; [5; 5; 5; 0; 2]; [5; 5; 5; 0; 0]];
                 ebsd_grainList := 6 |} 1 9 = Ret self') as [self' Hf]
    by (eexists; vm_compute; reflexivity).
  exists self'. split; [done|].
  assert (grains self' = [[1; 1; 1; 1; 2]; [1; 1; 1; 1; 2]; [1; 1; 1; 1; 2]]) as Hg.
  { assert (Ret self' = findGrains (fun _ g => g) pocket_map pocket_mask
              {| ebsd_grains := [[5; 5; 5; 0; 2]; [5; 5; 5; 0; 2]; [5; 5; 5; 0; 0]];
                 ebsd_grainList := 6 |} 1 9) as E by done.
    vm_compute in E. by injection E as ->. }
  split; [done|].
  destruct (clickGrainId_selects int64_0 (fun _ g => g) pocket_map pocket_mask
              {| ebsd_grains := [[5; 5; 5; 0; 2]; [5; 5; 5; 0; 2]; [5; 5; 5; 0; 0]];
                 ebsd_grainList := 6 |} 1 9 self' 4 1 2) as (_ & _ & Hpos & _).
  - unfold shape_ok. compute_done.
  - unfold is_mask. compute_done.
  - done.
  - unfold inb. simpl. lia.
  - by rewrite Hg.
  - apply Hpos; [reflexivity|lia].
Defined.

(** * Further properties: seeding order and narrow grids *)

(** X20. Grains are seeded in raster order: every grain starts with its
    seed, the first pixel still unknown when it was grown, and of two grains
    of the registry (or of the grains grown) the earlier one has the earlier
    seed, row by row and from left to right within a row. *)
Theorem grains_in_raster_order self mask m fuel st (i j : nat) gr gr' :
  shape_ok self mask -> is_mask mask ->
  segment self mask m fuel = Ret st -> (i < j)%nat ->
  (grown self m fuel (mask, [], 1) !! i = Some gr ->
   grown self m fuel (mask, [], 1) !! j = Some gr' -> seed_before gr gr') ∧
  (st.1.2 !! i = Some gr -> st.1.2 !! j = Some gr' -> seed_before gr gr').
Proof.
  intros Hsh Hm Hr Hij.
  destruct (segment_inv _ _ _ _ _ Hsh Hm Hr) as [Hinv _].
  pose proof (grown_sorted self m fuel (mask, [], 1) Hsh ltac:(simpl; lia)) as Hs.
  split.
  - intros Hi Hj. by eapply StronglySorted_lookup_lt.
  - rewrite (si_kept Hinv). intros Hi Hj.
    eapply StronglySorted_lookup_lt; [|exact Hij|exact Hi|exact Hj].
    by apply StronglySorted_filter_2.
Qed.

Lemma grains_in_raster_order_witness :
  exists st gr gr', segment pocket_map pocket_mask 1 9 = Ret st ∧
    st.1.2 !! 0%nat = Some gr ∧ st.1.2 !! 1%nat = Some gr' ∧
    head (coordList gr) = Some (0, 0) ∧ head (coordList gr') = Some (4, 0) ∧
    seed_before gr gr'.
Proof.
  do 3 eexists. split; [vm_compute; reflexivity|].
  split; [reflexivity|]. split; [reflexivity|]. split; [reflexivity|].
  split; [reflexivity|].
  eapply (grains_in_raster_order pocket_map pocket_mask 1 9 _ 0 1).
  - unfold shape_ok. compute_done.
  - unfold is_mask. compute_done.
  - vm_compute. reflexivity.
  - lia.
  - reflexivity.
  - reflexivity.
Defined.

(** X21. On a grid one pixel wide or one pixel high that has an unknown
    pixel, [findGrains] raises [IndexError] in its first flood fill: the
    bound tests delete one neighbour per axis, so a neighbour outside the
    grid is left among the moves and read. *)
Theorem narrow_grid_raises self mask m fuel :
  shape_ok self mask -> xDim self = 1 ∨ yDim self = 1 ->
  np_where_eq mask 0 ≠ [] -> (2 ≤ fuel)%nat ->
  segment self mask m fuel = Raise IndexError.
Proof.
  intros Hsh Hnarrow Hne Hfuel.
  destruct (np_where_eq mask 0) as [|[row col] rest] eqn:E; [done|].
  destruct fuel as [|[|fuel]]; [lia..|].
  unfold segment. cbn [findGrains_while fst snd]. rewrite E.
  destruct (np_where_head mask row col rest E) as (Hrow & Hcol & Hl0).
  pose proof (label_Some_inb self mask (col, row) 0 Hsh Hcol Hrow Hl0) as Hin.
  unfold findGrains_pass, floodFill.
  destruct (getitem (max_shear self) _ _) as [ms|e|] eqn:Em.
  - simpl. destruct (setitem_inb self mask (col, row) 1 Hsh Hin) as [g' Hset].
    simpl in Hset. rewrite Hset. simpl.
    rewrite (expand_narrow self 1 _ (col, row)); [done| |done|done].
    by apply (setitem_label mask (col, row) 1 g' Hcol Hrow Hset).
  - simpl. by rewrite (getitem_Raise _ _ _ _ Em).
  - by destruct (getitem_not_Diverge _ _ _ Em).
Qed.

Lemma narrow_grid_raises_witness :
  segment (plain_map 1 3 [[1]; [2]; [3]]%float) [[-1]; [0]; [0]] 10 2
  = Raise IndexError.
Proof.
  apply narrow_grid_raises.
  - unfold shape_ok. compute_done.
  - by left.
  - discriminate.
  - lia.
Defined.

(** * Further properties: the samples of a grain *)

(** X22. In every grain that segmentation grows, only the first sample is
    the scalar field at its own pixel, the seed; every later sample is the
    field at an earlier pixel of the grain, unknown in the mask and
    4-adjacent to the pixel the sample is stored with: the frontier pixel
    from which that pixel was reached. *)
Theorem samples_taken_at_the_parent self mask m fuel st gr (i : nat) p v :
  shape_ok self mask -> is_mask mask ->
  segment self mask m fuel = Ret st ->
  gr ∈ grown self m fuel (mask, [], 1) ->
  coordList gr !! i = Some p -> maxShearList gr !! i = Some v ->
  (i = 0%nat ∧ field_sample self p = Ret v) ∨
  (exists (j : nat) q, (j < i)%nat ∧ coordList gr !! j = Some q ∧ adj4 q p ∧
     label mask q = Some 0 ∧ field_sample self q = Ret v).
Proof.
  intros Hsh Hm Hr Hgr Hi Hv.
  pose proof (findGrains_while_sampled self mask m fuel (mask, [], 1) st []
                (seg_inv_init _ _ _ Hsh Hm)) as Hall.
  apply (Hall ltac:(by intros ? ?%elem_of_nil) Hr gr); [|done..].
  by rewrite app_nil_l.
Qed.

Lemma samples_taken_at_the_parent_witness :
  exists gr, grown field_2x2 1 5 ([[0; 0]; [0; 0]], [], 1) = [gr] ∧
    coordList gr !! 3%nat = Some (1, 1) ∧ maxShearList gr !! 3%nat = Some 20%float ∧
    field_sample field_2x2 (1, 1) = Ret 40%float ∧
    ((3%nat = 0%nat ∧ field_sample field_2x2 (1, 1) = Ret 20%float) ∨
     (exists (j : nat) q, (j < 3)%nat ∧ coordList gr !! j = Some q ∧ adj4 q (1, 1) ∧
        label [[0; 0]; [0; 0]] q = Some 0 ∧ field_sample field_2x2 q = Ret 20%float)).
Proof.
  eexists. split; [vm_compute; reflexivity|]. split; [reflexivity|].
  split; [reflexivity|]. split; [reflexivity|].
  eapply (samples_taken_at_the_parent field_2x2 [[0; 0]; [0; 0]] 1 5).
  - unfold shape_ok. compute_done.
  - unfold is_mask. compute_done.
  - vm_compute. reflexivity.
  - apply elem_of_cons. left. vm_compute. reflexivity.
  - reflexivity.
  - reflexivity.
Defined.

(** * Further properties: boundary pixels left over *)

(** X23. On a grid at least two pixels wide and high, a boundary pixel that
    has an unknown pixel directly to its left or directly above it is absorbed
    by a grain: after segmentation it lies in a grain that was grown and no
    longer carries -1.  So the pixels that still carry -1 have no unknown
    pixel of the mask to their left or above them. *)
Theorem forward_boundary_is_absorbed self mask m fuel st p b :
  shape_ok self mask -> is_mask mask -> 2 ≤ xDim self -> 2 ≤ yDim self ->
  segment self mask m fuel = Ret st ->
  inb self p -> inb self b -> adj4 p b -> forward p b ->
  label mask p = Some 0 -> label mask b = Some (-1) ->
  (exists gr, gr ∈ grown self m fuel (mask, [], 1) ∧ b ∈ coordList gr) ∧
  label st.1.1 b ≠ Some (-1).
Proof.
  intros Hsh Hm Hx Hy Hr Hp Hb Hadj Hfw Hp0 Hb1.
  destruct (segment_inv _ _ _ _ _ Hsh Hm Hr) as [Hinv Hnil].
  pose proof (findGrains_while_absorbs self mask m fuel (mask, [], 1) st [] Hx Hy
                (seg_inv_init _ _ _ Hsh Hm) ltac:(by intros ? ?%elem_of_nil) Hr) as Habs.
  rewrite app_nil_l in Habs.
  destruct (label_inb self st.1.1 p (si_shape Hinv) Hp) as [c Hc].
  destruct (seg_inv_label_cases self mask m st _ p c Hinv Hnil
              ltac:(destruct Hp; lia) ltac:(destruct Hp; lia) Hc)
    as [(_ & Hmask & _)|(_ & _ & gr & Hgr & Hin)]; [congruence|].
  destruct (Habs gr Hgr p b Hin Hp0 Hadj Hfw Hb Hb1) as (gr' & Hgr' & Hbin).
  split; [eauto|].
  destruct (seg_inv_claimed self mask m st _ gr' b Hinv Hgr' Hbin)
    as (_ & _ & c' & Hc' & _ & Hne).
  congruence.
Qed.

Lemma forward_boundary_is_absorbed_witness :
  exists st, segment pocket_map pocket_mask 4 9 = Ret st ∧
    label pocket_mask (2, 1) = Some 0 ∧ label pocket_mask (3, 1) = Some (-1) ∧
    (exists gr, gr ∈ grown pocket_map 4 9 (pocket_mask, [], 1) ∧ (3, 1) ∈ coordList gr) ∧
    label st.1.1 (3, 1) ≠ Some (-1).
Proof.
  eexists. split; [vm_compute; reflexivity|].
  split; [reflexivity|]. split; [reflexivity|].
  apply (forward_boundary_is_absorbed pocket_map pocket_mask 4 9 _ (2, 1) (3, 1)).
  - unfold shape_ok. compute_done.
  - unfold is_mask. compute_done.
  - simpl; lia.
  - simpl; lia.
  - vm_compute. reflexivity.
  - unfold inb. simpl. lia.
  - unfold inb. simpl. lia.
  - unfold adj4. simpl. lia.
  - unfold forward. simpl. lia.
  - reflexivity.
  - reflexivity.
Defined.

(** * Further properties: counting pixels *)

(** X24. Segmentation shares the unknown pixels of the mask out among the
    grains it grows: each unknown pixel is counted in exactly one grain, so
    the numbers of unknown pixels of the grains grown add up to the number
    of unknown pixels of the mask. *)
Theorem unknown_pixels_are_shared_out self mask m fuel st :
  shape_ok self mask -> is_mask mask ->
  segment self mask m fuel = Ret st ->
  sum_list ((fun gr => length (interior_list mask gr))
              <$> grown self m fuel (mask, [], 1))
  = unknown mask.
Proof.
  intros Hsh Hm Hr.
  destruct (segment_inv _ _ _ _ _ Hsh Hm Hr) as [Hinv Hnil].
  set (gs := grown self m fuel (mask, [], 1)) in *.
  assert (NoDup (mjoin (interior_list mask <$> gs))) as Hnd.
  { apply NoDup_join_disjoint.
    - intros l (gr & -> & Hgr)%list_elem_of_fmap. apply NoDup_filter.
      by destruct (si_grains Hinv gr Hgr) as (? & _).
    - intros i j l l' Hij Hi Hj x Hx Hx'.
      rewrite list_lookup_fmap in Hi, Hj.
      destruct (gs !! i) as [gr|] eqn:Ei; [|done].
      destruct (gs !! j) as [gr'|] eqn:Ej; [|done]. simplify_eq/=.
      apply list_elem_of_filter in Hx as [_ Hx]. apply list_elem_of_filter in Hx' as [_ Hx'].
      by apply (si_disjoint Hinv i j gr gr' Ei Ej Hij x). }
  assert (mjoin (interior_list mask <$> gs)
          ≡ₚ (fun rc : Z * Z => (rc.2, rc.1)) <$> np_where_eq mask 0) as Hperm.
  { apply NoDup_Permutation; [done| |].
    - apply (@NoDup_fmap_2 _ _ _ swap_inj). apply where_rows_NoDup.
    - intros p. rewrite list_elem_of_join, list_elem_of_fmap. split.
      + intros (l & Hp & (gr & -> & Hgr)%list_elem_of_fmap).
        apply list_elem_of_filter in Hp as [Hp0 Hp].
        destruct (si_grains Hinv gr Hgr) as (_ & _ & Hnn & _).
        destruct (Hnn p Hp) as (H1 & H2 & _).
        exists (p.2, p.1). split; [by destruct p|]. by apply np_where_elem.
      + intros ([r c] & -> & (H1 & H2 & Hc)%np_where_elem). simpl.
        assert (inb self (c, r)) as Hp by (by eapply label_Some_inb).
        destruct (label_inb self st.1.1 (c, r) (si_shape Hinv) Hp) as [v Hv].
        destruct (seg_inv_label_cases self mask m st _ (c, r) v Hinv Hnil H2 H1 Hv)
          as [(_ & Hmask & _)|(_ & _ & gr & Hgr & Hin)];
          [unfold label in Hmask; simpl in Hmask; congruence|].
        exists (interior_list mask gr). split.
        * by apply list_elem_of_filter.
        * by apply list_elem_of_fmap_2. }
  apply Permutation_length in Hperm.
  rewrite length_join, length_fmap, <- list_fmap_compose in Hperm. exact Hperm.
Qed.

Lemma unknown_pixels_are_shared_out_witness :
  (length <$> (interior_list pocket_mask <$> grown pocket_map 4 9 (pocket_mask, [], 1)))
  = [9; 2]%nat ∧
  sum_list ((fun gr => length (interior_list pocket_mask gr))
              <$> grown pocket_map 4 9 (pocket_mask, [], 1))
  = unknown pocket_mask.
Proof.
  split; [vm_compute; reflexivity|].
  eapply (unknown_pixels_are_shared_out pocket_map pocket_mask 4 9).
  - unfold shape_ok. compute_done.
  - unfold is_mask. compute_done.
  - vm_compute. reflexivity.
Defined.
